(** * remotelist: a cached remote list with pluggable matchers

    Shallow embedding of [main.go] of the Go package [remotelist] and the
    properties of its fetch-and-cache pipeline and of its record store.

    Go strings are byte strings and are modelled by [string] (one [ascii] per
    byte).  The record map [map[string]struct{}] is a [gset string].  The file
    system, the clock and the remote server form an explicit world that the
    effectful functions thread through a small state-and-trace monad. *)

From Stdlib Require Import ZArith NArith Ascii String.
From stdpp Require Import base decidable option list sorting strings pretty gmap sets.

Local Open Scope Z_scope.

(* ===================================================================== *)
(** * The [strings] package, on bytes *)
(* ===================================================================== *)

(** The functions of Go's [strings] package that [main.go] calls, following
    the loops of the library.  [HasPrefix], [HasSuffix], [Index], [Contains]
    and [Split] work on bytes and are modelled for every string.
    [TrimSpace] is modelled in full, with its decoding of UTF-8 and the
    white space of [unicode.IsSpace].  [ToLower] and [EqualFold] are
    modelled on their ASCII paths only: the library's case tables for the
    runes from [utf8.RuneSelf] (128) upwards are not part of this
    repository, and a theorem that depends on the case of letters says that
    its strings are ASCII ([is_ascii]). *)
Module GoStrings.

Definition len (s : string) : nat := String.length s.

(** [asciiSpace]: the table of the library, '\t' '\n' '\v' '\f' '\r' ' '. *)
Definition asciiSpace (c : ascii) : bool :=
  let n := N_of_ascii c in
  ((9 <=? n) && (n <=? 13) || (n =? 32))%N.

Definition isUpper (c : ascii) : bool :=
  let n := N_of_ascii c in ((65 <=? n) && (n <=? 90))%N.

(** [c += 'a' - 'A'] on an upper-case letter. *)
Definition lowerByte (c : ascii) : ascii :=
  if isUpper c then ascii_of_N (N_of_ascii c + 32) else c.

(** [ToLower] on its ASCII path: each upper-case letter is replaced by its
    lower-case form, every other byte is kept.  On a string with a byte
    from [utf8.RuneSelf] upwards the library maps [unicode.ToLower] over the
    runes instead; that path is outside this model. *)
Fixpoint ToLower (s : string) : string :=
  match s with
  | EmptyString => EmptyString
  | String c s' => String (lowerByte c) (ToLower s')
  end.

(** One step of the ASCII loop of [EqualFold]: equal bytes, or the smaller
    one is an upper-case letter and the larger one its lower-case form. *)
Definition foldEqByte (sr tr : ascii) : bool :=
  if Ascii.eqb tr sr then true
  else
    let '(sr, tr) := if (N_of_ascii tr <? N_of_ascii sr)%N then (tr, sr) else (sr, tr) in
    isUpper sr && (N_of_ascii tr =? N_of_ascii sr + 32)%N.

(** [EqualFold] on its ASCII path: the loop over the bytes of the two
    strings.  At a byte from [utf8.RuneSelf] upwards the library goes on
    rune by rune with [unicode.SimpleFold]; that path is outside this
    model. *)
Fixpoint EqualFold (s t : string) : bool :=
  match s, t with
  | EmptyString, EmptyString => true
  | String a s', String b t' => foldEqByte a b && EqualFold s' t'
  | _, _ => false
  end.

(** [HasPrefix s prefix]: [len(s) >= len(prefix) && s[:len(prefix)] == prefix]. *)
Fixpoint HasPrefix (s prefix : string) {struct prefix} : bool :=
  match prefix, s with
  | EmptyString, _ => true
  | String _ _, EmptyString => false
  | String b p', String a s' => Ascii.eqb a b && HasPrefix s' p'
  end.

Definition HasSuffix (s suffix : string) : bool :=
  HasPrefix (String.rev s) (String.rev suffix).

(** [Index s substr]: the first position at which [substr] occurs. *)
Fixpoint Index (s substr : string) : option nat :=
  if HasPrefix s substr then Some 0%nat
  else match s with
       | EmptyString => None
       | String _ s' => S <$> Index s' substr
       end.

Definition Contains (s substr : string) : bool :=
  if Index s substr is Some _ then true else false.

Fixpoint trimLeft (s : string) : string :=
  match s with
  | EmptyString => EmptyString
  | String c s' => if asciiSpace c then trimLeft s' else s
  end.

Fixpoint trimRight (s : string) : string :=
  match s with
  | EmptyString => EmptyString
  | String c s' =>
      match trimRight s' with
      | EmptyString => if asciiSpace c then EmptyString else String c EmptyString
      | r => String c r
      end
  end.

(** [s[:m]] and [s[n:]]. *)
Fixpoint sliceTo (m : nat) (s : string) : string :=
  match m, s with
  | S m', String c s' => String c (sliceTo m' s')
  | _, _ => EmptyString
  end.

Fixpoint sliceFrom (n : nat) (s : string) : string :=
  match n, s with
  | S n', String _ s' => sliceFrom n' s'
  | _, _ => s
  end.

(** ** UTF-8 and white space, for [TrimSpace] *)

Definition RuneError : N := 0xFFFD.
Definition RuneSelf : N := 0x80.

(** [s[i]] as a number (0 beyond the end, where the library never looks). *)
Definition byteAt (s : string) (i : nat) : N :=
  match String.get i s with Some c => N_of_ascii c | None => 0%N end.

(** A string whose bytes are all below [utf8.RuneSelf]. *)
Fixpoint is_ascii (s : string) : bool :=
  match s with
  | EmptyString => true
  | String c s' => (N_of_ascii c <? RuneSelf)%N && is_ascii s'
  end.

(** The table [first] of [unicode/utf8]: for a lead byte, the length of
    the encoding and the range accepted for the second byte; [None] for the
    bytes that begin no encoding of two bytes or more. *)
Definition first (b : N) : option (nat * N * N) :=
  (if b <? 0xC2 then None
   else if b <=? 0xDF then Some (2%nat, 0x80, 0xBF)
   else if b =? 0xE0 then Some (3%nat, 0xA0, 0xBF)
   else if b <=? 0xEC then Some (3%nat, 0x80, 0xBF)
   else if b =? 0xED then Some (3%nat, 0x80, 0x9F)
   else if b <=? 0xEF then Some (3%nat, 0x80, 0xBF)
   else if b =? 0xF0 then Some (4%nat, 0x90, 0xBF)
   else if b <=? 0xF3 then Some (4%nat, 0x80, 0xBF)
   else if b =? 0xF4 then Some (4%nat, 0x80, 0x8F)
   else None)%N.

(** A continuation byte, [locb <= b <= hicb]. *)
Definition cont (b : N) : bool := ((0x80 <=? b) && (b <=? 0xBF))%N.

(** [utf8.DecodeRuneInString]: the first rune and its width in bytes;
    [RuneError] with width 1 for a byte that begins no valid encoding. *)
Definition DecodeRuneInString (s : string) : N * nat :=
  match s with
  | EmptyString => (RuneError, 0%nat)
  | String c0 s1 =>
      let b0 := N_of_ascii c0 in
      if (b0 <? RuneSelf)%N then (b0, 1%nat)
      else
        match first b0 with
        | None => (RuneError, 1%nat)
        | Some (sz, lo, hi) =>
            if (len s <? sz)%nat then (RuneError, 1%nat)
            else
              match s1 with
              | EmptyString => (RuneError, 1%nat)
              | String c1 s2 =>
                  let b1 := N_of_ascii c1 in
                  if ((b1 <? lo) || (hi <? b1))%N then (RuneError, 1%nat)
                  else if (sz <=? 2)%nat then
                    (N.lor (N.shiftl (N.land b0 0x1F) 6) (N.land b1 0x3F), 2%nat)
                  else
                    match s2 with
                    | EmptyString => (RuneError, 1%nat)
                    | String c2 s3 =>
                        let b2 := N_of_ascii c2 in
                        if negb (cont b2) then (RuneError, 1%nat)
                        else if (sz <=? 3)%nat then
                          (N.lor (N.lor (N.shiftl (N.land b0 0x0F) 12)
                                    (N.shiftl (N.land b1 0x3F) 6))
                             (N.land b2 0x3F), 3%nat)
                        else
                          match s3 with
                          | EmptyString => (RuneError, 1%nat)
                          | String c3 _ =>
                              let b3 := N_of_ascii c3 in
                              if negb (cont b3) then (RuneError, 1%nat)
                              else
                                (N.lor (N.lor (N.lor (N.shiftl (N.land b0 0x07) 18)
                                                 (N.shiftl (N.land b1 0x3F) 12))
                                          (N.shiftl (N.land b2 0x3F) 6))
                                   (N.land b3 0x3F), 4%nat)
                          end
                    end
              end
        end
  end.

Definition RuneStart (b : N) : bool := negb (N.land b 0xC0 =? 0x80)%N.

(** [utf8.DecodeLastRuneInString]: the last rune and its width.  The
    library walks back over at most three bytes to a byte that can begin a
    rune, decodes from there, and gives [RuneError] with width 1 unless that
    encoding ends where the string ends. *)
Definition DecodeLastRuneInString (s : string) : N * nat :=
  let e := len s in
  if (e =? 0)%nat then (RuneError, 0%nat)
  else
    let r := byteAt s (e - 1) in
    if (r <? RuneSelf)%N then (r, 1%nat)
    else
      let start :=
        if (2 <=? e)%nat && RuneStart (byteAt s (e - 2)) then (e - 2)%nat
        else if (3 <=? e)%nat && RuneStart (byteAt s (e - 3)) then (e - 3)%nat
        else if (4 <=? e)%nat && RuneStart (byteAt s (e - 4)) then (e - 4)%nat
        else (e - 5)%nat in
      let '(r, size) := DecodeRuneInString (sliceFrom start s) in
      if (start + size =? e)%nat then (r, size) else (RuneError, 1%nat).

(** [unicode.IsSpace]: in Latin-1 the six ASCII spaces, U+0085 and U+00A0;
    beyond it the runes of the property [White_Space]. *)
Definition IsSpace (r : N) : bool :=
  (if r <=? 0xFF then
     (9 <=? r) && (r <=? 13) || (r =? 0x20) || (r =? 0x85) || (r =? 0xA0)
   else
     (r =? 0x1680) || (0x2000 <=? r) && (r <=? 0x200A) || (r =? 0x2028)
     || (r =? 0x2029) || (r =? 0x202F) || (r =? 0x205F) || (r =? 0x3000))%N.

(** The loop of [indexFunc s f false] joined with the slice that
    [TrimLeftFunc] takes: what is left of [s] from its first rune that does
    not satisfy [f], the empty string when every rune does. *)
Fixpoint indexLoop (f : N → bool) (fuel : nat) (s : string) : string :=
  match fuel with
  | O => EmptyString
  | S fuel' =>
      match s with
      | EmptyString => EmptyString
      | _ =>
          let '(r, size) := DecodeRuneInString s in
          if f r then indexLoop f fuel' (sliceFrom size s) else s
      end
  end.

Definition TrimLeftFunc (s : string) (f : N → bool) : string := indexLoop f (len s) s.

(** The loop of [lastIndexFunc s f false], from [i] downwards: the index at
    which the last rune that does not satisfy [f] begins. *)
Fixpoint lastIndexLoop (f : N → bool) (fuel : nat) (s : string) (i : nat) : option nat :=
  match fuel with
  | O => None
  | S fuel' =>
      match i with
      | O => None
      | _ =>
          let '(r, size) := DecodeLastRuneInString (sliceTo i s) in
          if f r then lastIndexLoop f fuel' s (i - size) else Some (i - size)%nat
      end
  end.

Definition TrimRightFunc (s : string) (f : N → bool) : string :=
  match lastIndexLoop f (len s) s (len s) with
  | Some i =>
      if (RuneSelf <=? byteAt s i)%N
      then sliceTo (i + (DecodeRuneInString (sliceFrom i s)).2) s
      else sliceTo (i + 1) s
  | None => EmptyString
  end.

Definition TrimFunc (s : string) (f : N → bool) : string :=
  TrimRightFunc (TrimLeftFunc s f) f.

(** [TrimSpace]: the loop over [start] skips ASCII spaces and hands over to
    [TrimFunc] at a byte from [RuneSelf] upwards; the loop over [stop] drops
    ASCII spaces at the end and hands over to [TrimRightFunc] at such a
    byte. *)
Definition TrimSpace (s : string) : string :=
  let a := trimLeft s in
  if (RuneSelf <=? byteAt a 0)%N then TrimFunc a IsSpace
  else
    let b := trimRight a in
    if (RuneSelf <=? byteAt b (len b - 1))%N then TrimRightFunc b IsSpace else b.

(** A string whose runes are all white space. *)
Fixpoint spaceRunes (fuel : nat) (s : string) : bool :=
  match s with
  | EmptyString => true
  | _ =>
      match fuel with
      | O => false
      | S fuel' =>
          let '(r, size) := DecodeRuneInString s in
          IsSpace r && spaceRunes fuel' (sliceFrom size s)
      end
  end.

Definition white_space_only (s : string) : bool := spaceRunes (len s) s.

(** The loop of [genSplit] for a separator that is not empty: cut at the
    first [Index], continue behind the separator.  [n] bounds the number of
    cuts as the library's [n = Count(s, sep) + 1] does. *)
Fixpoint genSplit (n : nat) (s sep : string) : list string :=
  match n with
  | O => [s]
  | S n' =>
      match Index s sep with
      | None => [s]
      | Some m => sliceTo m s :: genSplit n' (sliceFrom (m + len sep) s) sep
      end
  end.

(** [explode]: the split on the empty separator, byte by byte. *)
Fixpoint explode (s : string) : list string :=
  match s with
  | EmptyString => []
  | String c s' => String c EmptyString :: explode s'
  end.

Definition Split (s sep : string) : list string :=
  match sep with
  | EmptyString => explode s
  | _ => genSplit (len s) s sep
  end.

End GoStrings.

(** [sort.Strings]: sorts in increasing order of Go's [<] on strings, which
    compares byte by byte ([String.le]).  That order is total and
    antisymmetric, so the result is the one sorted arrangement of the input
    whatever algorithm produces it; the model computes it by merge sort. *)
Module GoSort.
Definition Strings (x : list string) : list string := merge_sort String.le x.
End GoSort.

(* ===================================================================== *)
(** * The world: clock, file system, remote server *)
(* ===================================================================== *)

(** Go's [error] values are built here by [fmt.Errorf] only; an error is its
    message.  A function returning [error] returns [option error], [None]
    being [nil]; a function returning [(T, error)] returns [T + error]. *)
Definition error : Type := string.

Module GoTime.
(** A [Duration] is an [int64] count of nanoseconds; an instant is the wall
    clock reading in nanoseconds. *)
Definition Duration : Type := Z.
Definition Time : Type := Z.
Definition minDuration : Duration := - 2 ^ 63.
Definition maxDuration : Duration := 2 ^ 63 - 1.

(** [t.Sub(u)]: the difference, saturated to the range of [Duration]. *)
Definition Sub (t u : Time) : Duration :=
  if t - u <? minDuration then minDuration
  else if maxDuration <? t - u then maxDuration
  else t - u.

(** [time.Since(t)] is [time.Now().Sub(t)]. *)
Definition Since (now t : Time) : Duration := Sub now t.
End GoTime.

Module GoOS.
(** [FileMode] is a [uint32]; [Perm] keeps the nine Unix permission bits. *)
Definition FileMode : Type := Z.
Definition ModePerm : FileMode := 511.        (* 0777 *)
Definition ModeDir : FileMode := 2 ^ 31.
Definition Perm (m : FileMode) : FileMode := Z.land m ModePerm.

Record FileInfo : Type := mkFileInfo { Mode : FileMode; ModTime : GoTime.Time }.

(** What a path names.  [RegularFile]: a regular file that the process may
    open for reading and for writing.  [Directory]: a directory.
    [GuardedFile]: a regular file that the system may refuse to open;
    [readErr] and [writeErr] hold the cause when it refuses to open the
    file for reading and for writing (permission denied, read-only file
    system, ...), and are [None] when it lets the process in. *)
Inductive Node : Type :=
| RegularFile (data : string) (perm : FileMode) (mtime : GoTime.Time)
| Directory (perm : FileMode) (mtime : GoTime.Time)
| GuardedFile (data : string) (perm : FileMode) (mtime : GoTime.Time)
    (readErr writeErr : option error).

Definition node_info (n : Node) : FileInfo :=
  match n with
  | RegularFile _ p t => mkFileInfo p t
  | Directory p t => mkFileInfo (Z.lor ModeDir p) t
  | GuardedFile _ p t _ _ => mkFileInfo p t
  end.

(** The bytes of a node, when it is a file. *)
Definition node_data (n : Node) : option string :=
  match n with
  | RegularFile data _ _ => Some data
  | Directory _ _ => None
  | GuardedFile data _ _ _ _ => Some data
  end.

(** What opening the node for reading gives: its bytes, or the cause of
    the refusal. *)
Definition node_read (n : Node) : string + error :=
  match n with
  | RegularFile data _ _ => inl data
  | Directory _ _ => inr "is a directory"
  | GuardedFile data _ _ None _ => inl data
  | GuardedFile _ _ _ (Some cause) _ => inr cause
  end.

Definition node_mtime (n : Node) : GoTime.Time := ModTime (node_info n).
End GoOS.

Module GoHTTP.
Definition StatusOK : Z := 200.

(** The outcome of [http.Get]: a transport error, or a response with its
    status code and a body that [io.ReadAll] reads to the end or fails on. *)
Inductive GetResult : Type :=
| GetErr (cause : error)
| Response (StatusCode : Z) (Body : string + error).
End GoHTTP.

(** The world.  [clock] is the reading of the wall clock during the run
    considered: the calls of one run of [download] or of [New] are taken at
    that one reading, and a later run is a later world, with a clock of its
    own.  [create_error] holds, for a path at which nothing is, the cause
    for which the system refuses to create a file there (no parent
    directory, permission denied, ...), [None] when it would create it. *)
Record World : Type := mkWorld {
  fs : gmap string GoOS.Node;
  clock : GoTime.Time;
  umask : GoOS.FileMode;
  remote : string → GoHTTP.GetResult;
  create_error : string → option error
}.

(** The calls that leave the process, in the order they are made. *)
Inductive Event : Type :=
| EvStat (name : string)
| EvGet (url : string)
| EvReadFile (name : string)
| EvWriteFile (name data : string) (perm : GoOS.FileMode).

Global Instance Event_eq_dec : EqDecision Event.
Proof. solve_decision. Defined.

(** State over the world, with the trace of the calls made. *)
Definition M (A : Type) : Type := World → A * World * list Event.

Global Instance M_ret : MRet M := λ A a w, (a, w, []).
Global Instance M_bind : MBind M := λ A B f m w,
  let '(a, w1, t1) := m w in
  let '(b, w2, t2) := f a w1 in
  (b, w2, t1 ++ t2).

Definition result {A} (r : A * World * list Event) : A := r.1.1.
Definition world_after {A} (r : A * World * list Event) : World := r.1.2.
Definition trace {A} (r : A * World * list Event) : list Event := r.2.

Definition set_fs (w : World) (f : gmap string GoOS.Node) : World :=
  mkWorld f (clock w) (umask w) (remote w) (create_error w).

Definition LF : string := String "010"%char EmptyString.

Module Sys.
Import GoOS GoHTTP.

(** [time.Now]: the reading of the clock of this world. *)
Definition Now : M GoTime.Time := λ w, (clock w, w, []).

(** [os.Stat]: fails when nothing is at [name]. *)
Definition Stat (name : string) : M (FileInfo + error) := λ w,
  (match fs w !! name with
   | Some n => inl (node_info n)
   | None => inr ("stat " +:+ name +:+ ": no such file or directory")
   end, w, [EvStat name]).

(** [os.ReadFile]: the bytes of a regular file that can be opened for
    reading. *)
Definition ReadFile (name : string) : M (string + error) := λ w,
  (match fs w !! name with
   | Some (RegularFile data _ _) => inl data
   | Some (Directory _ _) => inr ("read " +:+ name +:+ ": is a directory")
   | Some (GuardedFile data _ _ None _) => inl data
   | Some (GuardedFile _ _ _ (Some cause) _) => inr ("open " +:+ name +:+ ": " +:+ cause)
   | None => inr ("open " +:+ name +:+ ": no such file or directory")
   end, w, [EvReadFile name]).

(** [os.WriteFile]: opens with create and truncate, and fails when the
    open is refused, leaving the file system as it is.  [perm] (less the
    umask) is the mode of a file it creates; an existing file keeps its
    mode and gets the new bytes. *)
Definition WriteFile (name data : string) (perm : FileMode) : M (option error) := λ w,
  let '(err, f) :=
    match fs w !! name with
    | Some (RegularFile _ p _) =>
        (None, <[name := RegularFile data p (clock w)]> (fs w))
    | Some (Directory _ _) =>
        (Some ("open " +:+ name +:+ ": is a directory"), fs w)
    | Some (GuardedFile _ p _ readErr None) =>
        (None, <[name := GuardedFile data p (clock w) readErr None]> (fs w))
    | Some (GuardedFile _ _ _ _ (Some cause)) =>
        (Some ("open " +:+ name +:+ ": " +:+ cause), fs w)
    | None =>
        match create_error w name with
        | Some cause => (Some ("open " +:+ name +:+ ": " +:+ cause), fs w)
        | None =>
            (None,
             <[name := RegularFile data (Z.ldiff (Perm perm) (umask w)) (clock w)]> (fs w))
        end
    end in
  (err, set_fs w f, [EvWriteFile name data perm]).

(** [http.Get]. *)
Definition Get (url : string) : M GetResult := λ w, (remote w url, w, [EvGet url]).
End Sys.

(* ===================================================================== *)
(** * main.go *)
(* ===================================================================== *)

Definition SearchFunc : Type := gset string → string → list string.
Definition HasFunc : Type := gset string → string → bool.
Definition DataFilterFunc : Type := string → string.
Definition DataLineFunc : Type := string → string * bool.

(** [for rec := range records]: Go visits the keys of a map in an order it
    does not specify.  The loops below are written over the list of keys in
    the order visited; [range_order] says which lists can be that order. *)
Definition range_order (records : gset string) (keys : list string) : Prop :=
  keys ≡ₚ elements records.

(** The loop of [DefaultSearchFunc] over the keys as visited. *)
Definition searchLoop (term : string) (keys : list string) : list string :=
  foldl (λ res rec,
           if GoStrings.Contains (GoStrings.ToLower rec) term then res ++ [rec] else res)
        [] keys.

Definition DefaultSearchFunc_over (keys : list string) (term : string) : list string :=
  let term := GoStrings.ToLower term in
  GoSort.Strings (searchLoop term keys).

Definition DefaultSearchFunc : SearchFunc := λ records term,
  DefaultSearchFunc_over (elements records) term.

Definition DefaultDataLineProcessFunc : DataLineFunc := λ line,
  (line, negb (GoStrings.HasPrefix line "#" || GoStrings.HasPrefix line "//"
               || (GoStrings.len line =? 0)%nat)).

(** The loops of the three default matchers: return [true] at the first key
    that matches. *)
Fixpoint hasLoop (test : string → bool) (keys : list string) : bool :=
  match keys with
  | [] => false
  | rec :: keys' => if test rec then true else hasLoop test keys'
  end.

Definition DefaultHasFunc_over (keys : list string) (term : string) : bool :=
  let term := GoStrings.ToLower term in
  hasLoop (λ rec, GoStrings.EqualFold rec term) keys.

Definition DefaultHasFunc : HasFunc := λ records term,
  DefaultHasFunc_over (elements records) term.

Definition DefaultHasPrefixFunc : HasFunc := λ records term,
  let term := GoStrings.ToLower term in
  hasLoop (λ rec, GoStrings.HasPrefix (GoStrings.ToLower rec) term) (elements records).

Definition DefaultHasSuffixFunc : HasFunc := λ records term,
  let term := GoStrings.ToLower term in
  hasLoop (λ rec, GoStrings.HasSuffix (GoStrings.ToLower rec) term) (elements records).

(** The struct.  A function field that the code tests against [nil] is an
    [option]; the four matchers are called without a test and [New] never
    leaves them [nil].  The mutex is held by each method for the whole of
    its body, so a method is one step on [records]. *)
Record RemoteList : Type := mkRemoteList {
  fnSearch : SearchFunc;
  fnHas : HasFunc;
  fnHasPrefix : HasFunc;
  fnHasSuffix : HasFunc;
  fnDataFiler : option DataFilterFunc;
  fnDataLine : option DataLineFunc;
  maxAge : GoTime.Duration;
  fileLocal : string;
  fileRemote : string;
  records : gset string
}.

Definition set_records (rl : RemoteList) (r : gset string) : RemoteList :=
  mkRemoteList (fnSearch rl) (fnHas rl) (fnHasPrefix rl) (fnHasSuffix rl)
    (fnDataFiler rl) (fnDataLine rl) (maxAge rl) (fileLocal rl) (fileRemote rl) r.

Definition Has (rl : RemoteList) (value : string) : bool :=
  fnHas rl (records rl) value.

Definition Search (rl : RemoteList) (value : string) : list string :=
  fnSearch rl (records rl) value.

Definition Add (rl : RemoteList) (value : string) : RemoteList :=
  let value := GoStrings.TrimSpace value in
  set_records rl ({[ value ]} ∪ records rl).

(** The body of [List] over the keys as visited, and [List] itself. *)
Definition List_over (keys : list string) : list string :=
  GoSort.Strings (foldl (λ res rec, res ++ [rec]) [] keys).

Definition List (rl : RemoteList) : list string := List_over (elements (records rl)).

Definition download (rl : RemoteList) : M (option error) :=
  st ← Sys.Stat (fileLocal rl);
  now ← Sys.Now;
  let fileExists := if st is inl _ then true else false in
  let needsDownload :=
    match st with
    | inl fileInfo => negb (GoTime.Since now (GoOS.ModTime fileInfo) <? maxAge rl)
    | inr _ => true
    end in
  if needsDownload then
    resp ← Sys.Get (fileRemote rl);
    match resp with
    | GoHTTP.GetErr err => mret (Some ("list download failed: " +:+ err))
    | GoHTTP.Response StatusCode Body =>
        if negb (StatusCode =? GoHTTP.StatusOK) then
          mret (Some ("list download failed with status code: " +:+ pretty StatusCode))
        else
          match Body with
          | inr err =>
              mret (Some ("list download failed, could not read response: " +:+ err))
          | inl data =>
              let permissions :=
                match st with
                | inl fileInfo => GoOS.Perm (GoOS.Mode fileInfo)
                | inr _ => 420          (* 0644 *)
                end in
              err ← match fnDataFiler rl with
                    | None => Sys.WriteFile (fileLocal rl) data permissions
                    | Some f => Sys.WriteFile (fileLocal rl) (f data) permissions
                    end;
              match err with
              | Some err =>
                  mret (Some ("list download failed, could not write data: " +:+ err))
              | None => mret None
              end
          end
    end
  else mret None.

(** The loop of [init]: one line of the local file. *)
Definition initLine (rl : RemoteList) (line : string) : RemoteList :=
  match fnDataLine rl with
  | Some f => let '(str, ok) := f line in if ok then Add rl str else rl
  | None => rl
  end.

(** [init] works on the struct behind the pointer; it returns the struct as
    it leaves it together with its error. *)
Definition init (rl : RemoteList) : M (RemoteList * option error) :=
  r ← Sys.ReadFile (fileLocal rl);
  match r with
  | inr err => mret (rl, Some ("error reading local file: " +:+ err))
  | inl fileData => mret (foldl initLine rl (GoStrings.Split fileData LF), None)
  end.

(** The first half of [New]: the struct literal, then a default for every
    strategy that was passed as [nil] (the payload filter has none). *)
Definition New_struct (fileLocal fileRemote : string) (maxAge : GoTime.Duration)
    (fnHas fnHasPrefix fnHasSuffix : option HasFunc)
    (fnSearch : option SearchFunc)
    (fnDataFilter : option DataFilterFunc)
    (fnDataLine : option DataLineFunc) : RemoteList :=
  {| fnSearch := default DefaultSearchFunc fnSearch;
     fnHas := default DefaultHasFunc fnHas;
     fnHasPrefix := default DefaultHasPrefixFunc fnHasPrefix;
     fnHasSuffix := default DefaultHasSuffixFunc fnHasSuffix;
     fnDataFiler := fnDataFilter;
     fnDataLine := Some (default DefaultDataLineProcessFunc fnDataLine);
     maxAge := maxAge;
     fileLocal := fileLocal;
     fileRemote := fileRemote;
     records := ∅ |}.

(** [New] returns a pointer and an error: the pointer is [None] for [nil].
    Its last statement is [return rl, rl.init()]. *)
Definition New (fileLocal fileRemote : string) (maxAge : GoTime.Duration)
    (fnHas fnHasPrefix fnHasSuffix : option HasFunc)
    (fnSearch : option SearchFunc)
    (fnDataFilter : option DataFilterFunc)
    (fnDataLine : option DataLineFunc) : M (option RemoteList * option error) :=
  let rl := New_struct fileLocal fileRemote maxAge fnHas fnHasPrefix fnHasSuffix
              fnSearch fnDataFilter fnDataLine in
  err ← download rl;
  match err with
  | Some err => mret (None, Some err)
  | None => '(rl', err) ← init rl; mret (Some rl', err)
  end.

Definition NewSimple (fileLocal fileRemote : string) (maxAge : GoTime.Duration)
    : M (option RemoteList * option error) :=
  New fileLocal fileRemote maxAge None None None None None None.

(* ===================================================================== *)
(** * What the claims speak about *)
(* ===================================================================== *)

(** Ascending order of strings, byte by byte. *)
Definition ascending (l : list string) : Prop := Sorted String.le l.

(** A string made of ASCII white space only. *)
Fixpoint all_space (s : string) : bool :=
  match s with
  | EmptyString => true
  | String c s' => GoStrings.asciiSpace c && all_space s'
  end.

(** The refresh step called the remote server. *)
Definition fetch_attempted (rl : RemoteList) (w : World) : Prop :=
  EvGet (fileRemote rl) ∈ trace (download rl w).

(** The local file is absent, or its age has reached the maximum age. *)
Definition stale (rl : RemoteList) (w : World) : Prop :=
  fs w !! fileLocal rl = None ∨
  ∃ n, fs w !! fileLocal rl = Some n ∧
       maxAge rl ≤ GoTime.Since (clock w) (GoOS.node_mtime n).

(** The three ways a fetch fails before anything is written: no response,
    a status outside 200..299, a body that cannot be read. *)
Definition transport_failure (g : GoHTTP.GetResult) : Prop :=
  match g with
  | GoHTTP.GetErr _ => True
  | GoHTTP.Response code body =>
      ¬ (200 ≤ code < 300) ∨ (if body is inr _ then True else False)
  end.

(** The messages of the three kinds of error of construction. *)
Definition is_fetch_error (e : error) : Prop :=
  (∃ cause, e = "list download failed: " +:+ cause) ∨
  (∃ code : Z, e = "list download failed with status code: " +:+ pretty code) ∨
  (∃ cause, e = "list download failed, could not read response: " +:+ cause).

Definition is_persist_error (e : error) : Prop :=
  ∃ cause, e = "list download failed, could not write data: " +:+ cause.

Definition is_load_error (e : error) : Prop :=
  ∃ cause, e = "error reading local file: " +:+ cause.

(** The permission argument the refresh step has to pass when it writes. *)
Definition expected_perm (rl : RemoteList) (w : World) : GoOS.FileMode :=
  match fs w !! fileLocal rl with
  | Some n => GoOS.Perm (GoOS.Mode (GoOS.node_info n))
  | None => 420
  end.

(** The payload that is written: the body, through the filter if any. *)
Definition payload_of (rl : RemoteList) (data : string) : string :=
  match fnDataFiler rl with
  | None => data
  | Some f => f data
  end.

(** [r] is what [Add] stores for a line that the processor [f] accepts. *)
Definition from_accepted_line (f : DataLineFunc) (lines : list string) (r : string) : Prop :=
  ∃ line, line ∈ lines ∧ (f line).2 = true ∧ r = GoStrings.TrimSpace (f line).1.

(** The invariant as the specification words it: every record is the
    outcome of some candidate that the configured processor accepted. *)
Definition filter_invariant (rl : RemoteList) : Prop :=
  ∀ f r, fnDataLine rl = Some f → r ∈ records rl →
         ∃ line, (f line).2 = true ∧ r = GoStrings.TrimSpace (f line).1.

(* ===================================================================== *)
(** * Concrete configurations and worlds *)
(* ===================================================================== *)

Module Examples.

(** A world with umask 022 whose server answers every request alike and
    whose system refuses no file to be created. *)
Definition world_of (files : gmap string GoOS.Node) (now : GoTime.Time)
    (answer : GoHTTP.GetResult) : World :=
  mkWorld files now 18 (λ _, answer) (λ _, None).

Definition hour : GoTime.Duration := 3600 * 10 ^ 9.

(** The five lines of the specification's example, one per line. *)
Definition five_lines : string :=
  "# comment" +:+ LF +:+ "" +:+ LF +:+ "1.2.3.4" +:+ LF +:+ "// note" +:+ LF +:+ "5.6.7.8".

(** [NewSimple("list.txt", "http://example.com/list.txt", time.Hour)]
    before it refreshes and loads. *)
Definition rl_simple : RemoteList :=
  New_struct "list.txt" "http://example.com/list.txt" hour None None None None None None.

(** The local file written half an hour ago, mode 0600. *)
Definition w_fresh : World :=
  world_of {[ "list.txt" := GoOS.RegularFile five_lines 384 0 ]} (hour / 2)
    (GoHTTP.GetErr "dial tcp: connection refused").

(** The local file written two hours ago, mode 0600; the server has a list. *)
Definition w_stale : World :=
  world_of {[ "list.txt" := GoOS.RegularFile five_lines 384 0 ]} (2 * hour)
    (GoHTTP.Response 200 (inl ("10.0.0.1" +:+ LF +:+ "10.0.0.2"))).

(** No local file; the server has a list. *)
Definition w_absent : World :=
  world_of ∅ (2 * hour) (GoHTTP.Response 200 (inl ("10.0.0.1" +:+ LF +:+ "10.0.0.2"))).

(** No local file; the server answers 404. *)
Definition w_not_found : World :=
  world_of ∅ (2 * hour) (GoHTTP.Response 404 (inl "not found")).

(** The local path names a directory touched half an hour ago. *)
Definition w_directory : World :=
  world_of {[ "list.txt" := GoOS.Directory 493 0 ]} (hour / 2)
    (GoHTTP.GetErr "dial tcp: connection refused").

(** A file with a line of blanks between two records. *)
Definition w_blank_line : World :=
  world_of {[ "list.txt" := GoOS.RegularFile ("a" +:+ LF +:+ "  " +:+ LF +:+ "b") 420 0 ]}
    (hour / 2) (GoHTTP.GetErr "dial tcp: connection refused").

(** A processor that accepts no line at all. *)
Definition reject_all : DataLineFunc := λ line, (line, false).

Definition rl_reject_all : RemoteList :=
  New_struct "list.txt" "http://example.com/list.txt" hour
    None None None None None (Some reject_all).

(** A search strategy of the caller's: the matches in descending order. *)
Definition search_descending : SearchFunc := λ records term,
  reverse (DefaultSearchFunc records term).

Definition rl_descending : RemoteList :=
  New_struct "list.txt" "http://example.com/list.txt" hour
    None None None (Some search_descending) None None.

End Examples.

(* ===================================================================== *)
(** * Further vocabulary and worlds *)
(* ===================================================================== *)

(** The table [asciiSpace] as a function of the byte value. *)
Definition asciiSpaceN (n : N) : bool := ((9 <=? n) && (n <=? 13) || (n =? 32))%N.

(** A string that is empty or begins with a rune that is no white space,
    and one that is empty or ends with such a rune. *)
Definition no_leading_space (t : string) : Prop :=
  t = "" ∨ GoStrings.IsSpace (GoStrings.DecodeRuneInString t).1 = false.
Definition no_trailing_space (t : string) : Prop :=
  t = "" ∨ GoStrings.IsSpace (GoStrings.DecodeLastRuneInString t).1 = false.

(** Every record is stored in its trimmed form. *)
Definition records_trimmed (rl : RemoteList) : Prop :=
  ∀ r, r ∈ records rl → GoStrings.TrimSpace r = r.

(** The mode of the local file after a write that succeeds: the mode it
    had when it was there, the default permission less the umask for a new
    file. *)
Definition mode_after_write (rl : RemoteList) (w : World) : GoOS.FileMode :=
  match fs w !! fileLocal rl with
  | Some n => GoOS.Mode (GoOS.node_info n)
  | None => Z.ldiff (GoOS.Perm 420) (umask w)
  end.

(** A line that the default processor drops: empty, or a comment. *)
Definition dropped_line (line : string) : Prop :=
  line = "" ∨ (∃ rest, line = "#" +:+ rest) ∨ (∃ rest, line = "//" +:+ rest).

Module MoreExamples.

(** A payload filter of the caller's: the lower-case form of the list. *)
Definition rl_lowering : RemoteList :=
  New_struct "list.txt" "http://example.com/list.txt" Examples.hour
    None None None None (Some GoStrings.ToLower) None.

(** The local path names a directory touched two hours ago; the server
    has a list. *)
Definition w_stale_directory : World :=
  Examples.world_of {[ "list.txt" := GoOS.Directory 493 0 ]} (2 * Examples.hour)
    (GoHTTP.Response 200 (inl ("10.0.0.1" +:+ LF +:+ "10.0.0.2"))).

(** Comments and empty lines only. *)
Definition w_comments_only : World :=
  Examples.world_of
    {[ "list.txt" := GoOS.RegularFile ("# a" +:+ LF +:+ "" +:+ LF +:+ "// b" +:+ LF) 420 0 ]}
    (Examples.hour / 2) (GoHTTP.GetErr "dial tcp: connection refused").

(** The struct of [New] without its line processor. *)
Definition rl_no_processor : RemoteList :=
  mkRemoteList DefaultSearchFunc DefaultHasFunc DefaultHasPrefixFunc DefaultHasSuffixFunc
    None None Examples.hour "list.txt" "http://example.com/list.txt" ∅.

(** A maximum age of zero. *)
Definition rl_no_cache : RemoteList :=
  New_struct "list.txt" "http://example.com/list.txt" 0 None None None None None None.

(** The local file carries a modification time three hours ahead of the
    clock. *)
Definition w_future : World :=
  Examples.world_of {[ "list.txt" := GoOS.RegularFile Examples.five_lines 384 (3 * Examples.hour) ]}
    0 (GoHTTP.Response 200 (inl ("10.0.0.1" +:+ LF +:+ "10.0.0.2"))).

(** U+00A0, the no-break space, in UTF-8; and a file with a line that
    holds nothing else, between two records. *)
Definition NBSP : string := String (ascii_of_N 194) (String (ascii_of_N 160) EmptyString).

Definition w_nbsp_line : World :=
  Examples.world_of {[ "list.txt" := GoOS.RegularFile ("a" +:+ LF +:+ NBSP +:+ LF +:+ "b") 420 0 ]}
    (Examples.hour / 2) (GoHTTP.GetErr "dial tcp: connection refused").

(** The stale local file may not be opened for writing; the server has a
    list. *)
Definition w_read_only : World :=
  Examples.world_of
    {[ "list.txt" := GoOS.GuardedFile Examples.five_lines 292 0 None (Some "permission denied") ]}
    (2 * Examples.hour) (GoHTTP.Response 200 (inl ("10.0.0.1" +:+ LF +:+ "10.0.0.2"))).

(** No local file, and none can be created; the server has a list. *)
Definition w_no_parent : World :=
  mkWorld ∅ (2 * Examples.hour) 18
    (λ _, GoHTTP.Response 200 (inl ("10.0.0.1" +:+ LF +:+ "10.0.0.2")))
    (λ _, Some "no such file or directory").

(** The local file, written half an hour ago, may not be opened for
    reading. *)
Definition w_unreadable : World :=
  Examples.world_of
    {[ "list.txt" := GoOS.GuardedFile Examples.five_lines 0 0 (Some "permission denied") None ]}
    (Examples.hour / 2) (GoHTTP.GetErr "dial tcp: connection refused").

(** A minute after the refresh of [Examples.w_stale]: the file system as
    that refresh left it, the server out of reach. *)
Definition w_later : World :=
  mkWorld (fs (world_after (download Examples.rl_simple Examples.w_stale)))
    (clock Examples.w_stale + 60 * 10 ^ 9) 18
    (λ _, GoHTTP.GetErr "dial tcp: connection refused") (λ _, None).

(** Two records that contain "exam" up to the case of letters. *)
Definition rl_two_exam : RemoteList :=
  Add (Add Examples.rl_simple "Example.com") "exam.org".

End MoreExamples.

(* ===================================================================== *)
(** * Sorting and the loops over the keys *)
(* ===================================================================== *)

Section sorting.

Lemma Strings_ascending l : ascending (GoSort.Strings l).
Proof. unfold ascending, GoSort.Strings. apply (Sorted_merge_sort String.le). Qed.

Lemma Strings_Permutation l : GoSort.Strings l ≡ₚ l.
Proof. apply (merge_sort_Permutation String.le). Qed.

(** The result does not depend on the order of the input. *)
Lemma Strings_order_irrelevant l1 l2 : l1 ≡ₚ l2 → GoSort.Strings l1 = GoSort.Strings l2.
Proof.
  intros Hp. apply (Sorted_unique String.le); try apply Strings_ascending.
  by rewrite !Strings_Permutation.
Qed.

Lemma appendLoop_app (acc keys : list string) :
  foldl (λ res rec, res ++ [rec]) acc keys = acc ++ keys.
Proof.
  revert acc. induction keys as [|k keys IH]; intros acc; simpl.
  - by rewrite app_nil_r.
  - rewrite IH. by rewrite <- app_assoc.
Qed.

Lemma searchLoop_acc term (acc keys : list string) :
  foldl (λ res rec,
           if GoStrings.Contains (GoStrings.ToLower rec) term then res ++ [rec] else res)
        acc keys
  = acc ++ List.filter (λ rec, GoStrings.Contains (GoStrings.ToLower rec) term) keys.
Proof.
  revert acc. induction keys as [|k keys IH]; intros acc; simpl.
  - by rewrite app_nil_r.
  - rewrite IH. destruct (GoStrings.Contains _ _); [|done].
    by rewrite <- app_assoc.
Qed.

Lemma searchLoop_filter term keys :
  searchLoop term keys
  = List.filter (λ rec, GoStrings.Contains (GoStrings.ToLower rec) term) keys.
Proof. unfold searchLoop. by rewrite searchLoop_acc. Qed.

Lemma filter_Permutation (p : string → bool) (l1 l2 : list string) :
  l1 ≡ₚ l2 → List.filter p l1 ≡ₚ List.filter p l2.
Proof.
  induction 1 as [|x l l' _ IH|x y l|l l' l'' _ IH1 _ IH2]; simpl.
  - done.
  - destruct (p x); [by f_equiv | done].
  - destruct (p x), (p y); try done. apply perm_swap.
  - by etrans.
Qed.

Lemma List_over_order (records : gset string) keys :
  range_order records keys → List_over keys = List_over (elements records).
Proof.
  unfold range_order, List_over. intros Hp.
  apply Strings_order_irrelevant. by rewrite !appendLoop_app.
Qed.

Lemma DefaultSearchFunc_over_order (records : gset string) keys term :
  range_order records keys →
  DefaultSearchFunc_over keys term = DefaultSearchFunc records term.
Proof.
  unfold range_order, DefaultSearchFunc, DefaultSearchFunc_over. intros Hp.
  apply Strings_order_irrelevant. rewrite !searchLoop_filter.
  by apply filter_Permutation.
Qed.

Lemma hasLoop_true test keys :
  hasLoop test keys = true ↔ ∃ rec, rec ∈ keys ∧ test rec = true.
Proof.
  induction keys as [|k keys IH]; simpl.
  - split; [done | intros (r & Hr & _); by apply elem_of_nil in Hr].
  - destruct (test k) eqn:Hk.
    + split; [|done]. intros _. exists k. split; [left | done].
    + rewrite IH. split.
      * intros (r & Hr & Ht). exists r. split; [by right | done].
      * intros (r & Hr & Ht). apply elem_of_cons in Hr as [->|Hr]; [congruence|].
        by exists r.
Qed.

Lemma DefaultHasFunc_over_order (records : gset string) keys term :
  range_order records keys →
  DefaultHasFunc_over keys term = DefaultHasFunc records term.
Proof.
  unfold range_order, DefaultHasFunc, DefaultHasFunc_over. intros Hp.
  apply eq_true_iff_eq. rewrite !hasLoop_true.
  by setoid_rewrite Hp.
Qed.

Lemma elem_of_List rl r : r ∈ List rl ↔ r ∈ records rl.
Proof.
  unfold List, List_over. rewrite Strings_Permutation, appendLoop_app. simpl.
  apply elem_of_elements.
Qed.

Lemma elem_of_DefaultSearchFunc (recs : gset string) term r :
  r ∈ DefaultSearchFunc recs term ↔
  r ∈ recs ∧ GoStrings.Contains (GoStrings.ToLower r) (GoStrings.ToLower term) = true.
Proof.
  unfold DefaultSearchFunc, DefaultSearchFunc_over.
  rewrite Strings_Permutation, searchLoop_filter.
  rewrite list_elem_of_In, filter_In, <- list_elem_of_In, elem_of_elements. done.
Qed.

Lemma DefaultHasFunc_true (recs : gset string) term :
  DefaultHasFunc recs term = true ↔
  ∃ rec, rec ∈ recs ∧ GoStrings.EqualFold rec (GoStrings.ToLower term) = true.
Proof.
  unfold DefaultHasFunc, DefaultHasFunc_over. rewrite hasLoop_true.
  by setoid_rewrite elem_of_elements.
Qed.

End sorting.

(* ===================================================================== *)
(** * The refresh step *)
(* ===================================================================== *)

#[local] Arguments Z.ldiff : simpl never.
#[local] Arguments Z.land : simpl never.
#[local] Arguments Z.lor : simpl never.
#[local] Arguments Z.pow : simpl never.
#[local] Arguments pretty : simpl never.
#[local] Arguments GoStrings.Split : simpl never.

(** Unfolds the monad and the system calls, and runs what is determined. *)
Ltac run_M :=
  unfold download, init, Sys.Stat, Sys.Now, Sys.Get, Sys.ReadFile, Sys.WriteFile,
    result, world_after, trace, mbind, M_bind, mret, M_ret; simpl.

(** Runs on with what is known of the local path. *)
Ltac run_with H := run_M; repeat (rewrite ?H; simpl).

Section refresh.

Lemma Since_exact now t :
  GoTime.minDuration ≤ now - t ≤ GoTime.maxDuration → GoTime.Since now t = now - t.
Proof.
  unfold GoTime.Since, GoTime.Sub. intros [Hlo Hhi].
  destruct (Z.ltb_spec (now - t) GoTime.minDuration); [lia|].
  destruct (Z.ltb_spec GoTime.maxDuration (now - t)); [lia|done].
Qed.

(** A local file younger than the maximum age: one [Stat] and nothing else. *)
Lemma download_fresh rl w n :
  fs w !! fileLocal rl = Some n →
  GoTime.Since (clock w) (GoOS.node_mtime n) < maxAge rl →
  download rl w = (None, w, [EvStat (fileLocal rl)]).
Proof.
  intros Hn Hage. run_with Hn.
  unfold GoOS.node_mtime in Hage.
  destruct (Z.ltb_spec (GoTime.Since (clock w) (GoOS.ModTime (GoOS.node_info n)))
              (maxAge rl)); [done | lia].
Qed.

(** Otherwise the remote server is asked, right after the [Stat]. *)
Lemma download_stale_trace rl w :
  stale rl w →
  ∃ rest, trace (download rl w) = EvStat (fileLocal rl) :: EvGet (fileRemote rl) :: rest.
Proof.
  intros [Hn | (n & Hn & Hage)]; run_with Hn.
  - destruct (remote w (fileRemote rl)) as [c | code [data | c]]; simpl;
      [eauto | | ].
    + destruct (code =? GoHTTP.StatusOK); simpl; [|eauto].
      destruct (fnDataFiler rl); run_with Hn; destruct (create_error w _); simpl; eauto.
    + destruct (code =? GoHTTP.StatusOK); simpl; eauto.
  - unfold GoOS.node_mtime in Hage.
    destruct (Z.ltb_spec (GoTime.Since (clock w) (GoOS.ModTime (GoOS.node_info n)))
                (maxAge rl)); [lia|]. simpl.
    destruct (remote w (fileRemote rl)) as [c | code [data | c]]; simpl;
      [eauto | | ].
    + destruct (code =? GoHTTP.StatusOK); simpl; [|eauto].
      destruct (fnDataFiler rl); run_with Hn;
        destruct n as [? ? ? | ? ? | ? ? ? ? [?|]]; simpl; eauto.
    + destruct (code =? GoHTTP.StatusOK); simpl; eauto.
Qed.

Lemma stale_dec rl w :
  stale rl w ∨
  ∃ n, fs w !! fileLocal rl = Some n ∧
       GoTime.Since (clock w) (GoOS.node_mtime n) < maxAge rl.
Proof.
  unfold stale. destruct (fs w !! fileLocal rl) as [n|] eqn:Hn; [|by left; left].
  destruct (Z.lt_ge_cases (GoTime.Since (clock w) (GoOS.node_mtime n)) (maxAge rl)).
  - right. eauto.
  - left. right. eauto.
Qed.

Lemma fresh_not_fetched rl w n :
  fs w !! fileLocal rl = Some n →
  GoTime.Since (clock w) (GoOS.node_mtime n) < maxAge rl →
  ¬ fetch_attempted rl w.
Proof.
  intros Hn Hage. unfold fetch_attempted.
  rewrite (download_fresh rl w n Hn Hage). unfold trace; simpl.
  rewrite list_elem_of_singleton. discriminate.
Qed.

Lemma fetch_attempted_stale rl w : fetch_attempted rl w ↔ stale rl w.
Proof.
  split.
  - intros Hget. destruct (stale_dec rl w) as [Hs | (n & Hn & Hage)]; [exact Hs|].
    by destruct (fresh_not_fetched rl w n Hn Hage).
  - intros Hs. destruct (download_stale_trace rl w Hs) as [rest Hrest].
    unfold fetch_attempted. rewrite Hrest.
    apply elem_of_cons; right. apply elem_of_cons; by left.
Qed.

(** The whole of a refresh that fetches, case by case on the response. *)
Lemma download_stale rl w :
  stale rl w →
  download rl w =
    match remote w (fileRemote rl) with
    | GoHTTP.GetErr err =>
        (Some ("list download failed: " +:+ err), w,
         [EvStat (fileLocal rl); EvGet (fileRemote rl)])
    | GoHTTP.Response code body =>
        if negb (code =? GoHTTP.StatusOK) then
          (Some ("list download failed with status code: " +:+ pretty code), w,
           [EvStat (fileLocal rl); EvGet (fileRemote rl)])
        else
          match body with
          | inr err =>
              (Some ("list download failed, could not read response: " +:+ err), w,
               [EvStat (fileLocal rl); EvGet (fileRemote rl)])
          | inl data =>
              let r := Sys.WriteFile (fileLocal rl) (payload_of rl data)
                         (expected_perm rl w) w in
              (match r.1.1 with
               | Some err =>
                   Some ("list download failed, could not write data: " +:+ err)
               | None => None
               end, r.1.2,
               [EvStat (fileLocal rl); EvGet (fileRemote rl);
                EvWriteFile (fileLocal rl) (payload_of rl data) (expected_perm rl w)])
          end
    end.
Proof.
  intros Hs.
  assert (Hneeds : match fs w !! fileLocal rl with
                   | Some n => negb (GoTime.Since (clock w)
                                       (GoOS.ModTime (GoOS.node_info n)) <? maxAge rl)
                   | None => true
                   end = true).
  { destruct Hs as [-> | (n & -> & Hage)]; [done|].
    unfold GoOS.node_mtime in Hage.
    destruct (Z.ltb_spec (GoTime.Since (clock w) (GoOS.ModTime (GoOS.node_info n)))
                (maxAge rl)); [lia | done]. }
  clear Hs. unfold payload_of, expected_perm. run_M.
  destruct (fs w !! fileLocal rl) as [n|] eqn:Hn; simpl in *; rewrite ?Hneeds; simpl.
  - destruct (remote w (fileRemote rl)) as [c | code [data | c]]; simpl; [done | | ].
    + destruct (code =? GoHTTP.StatusOK); simpl; [|done].
      destruct (fnDataFiler rl); run_with Hn;
        by destruct n as [? ? ? | ? ? | ? ? ? ? [?|]].
    + by destruct (code =? GoHTTP.StatusOK).
  - destruct (remote w (fileRemote rl)) as [c | code [data | c]]; simpl; [done | | ].
    + destruct (code =? GoHTTP.StatusOK); simpl; [|done].
      destruct (fnDataFiler rl); run_with Hn; by destruct (create_error w _).
    + by destruct (code =? GoHTTP.StatusOK).
Qed.

End refresh.

(** C3.  The staleness gate of [download]: the remote server is asked if and
    only if the local file is absent or its age, [time.Since] of its
    modification time, is at least the maximum age; and when the file exists
    with an age strictly below the maximum age, nothing is fetched, the
    result is [nil] and the world (so the file) is left as it was. *)
Theorem download_staleness_gate (rl : RemoteList) (w : World) :
  (fetch_attempted rl w ↔
     fs w !! fileLocal rl = None ∨
     ∃ n, fs w !! fileLocal rl = Some n ∧
          maxAge rl ≤ GoTime.Since (clock w) (GoOS.node_mtime n))
  ∧ (∀ n, fs w !! fileLocal rl = Some n →
          GoTime.Since (clock w) (GoOS.node_mtime n) < maxAge rl →
          ¬ fetch_attempted rl w ∧
          result (download rl w) = None ∧
          world_after (download rl w) = w ∧
          trace (download rl w) = [EvStat (fileLocal rl)]).
Proof.
  split.
  - apply fetch_attempted_stale.
  - intros n Hn Hage. split; [by eapply fresh_not_fetched|].
    by rewrite (download_fresh rl w n Hn Hage).
Qed.

(** C6.  Whenever [download] writes, it writes the local path, and the
    permission it passes is that of the file that was there ([Perm] of its
    mode), or 0644 (420) when nothing was there.  A regular file that is
    overwritten keeps its mode. *)
Theorem download_write_permissions (rl : RemoteList) (w : World)
    (name payload : string) (perm : GoOS.FileMode) :
  EvWriteFile name payload perm ∈ trace (download rl w) →
  name = fileLocal rl
  ∧ match fs w !! fileLocal rl with
    | Some n => perm = GoOS.Perm (GoOS.Mode (GoOS.node_info n))
    | None => perm = 420
    end
  ∧ (∀ old p t, fs w !! fileLocal rl = Some (GoOS.RegularFile old p t) →
       fs (world_after (download rl w)) !! fileLocal rl
       = Some (GoOS.RegularFile payload p (clock w))).
Proof.
  intros Hin.
  destruct (stale_dec rl w) as [Hs | (n & Hn & Hage)].
  - rewrite (download_stale rl w Hs) in Hin |- *.
    assert (Hperm : match fs w !! fileLocal rl with
                    | Some n => expected_perm rl w = GoOS.Perm (GoOS.Mode (GoOS.node_info n))
                    | None => expected_perm rl w = 420
                    end).
    { unfold expected_perm. by destruct (fs w !! fileLocal rl). }
    destruct (remote w (fileRemote rl)) as [c | code [data | c]]; simpl in *.
    + unfold trace in Hin; simpl in Hin.
      apply elem_of_cons in Hin as [?|Hin]; [done|].
      apply list_elem_of_singleton in Hin. done.
    + destruct (negb (code =? GoHTTP.StatusOK)); unfold trace in Hin; simpl in Hin.
      * apply elem_of_cons in Hin as [?|Hin]; [done|].
        apply list_elem_of_singleton in Hin. done.
      * apply elem_of_cons in Hin as [?|Hin]; [done|].
        apply elem_of_cons in Hin as [?|Hin]; [done|].
        apply list_elem_of_singleton in Hin. injection Hin as -> -> ->.
        split; [done|]. split.
        { destruct (fs w !! fileLocal rl); done. }
        intros old p t Hold. unfold world_after, Sys.WriteFile; simpl.
        rewrite Hold. simpl. apply lookup_insert_eq.
    + destruct (negb (code =? GoHTTP.StatusOK)); unfold trace in Hin; simpl in Hin.
      * apply elem_of_cons in Hin as [?|Hin]; [done|].
        apply list_elem_of_singleton in Hin. done.
      * apply elem_of_cons in Hin as [?|Hin]; [done|].
        apply list_elem_of_singleton in Hin. done.
  - rewrite (download_fresh rl w n Hn Hage) in Hin. unfold trace in Hin; simpl in Hin.
    apply list_elem_of_singleton in Hin. done.
Qed.

Lemma download_write_permissions_witness :
  "list.txt" = fileLocal Examples.rl_simple
  ∧ match fs Examples.w_stale !! fileLocal Examples.rl_simple with
    | Some n => 384 = GoOS.Perm (GoOS.Mode (GoOS.node_info n))
    | None => 384 = 420
    end
  ∧ (∀ old p t,
       fs Examples.w_stale !! fileLocal Examples.rl_simple
       = Some (GoOS.RegularFile old p t) →
       fs (world_after (download Examples.rl_simple Examples.w_stale))
         !! fileLocal Examples.rl_simple
       = Some (GoOS.RegularFile ("10.0.0.1" +:+ LF +:+ "10.0.0.2") p
                 (clock Examples.w_stale))).
Proof.
  apply (download_write_permissions Examples.rl_simple Examples.w_stale
           "list.txt" ("10.0.0.1" +:+ LF +:+ "10.0.0.2") 384).
  vm_compute. do 2 right. left.
Defined.

(** A new file gets 0644: the write on an absent path passes 420. *)
Lemma download_write_permissions_new_file :
  trace (download Examples.rl_simple Examples.w_absent)
  = [EvStat "list.txt"; EvGet "http://example.com/list.txt";
     EvWriteFile "list.txt" ("10.0.0.1" +:+ LF +:+ "10.0.0.2") 420].
Proof. vm_compute. reflexivity. Qed.

(* ===================================================================== *)
(** * The errors of construction *)
(* ===================================================================== *)

Section errors.

(** The three kinds of message differ: the text of [fmt.Errorf] decides
    the kind whatever the cause appended to it. *)
Lemma fetch_error_not_persist e : is_fetch_error e → ¬ is_persist_error e.
Proof.
  intros [(c & ->) | [(code & ->) | (c & ->)]] (c' & Hc); vm_compute in Hc;
    discriminate Hc.
Qed.

Lemma fetch_error_not_load e : is_fetch_error e → ¬ is_load_error e.
Proof.
  intros [(c & ->) | [(code & ->) | (c & ->)]] (c' & Hc); vm_compute in Hc;
    discriminate Hc.
Qed.

Lemma persist_error_not_load e : is_persist_error e → ¬ is_load_error e.
Proof. intros (c & ->) (c' & Hc). vm_compute in Hc. discriminate Hc. Qed.

Lemma status_not_2xx code : ¬ (200 ≤ code < 300) → negb (code =? GoHTTP.StatusOK) = true.
Proof.
  intros H. unfold GoHTTP.StatusOK. destruct (Z.eqb_spec code 200); [lia | done].
Qed.

End errors.

(** Closes a goal about a failed fetch once [tac] names the kind of message. *)
Ltac fetch_kind tac :=
  eexists; split; [reflexivity|];
  match goal with
  | |- is_fetch_error ?e ∧ _ =>
      let He := fresh "He" in
      assert (He : is_fetch_error e) by tac;
      split_and!;
      [ exact He | by apply fetch_error_not_persist
      | by apply fetch_error_not_load | done | done ]
  end.

(** C7.  A fetch that is attempted and fails in transport (no response, a
    status outside 200..299, or a body that cannot be read) makes [download]
    return a fetch error, whose message is neither that of a write failure
    nor that of a load failure; the world, and with it the local file, its
    bytes, mode and modification time, is as before, and nothing was
    written. *)
Theorem download_transport_failure (rl : RemoteList) (w : World) :
  fetch_attempted rl w →
  transport_failure (remote w (fileRemote rl)) →
  ∃ e, result (download rl w) = Some e
       ∧ is_fetch_error e ∧ ¬ is_persist_error e ∧ ¬ is_load_error e
       ∧ world_after (download rl w) = w
       ∧ trace (download rl w) = [EvStat (fileLocal rl); EvGet (fileRemote rl)].
Proof.
  intros Hget Hfail. apply fetch_attempted_stale in Hget.
  rewrite (download_stale rl w Hget).
  destruct (remote w (fileRemote rl)) as [c | code [data | c]]; simpl in Hfail.
  - fetch_kind ltac:(left; by exists c).
  - destruct Hfail as [Hcode | []]. rewrite (status_not_2xx code Hcode).
    fetch_kind ltac:(right; left; by exists code).
  - destruct (negb (code =? GoHTTP.StatusOK)).
    + fetch_kind ltac:(right; left; by exists code).
    + fetch_kind ltac:(right; right; by exists c).
Qed.

Lemma download_transport_failure_witness :
  ∃ e, result (download Examples.rl_simple Examples.w_not_found) = Some e
       ∧ is_fetch_error e ∧ ¬ is_persist_error e ∧ ¬ is_load_error e
       ∧ world_after (download Examples.rl_simple Examples.w_not_found)
         = Examples.w_not_found
       ∧ trace (download Examples.rl_simple Examples.w_not_found)
         = [EvStat (fileLocal Examples.rl_simple); EvGet (fileRemote Examples.rl_simple)].
Proof.
  apply (download_transport_failure Examples.rl_simple Examples.w_not_found).
  - vm_compute. right. left.
  - simpl. left. lia.
Defined.

(** Any status other than 200 is reported as a failure, 2xx or not. *)
Lemma download_status_not_ok rl w code body :
  stale rl w → remote w (fileRemote rl) = GoHTTP.Response code body → code ≠ 200 →
  download rl w
  = (Some ("list download failed with status code: " +:+ pretty code), w,
     [EvStat (fileLocal rl); EvGet (fileRemote rl)]).
Proof.
  intros Hs Hr Hc. rewrite (download_stale rl w Hs), Hr.
  unfold GoHTTP.StatusOK. by destruct (Z.eqb_spec code 200).
Qed.

(* ===================================================================== *)
(** * Trimming white space *)
(* ===================================================================== *)

(** [TrimSpace] decodes UTF-8 from both ends.  This section relates the
    decoder run forwards to the decoder run backwards, and derives that
    [TrimSpace] takes away white space runes and nothing else, leaves no
    white space rune at either end, and leaves alone a string that has
    none there. *)

Section trimming.

Import GoStrings.
Local Open Scope N_scope.

#[local] Arguments N.lor : simpl never.
#[local] Arguments N.land : simpl never.
#[local] Arguments N.shiftl : simpl never.
#[local] Arguments N.ltb : simpl never.
#[local] Arguments N.leb : simpl never.
#[local] Arguments N.eqb : simpl never.
#[local] Arguments N_of_ascii : simpl never.
#[local] Arguments first : simpl never.
#[local] Arguments IsSpace : simpl never.

Ltac nbool :=
  repeat match goal with
  | |- context [N.ltb ?a ?b] => destruct (N.ltb_spec a b)
  | |- context [N.leb ?a ?b] => destruct (N.leb_spec a b)
  | |- context [N.eqb ?a ?b] => destruct (N.eqb_spec a b)
  | H : context [N.ltb ?a ?b] |- _ => destruct (N.ltb_spec a b)
  | H : context [N.leb ?a ?b] |- _ => destruct (N.leb_spec a b)
  | H : context [N.eqb ?a ?b] |- _ => destruct (N.eqb_spec a b)
  end; simpl in *.

Lemma asciiSpace_N c : asciiSpace c = asciiSpaceN (N_of_ascii c).
Proof. reflexivity. Qed.

Lemma asciiSpaceN_IsSpace n : asciiSpaceN n = true → IsSpace n = true ∧ n < RuneSelf.
Proof.
  unfold asciiSpaceN, IsSpace, RuneSelf. intros H. nbool; try done; split; try done; lia.
Qed.

Lemma IsSpace_ascii n : n < RuneSelf → IsSpace n = asciiSpaceN n.
Proof. unfold asciiSpaceN, IsSpace, RuneSelf. intros H. nbool; try done; lia. Qed.

Lemma asciiSpaceN_high n : RuneSelf <= n → asciiSpaceN n = false.
Proof. unfold asciiSpaceN, RuneSelf. intros H. nbool; try done; lia. Qed.

Lemma Decode_ascii c s :
  N_of_ascii c < RuneSelf → DecodeRuneInString (String c s) = (N_of_ascii c, 1%nat).
Proof. intros H. simpl. destruct (N.ltb_spec (N_of_ascii c) RuneSelf); [done | lia]. Qed.

Lemma first_range b sz lo hi :
  first b = Some (sz, lo, hi) → 0x80 <= lo ∧ (sz = 2 ∨ sz = 3 ∨ sz = 4)%nat.
Proof.
  unfold first. intros H. nbool; simplify_eq; split; (lia || tauto).
Qed.

Lemma Decode_width s :
  s ≠ "" →
  (1 ≤ (DecodeRuneInString s).2 ≤ len s)%nat
  ∧ (RuneSelf <= byteAt s 0 → RuneSelf <= byteAt s ((DecodeRuneInString s).2 - 1)).
Proof.
  destruct s as [|c0 s1]; [done|]. intros _. unfold byteAt, len. simpl. unfold len.
  destruct (N.ltb_spec (N_of_ascii c0) RuneSelf) as [Hlt | Hge]; simpl.
  { split; [lia | done]. }
  destruct (first (N_of_ascii c0)) as [[[sz lo] hi]|] eqn:Hf; simpl; [|split; [lia|done]].
  destruct (first_range _ _ _ _ Hf) as [Hlo Hsz].
  destruct (Nat.ltb_spec (S (String.length s1)) sz) as [Hn | Hn]; simpl; [split; [lia|done]|].
  destruct s1 as [|c1 s2]; simpl; [split; [lia|done]|].
  destruct (N.ltb_spec (N_of_ascii c1) lo); simpl; [split; [lia|done]|].
  destruct (N.ltb_spec hi (N_of_ascii c1)); simpl; [split; [lia|done]|].
  destruct (Nat.leb_spec sz 2); simpl.
  { split; [lia|]. intros _. unfold RuneSelf. lia. }
  destruct s2 as [|c2 s3]; simpl; [split; [lia|done]|].
  unfold cont.
  destruct (N.leb_spec 0x80 (N_of_ascii c2)); simpl; [|split; [lia|done]].
  destruct (N.leb_spec (N_of_ascii c2) 0xBF); simpl; [|split; [lia|done]].
  destruct (Nat.leb_spec sz 3); simpl.
  { split; [lia|]. intros _. unfold RuneSelf. lia. }
  destruct s3 as [|c3 s4]; simpl; [split; [lia|done]|].
  destruct (N.leb_spec 0x80 (N_of_ascii c3)); simpl; [|split; [lia|done]].
  destruct (N.leb_spec (N_of_ascii c3) 0xBF); simpl; [|split; [lia|done]].
  split; [lia|]. intros _. unfold RuneSelf. lia.
Qed.

Lemma len_sliceTo_exact i s : (i ≤ len s)%nat → len (sliceTo i s) = i.
Proof.
  unfold len. revert s. induction i as [|i IH]; intros [|c s]; simpl; try lia.
  intros H. rewrite IH; lia.
Qed.

Lemma byteAt_sliceTo i s k : (k < i)%nat → byteAt (sliceTo i s) k = byteAt s k.
Proof.
  unfold byteAt. revert s k. induction i as [|i IH]; intros [|c s] k Hk; simpl; try lia; try done.
  destruct k as [|k]; simpl; [done|]. apply IH. lia.
Qed.

Lemma byteAt_sliceFrom j s k : byteAt (sliceFrom j s) k = byteAt s (j + k).
Proof.
  unfold byteAt. revert s. induction j as [|j IH]; intros [|c s]; simpl; try done.
Qed.

Lemma len_sliceFrom' k s : len (sliceFrom k s) = (len s - k)%nat.
Proof.
  unfold len. revert s. induction k as [|k IH]; intros [|c s]; simpl; try lia.
  apply IH.
Qed.

Lemma sliceFrom_nonempty j s : (j < len s)%nat → sliceFrom j s ≠ "".
Proof.
  intros H Hs. pose proof (len_sliceFrom' j s) as Hl. rewrite Hs in Hl.
  unfold len in *. simpl in Hl. lia.
Qed.

Lemma byteAt_last pre c :
  byteAt (pre +:+ String c "") (len (pre +:+ String c "") - 1) = N_of_ascii c.
Proof.
  unfold byteAt, len. induction pre as [|a pre IH]; [done|].
  change (String a pre +:+ String c "") with (String a (pre +:+ String c "")).
  simpl. rewrite Nat.sub_0_r.
  destruct (pre +:+ String c "") as [|b q] eqn:Hq; [by destruct pre|].
  simpl in IH. by rewrite Nat.sub_0_r in IH.
Qed.

(** [DecodeLastRuneInString]: the width is within the string, and a rune
    that starts at an ASCII byte is that byte. *)
Lemma DecodeLast_facts s :
  s ≠ "" →
  (1 ≤ (DecodeLastRuneInString s).2 ≤ len s)%nat
  ∧ (byteAt s (len s - (DecodeLastRuneInString s).2) < RuneSelf →
     (DecodeLastRuneInString s).1 = byteAt s (len s - (DecodeLastRuneInString s).2)).
Proof.
  intros Hne. unfold DecodeLastRuneInString. cbv zeta.
  assert (He : (1 ≤ len s)%nat) by (destruct s; [done | unfold len; simpl; lia]).
  set (e := len s) in *.
  destruct (Nat.eqb_spec e 0) as [Hz | _]; [lia|].
  destruct (N.ltb_spec (byteAt s (e - 1)) RuneSelf) as [Hlt | Hge].
  { cbn [fst snd]. split; [lia | done]. }
  set (start := if _ : bool then _ else _).
  assert (Hstart : (start ≤ e - 2 ∧ 2 ≤ e ∨ e = 1 ∧ start = 0)%nat).
  { subst start.
    repeat match goal with
           | |- context [Nat.leb ?a ?b] => destruct (Nat.leb_spec a b)
           | |- context [RuneStart ?x] => destruct (RuneStart x)
           end; cbn [andb]; lia. }
  clearbody start.
  assert (Hns : sliceFrom start s ≠ "") by (apply sliceFrom_nonempty; fold e; lia).
  destruct (DecodeRuneInString (sliceFrom start s)) as [r size] eqn:Hd.
  destruct (Nat.eqb_spec (start + size) e) as [Heq | Hneq]; cbn [fst snd].
  - assert (Hsz : (1 ≤ size)%nat).
    { pose proof (Decode_width _ Hns) as [Hw _]. rewrite Hd in Hw. simpl in Hw. lia. }
    split; [lia|]. replace (e - size)%nat with start by lia. intros Hb.
    destruct (sliceFrom start s) as [|c q] eqn:Hq; [done|].
    assert (Hc : byteAt s start = N_of_ascii c).
    { pose proof (byteAt_sliceFrom start s 0) as Hb0. rewrite Hq, Nat.add_0_r in Hb0.
      by rewrite <- Hb0. }
    rewrite Hc in Hb. rewrite (Decode_ascii c q Hb) in Hd. injection Hd as <- <-.
    destruct Hstart as [Hs | [He1 Hs]]; [lia|].
    rewrite Hs in Hc. rewrite He1 in Hge. simpl in Hge. rewrite Hc in Hge. lia.
  - split; [lia|]. intros Hb. lia.
Qed.

Lemma string_app_cons a s t : String a s +:+ t = String a (s +:+ t).
Proof. reflexivity. Qed.
Lemma trimLeft_head s :
  trimLeft s = "" ∨ ∃ c s', trimLeft s = String c s' ∧ asciiSpace c = false.
Proof.
  induction s as [|c s IH]; simpl; [by left|].
  destruct (asciiSpace c) eqn:Hc; [exact IH | right; eauto].
Qed.
Lemma trimRight_head c s :
  asciiSpace c = false → ∃ r, trimRight (String c s) = String c r.
Proof. intros Hc. simpl. rewrite Hc. destruct (trimRight s); eauto. Qed.
Lemma trimRight_last s pre c :
  trimRight s = pre +:+ String c "" → asciiSpace c = false.
Proof.
  revert pre. induction s as [|a s IH]; intros pre; simpl.
  - destruct pre; discriminate.
  - destruct (trimRight s) as [|b r] eqn:Hr.
    + destruct (asciiSpace a) eqn:Ha; [destruct pre; discriminate|].
      destruct pre as [|a' pre]; [by intros [= <-]|].
      rewrite string_app_cons. intros [= _ Hp]. destruct pre; discriminate.
    + destruct pre as [|a' pre]; [discriminate|].
      rewrite string_app_cons. intros [= _ Hp]. by apply (IH pre).
Qed.

Lemma lastIndexLoop_Some f : ∀ fuel s i j,
  lastIndexLoop f fuel s i = Some j →
  ∃ i0, (0 < i0 ≤ i)%nat
        ∧ j = (i0 - (DecodeLastRuneInString (sliceTo i0 s)).2)%nat
        ∧ f (DecodeLastRuneInString (sliceTo i0 s)).1 = false.
Proof.
  induction fuel as [|fuel IH]; intros s i j; simpl; [done|].
  destruct i as [|i']; [done|].
  destruct (DecodeLastRuneInString (sliceTo (S i') s)) as [r size] eqn:Hd.
  destruct (f r) eqn:Hf.
  - intros Hl. destruct (IH _ _ _ Hl) as (i0 & Hi0 & Hj & Hfi).
    exists i0. repeat split; try done; lia.
  - intros [= <-]. exists (S i'). rewrite Hd. repeat split; try done; lia.
Qed.

(** What [TrimRightFunc] leaves does not end with an ASCII space. *)
Lemma TrimRightFunc_last u :
  TrimRightFunc u IsSpace = ""
  ∨ asciiSpaceN (byteAt (TrimRightFunc u IsSpace)
                   (len (TrimRightFunc u IsSpace) - 1)) = false.
Proof.
  unfold TrimRightFunc.
  destruct (lastIndexLoop IsSpace (len u) u (len u)) as [j|] eqn:Hl; [|by left].
  right. apply lastIndexLoop_Some in Hl as (i0 & Hi0 & Hj & Hf).
  set (s' := sliceTo i0 u) in *.
  assert (Hlen : len s' = i0) by (apply len_sliceTo_exact; lia).
  assert (Hne : s' ≠ "").
  { intros Hs. rewrite Hs in Hlen. unfold len in Hlen. simpl in Hlen. lia. }
  destruct (DecodeLast_facts s' Hne) as [Hw Hascii]. rewrite Hlen in Hw, Hascii.
  set (size := (DecodeLastRuneInString s').2) in *.
  assert (Hjlt : (j < i0)%nat) by lia.
  assert (Hbj : byteAt s' j = byteAt u j) by (by apply byteAt_sliceTo).
  rewrite <- Hj, Hbj in Hascii.
  destruct (N.leb_spec RuneSelf (byteAt u j)) as [Hhigh | Hlow].
  - assert (Hns : sliceFrom j u ≠ "") by (apply sliceFrom_nonempty; lia).
    destruct (Decode_width _ Hns) as [Hwd Hcont].
    set (w := (DecodeRuneInString (sliceFrom j u)).2) in *.
    rewrite len_sliceFrom' in Hwd.
    rewrite !byteAt_sliceFrom, Nat.add_0_r in Hcont. specialize (Hcont Hhigh).
    rewrite len_sliceTo_exact by lia.
    rewrite byteAt_sliceTo by lia.
    replace (j + w - 1)%nat with (j + (w - 1))%nat by lia.
    by apply asciiSpaceN_high.
  - rewrite len_sliceTo_exact by lia. rewrite byteAt_sliceTo by lia.
    replace (j + 1 - 1)%nat with j by lia.
    specialize (Hascii Hlow). rewrite <- Hascii.
    destruct (asciiSpaceN _) eqn:Hsp; [|done].
    apply asciiSpaceN_IsSpace in Hsp as [Hsp _]. congruence.
Qed.

Lemma TrimRightFunc_prefix u f : ∃ i, TrimRightFunc u f = sliceTo i u.
Proof.
  unfold TrimRightFunc. destruct (lastIndexLoop _ _ _ _); [|by exists 0%nat; destruct u].
  destruct (_ <=? _); eauto.
Qed.

Lemma sliceTo_head i u c rest : sliceTo i u = String c rest → ∃ rest', u = String c rest'.
Proof. destruct i, u; simpl; try done. intros [= <- _]. eauto. Qed.

Lemma indexLoop_head f : ∀ fuel s,
  indexLoop f fuel s = "" ∨ f (DecodeRuneInString (indexLoop f fuel s)).1 = false.
Proof.
  induction fuel as [|fuel IH]; intros s; simpl; [by left|].
  destruct s as [|c q]; [by left|].
  destruct (DecodeRuneInString (String c q)) as [r size] eqn:Hd.
  destruct (f r) eqn:Hf; [apply IH|]. right. by rewrite Hd.
Qed.

Lemma space_rune_head c rest :
  IsSpace (DecodeRuneInString (String c rest)).1 = false → asciiSpace c = false.
Proof.
  intros Hd. destruct (asciiSpace c) eqn:Hc; [|done].
  rewrite asciiSpace_N in Hc. apply asciiSpaceN_IsSpace in Hc as [Hsp Hlt].
  rewrite (Decode_ascii c rest Hlt) in Hd. simpl in Hd. congruence.
Qed.

Lemma TrimLeftFunc_first a c rest :
  TrimLeftFunc a IsSpace = String c rest → asciiSpace c = false.
Proof.
  unfold TrimLeftFunc. intros Ht.
  destruct (indexLoop_head IsSpace (len a) a) as [He | Hd]; [congruence|].
  rewrite Ht in Hd. by apply space_rune_head in Hd.
Qed.

Lemma last_byte_space t pre c :
  t = pre +:+ String c "" → asciiSpaceN (byteAt t (len t - 1)) = asciiSpace c.
Proof. intros ->. by rewrite byteAt_last. Qed.

(** [TrimSpace] leaves no ASCII white space at either end. *)
Lemma TrimSpace_ends s :
  (∀ c rest, TrimSpace s = String c rest → asciiSpace c = false)
  ∧ (∀ pre c, TrimSpace s = pre +:+ String c "" → asciiSpace c = false).
Proof.
  assert (Hright : ∀ u pre c, TrimRightFunc u IsSpace = pre +:+ String c "" →
            asciiSpace c = false).
  { intros u pre c Ht. destruct (TrimRightFunc_last u) as [He | Hl].
    - rewrite He in Ht. destruct pre; discriminate.
    - by rewrite (last_byte_space _ pre c Ht) in Hl. }
  assert (Hb : ∀ c rest, trimRight (trimLeft s) = String c rest → asciiSpace c = false).
  { intros c rest. destruct (trimLeft_head s) as [-> | (c0 & a' & -> & Hc0)]; [done|].
    destruct (trimRight_head c0 a' Hc0) as [r ->]. by intros [= <- _]. }
  unfold TrimSpace. cbv zeta.
  destruct (RuneSelf <=? byteAt (trimLeft s) 0).
  - unfold TrimFunc. split; [|apply Hright].
    intros c rest Ht.
    destruct (TrimRightFunc_prefix (TrimLeftFunc (trimLeft s) IsSpace) IsSpace) as [i Hi].
    rewrite Hi in Ht. apply sliceTo_head in Ht as [rest' Hu].
    by apply TrimLeftFunc_first in Hu.
  - destruct (RuneSelf <=? byteAt (trimRight (trimLeft s)) _).
    + split; [|apply Hright]. intros c rest Ht.
      destruct (TrimRightFunc_prefix (trimRight (trimLeft s)) IsSpace) as [i Hi].
      rewrite Hi in Ht. apply sliceTo_head in Ht as [rest' Hu]. by apply Hb in Hu.
    + split; [exact Hb | apply trimRight_last].
Qed.

Lemma trimRight_fix t :
  (∀ pre c, t = pre +:+ String c "" → asciiSpace c = false) → trimRight t = t.
Proof.
  induction t as [|a t IH]; intros Hlast; simpl; [done|].
  rewrite IH.
  - destruct t; [|done]. by rewrite (Hlast "" a eq_refl).
  - intros pre c ->. apply (Hlast (String a pre) c). by rewrite string_app_cons.
Qed.

Lemma trimLeft_fix t :
  (∀ c rest, t = String c rest → asciiSpace c = false) → trimLeft t = t.
Proof. destruct t as [|c rest]; [done|]. intros H. simpl. by rewrite (H c rest eq_refl). Qed.

Lemma spaceRunes_indexLoop : ∀ fuel s,
  spaceRunes fuel s = true → indexLoop IsSpace fuel s = "".
Proof.
  induction fuel as [|fuel IH]; intros s; simpl; [done|].
  destruct s as [|c q]; [done|].
  destruct (DecodeRuneInString (String c q)) as [r size].
  intros [Hr Hs]%andb_true_iff. rewrite Hr. by apply IH.
Qed.

Lemma white_space_only_tail c q :
  asciiSpace c = true → white_space_only (String c q) = true → white_space_only q = true.
Proof.
  intros Hc. rewrite asciiSpace_N in Hc. apply asciiSpaceN_IsSpace in Hc as [_ Hlt].
  unfold white_space_only, len. simpl String.length. cbn [spaceRunes].
  rewrite (Decode_ascii c q Hlt). by intros [_ Hs]%andb_true_iff.
Qed.

Lemma white_space_only_trimLeft s :
  white_space_only s = true → white_space_only (trimLeft s) = true.
Proof.
  induction s as [|c q IH]; simpl; [done|].
  destruct (asciiSpace c) eqn:Hc; [|done]. intros H. by apply IH, (white_space_only_tail c).
Qed.

Lemma white_space_only_head c q :
  white_space_only (String c q) = true →
  IsSpace (DecodeRuneInString (String c q)).1 = true.
Proof.
  unfold white_space_only, len. simpl String.length. cbn [spaceRunes].
  destruct (DecodeRuneInString (String c q)) as [r size]. by intros [Hr _]%andb_true_iff.
Qed.

Lemma TrimSpace_white_space s : white_space_only s = true → TrimSpace s = "".
Proof.
  intros Hs%white_space_only_trimLeft. unfold TrimSpace. cbv zeta.
  destruct (trimLeft_head s) as [-> | (c & a' & Ha & Hc)]; [done|].
  rewrite Ha in Hs |- *.
  destruct (N.leb_spec RuneSelf (byteAt (String c a') 0)) as [Hhigh | Hlow].
  - unfold TrimFunc, TrimLeftFunc. by rewrite (spaceRunes_indexLoop _ _ Hs).
  - apply white_space_only_head in Hs. change (byteAt (String c a') 0) with (N_of_ascii c) in Hlow.
    rewrite (Decode_ascii c a' Hlow) in Hs. simpl in Hs.
    rewrite (IsSpace_ascii _ Hlow), <- asciiSpace_N in Hs. congruence.
Qed.

Lemma IsSpace_RuneError : IsSpace RuneError = false.
Proof. reflexivity. Qed.

Lemma first_bounds b sz lo hi :
  first b = Some (sz, lo, hi) → 0x80 <= lo ∧ hi <= 0xBF ∧ 0xC2 <= b.
Proof. unfold first. intros H. nbool; simplify_eq; lia. Qed.

Lemma cont_spec b : cont b = false ↔ b < 0x80 ∨ 0xBF < b.
Proof. unfold cont. nbool; split; intros; try done; lia. Qed.

Lemma len_sliceTo_le k s : (len (sliceTo k s) ≤ len s)%nat.
Proof.
  unfold len. revert s. induction k as [|k IH]; intros [|c s]; simpl; try lia.
  specialize (IH s). lia.
Qed.

Lemma sliceTo_all k s : (len s ≤ k)%nat → sliceTo k s = s.
Proof.
  unfold len. revert s. induction k as [|k IH]; intros [|c s]; simpl; try done; try lia.
  intros H. rewrite IH; [done | lia].
Qed.

(** A rune that is white space starts at an ASCII byte or at a lead byte. *)
Lemma Decode_space_lead q :
  IsSpace (DecodeRuneInString q).1 = true → cont (byteAt q 0) = false.
Proof.
  destruct q as [|c0 s1]; [done|].
  change (byteAt (String c0 s1) 0) with (N_of_ascii c0). simpl.
  destruct (N.ltb_spec (N_of_ascii c0) RuneSelf) as [Hlt | Hge].
  { intros _. apply cont_spec. left. exact Hlt. }
  destruct (first (N_of_ascii c0)) as [[[sz lo] hi]|] eqn:Hf; [|done].
  intros _. apply first_bounds in Hf as (_ & _ & Hb). apply cont_spec. right. lia.
Qed.

(** The decoder looks no further than a byte that continues no rune. *)
Lemma Decode_width_one q :
  q ≠ "" → (len q = 1%nat ∨ cont (byteAt q 1) = false) →
  (DecodeRuneInString q).2 = 1%nat.
Proof.
  destruct q as [|c0 s1]; [done|]. intros _ Hq. simpl.
  destruct (N.ltb_spec (N_of_ascii c0) RuneSelf) as [Hlt | Hge]; [done|].
  destruct (first (N_of_ascii c0)) as [[[sz lo] hi]|] eqn:Hf; [|done].
  apply first_bounds in Hf as (Hlo & Hhi & _).
  destruct (_ <? _)%nat; [done|].
  destruct s1 as [|c1 s2]; [done|].
  destruct Hq as [Hq | Hq]; [unfold len in Hq; simpl in Hq; lia|].
  change (byteAt (String c0 (String c1 s2)) 1) with (N_of_ascii c1) in Hq.
  apply cont_spec in Hq.
  destruct (N.ltb_spec (N_of_ascii c1) lo); [done|].
  destruct (N.ltb_spec hi (N_of_ascii c1)); [done|]. lia.
Qed.

(** A rune of two bytes or more decoded from a prefix is the rune decoded
    from the whole. *)
Lemma Decode_extend k q r size :
  DecodeRuneInString (sliceTo k q) = (r, size) → (2 ≤ size)%nat →
  DecodeRuneInString q = (r, size).
Proof.
  destruct k as [|k0], q as [|c0 q1]; simpl sliceTo;
    try (simpl; intros [= <- <-]; lia).
  pose proof (len_sliceTo_le k0 q1) as Hlen.
  simpl. unfold len in *. simpl String.length.
  destruct (N.ltb_spec (N_of_ascii c0) RuneSelf) as [Hlt | Hge];
    [intros [= <- <-]; lia|].
  destruct (first (N_of_ascii c0)) as [[[sz lo] hi]|] eqn:Hf; [|intros [= <- <-]; lia].
  destruct (Nat.ltb_spec (S (String.length (sliceTo k0 q1))) sz) as [H1 | H1];
    [intros [= <- <-]; lia|].
  destruct (Nat.ltb_spec (S (String.length q1)) sz) as [H2 | H2]; [lia|].
  destruct k0 as [|k1], q1 as [|c1 q2]; simpl; try (intros [= <- <-]; lia).
  destruct (_ || _); [intros [= <- <-]; lia|].
  destruct (sz <=? 2)%nat; [done|].
  destruct k1 as [|k2], q2 as [|c2 q3]; simpl; try (intros [= <- <-]; lia).
  destruct (negb (cont (N_of_ascii c2))); [intros [= <- <-]; lia|].
  destruct (sz <=? 3)%nat; [done|].
  destruct k2 as [|k3], q3 as [|c3 q4]; simpl; try (intros [= <- <-]; lia).
  done.
Qed.

(** A rune that starts at a byte outside ASCII is the error rune of width
    one, or is two bytes wide or more. *)
Lemma Decode_cases q :
  RuneSelf <= byteAt q 0 →
  DecodeRuneInString q = (RuneError, 1%nat) ∨ (2 ≤ (DecodeRuneInString q).2)%nat.
Proof.
  destruct q as [|c0 q1]; [intros H; unfold RuneSelf, byteAt in H; simpl in H; lia|].
  change (byteAt (String c0 q1) 0) with (N_of_ascii c0). intros Hge. simpl.
  destruct (N.ltb_spec (N_of_ascii c0) RuneSelf) as [Hlt | _]; [lia|].
  destruct (first (N_of_ascii c0)) as [[[sz lo] hi]|] eqn:Hf; [|by left].
  destruct (_ <? _)%nat; [by left|].
  destruct q1 as [|c1 q2]; [by left|].
  destruct (_ || _); [by left|].
  destruct (sz <=? 2)%nat; [right; simpl; lia|].
  destruct q2 as [|c2 q3]; [by left|].
  destruct (negb (cont (N_of_ascii c2))); [by left|].
  destruct (sz <=? 3)%nat; [right; simpl; lia|].
  destruct q3 as [|c3 q4]; [by left|].
  destruct (negb (cont (N_of_ascii c3))); [by left|].
  right; simpl; lia.
Qed.

Lemma no_leading_space_prefix k u : no_leading_space u → no_leading_space (sliceTo k u).
Proof.
  intros [-> | Hu]; [left; by destruct k|].
  destruct (sliceTo k u) as [|c t'] eqn:Ht; [by left|]. right. rewrite <- Ht.
  destruct (N.ltb_spec (byteAt (sliceTo k u) 0) RuneSelf) as [Hlt | Hge].
  - destruct (sliceTo_head _ _ _ _ Ht) as [rest' ->]. rewrite Ht in Hlt |- *.
    change (byteAt (String c t') 0) with (N_of_ascii c) in Hlt.
    rewrite (Decode_ascii c t' Hlt). by rewrite (Decode_ascii c rest' Hlt) in Hu.
  - destruct (Decode_cases _ Hge) as [-> | Hw]; [done|].
    destruct (DecodeRuneInString (sliceTo k u)) as [r size] eqn:Hd.
    by rewrite (Decode_extend _ _ _ _ Hd Hw) in Hu.
Qed.

(** The three routes of [DecodeLastRuneInString]. *)
Lemma DecodeLast_routes s :
  s ≠ "" →
  let e := len s in
  (byteAt s (e - 1) < RuneSelf
   ∧ DecodeLastRuneInString s = (byteAt s (e - 1), 1%nat))
  ∨ (RuneSelf <= byteAt s (e - 1)
     ∧ ∃ start, (start < e)%nat
         ∧ DecodeRuneInString (sliceFrom start s) = DecodeLastRuneInString s
         ∧ (start + (DecodeLastRuneInString s).2 = e)%nat)
  ∨ (RuneSelf <= byteAt s (e - 1)
     ∧ DecodeLastRuneInString s = (RuneError, 1%nat)).
Proof.
  intros Hne e. unfold DecodeLastRuneInString. cbv zeta. fold e.
  assert (He : (1 ≤ e)%nat) by (subst e; destruct s; [done | unfold len; simpl; lia]).
  destruct (Nat.eqb_spec e 0) as [Hz | _]; [lia|].
  destruct (N.ltb_spec (byteAt s (e - 1)) RuneSelf) as [Hlt | Hge]; [by left|].
  right.
  set (start := if _ : bool then _ else _).
  assert (Hstart : (start < e)%nat).
  { subst start.
    repeat match goal with
           | |- context [Nat.leb ?a ?b] => destruct (Nat.leb_spec a b)
           | |- context [RuneStart ?x] => destruct (RuneStart x)
           end; cbn [andb]; lia. }
  clearbody start.
  destruct (DecodeRuneInString (sliceFrom start s)) as [r size] eqn:Hd.
  destruct (Nat.eqb_spec (start + size) e) as [Heq | Hneq].
  - left. split; [done|]. exists start. by rewrite Hd.
  - by right.
Qed.

(** Where the backward loop stops, the forward decoder ends at the same
    byte, when the byte after it, if any, continues no rune. *)
Lemma sliceFrom_sliceTo start i u :
  (start ≤ i)%nat → sliceFrom start (sliceTo i u) = sliceTo (i - start) (sliceFrom start u).
Proof.
  revert i u. induction start as [|start IH]; intros i u Hle.
  - simpl. rewrite Nat.sub_0_r. by destruct (sliceTo i u), u.
  - destruct i as [|i]; [lia|]. destruct u as [|c u]; [simpl; by destruct (i - start)%nat|]. simpl.
    apply IH. lia.
Qed.

Lemma backward_forward u i0 :
  (0 < i0 ≤ len u)%nat →
  (i0 = len u ∨ cont (byteAt u i0) = false) →
  (i0 - (DecodeLastRuneInString (sliceTo i0 u)).2 < i0)%nat
  ∧ (RuneSelf <= byteAt u (i0 - (DecodeLastRuneInString (sliceTo i0 u)).2) →
     (i0 - (DecodeLastRuneInString (sliceTo i0 u)).2
      + (DecodeRuneInString
           (sliceFrom (i0 - (DecodeLastRuneInString (sliceTo i0 u)).2) u)).2 = i0)%nat)
  ∧ (byteAt u (i0 - (DecodeLastRuneInString (sliceTo i0 u)).2) < RuneSelf →
     (i0 - (DecodeLastRuneInString (sliceTo i0 u)).2 + 1 = i0)%nat).
Proof.
  intros Hi0 Hinv. set (s' := sliceTo i0 u).
  assert (Hlen : len s' = i0) by (apply len_sliceTo_exact; lia).
  assert (Hne : s' ≠ "").
  { intros Hs. rewrite Hs in Hlen. unfold len in Hlen. simpl in Hlen. lia. }
  assert (Hone : ∀ j, (j + 1 = i0)%nat → (DecodeRuneInString (sliceFrom j u)).2 = 1%nat).
  { intros j Hj. apply Decode_width_one; [apply sliceFrom_nonempty; lia|].
    rewrite len_sliceFrom', byteAt_sliceFrom. destruct Hinv as [-> | Hc]; [left; lia|].
    right. by rewrite Hj. }
  pose proof (DecodeLast_routes s' Hne) as Hr. cbv zeta in Hr. rewrite Hlen in Hr.
  destruct Hr as [[Hlt Hd] | [[Hge (start & Hs & Hd & Hsz)] | [Hge Hd]]].
  - rewrite Hd. cbn [snd]. split_and!; [lia | |lia].
    intros Hb. unfold s' in Hlt. rewrite byteAt_sliceTo in Hlt by lia. lia.
  - destruct (DecodeLastRuneInString s') as [r size] eqn:Hdl. cbn [snd] in *.
    replace (i0 - size)%nat with start by lia.
    assert (Hns : sliceFrom start u ≠ "") by (apply sliceFrom_nonempty; lia).
    assert (Hsz1 : (1 ≤ size)%nat).
    { assert (Hns' : sliceFrom start s' ≠ "") by (apply sliceFrom_nonempty; lia).
      pose proof (Decode_width _ Hns') as [Hw _]. rewrite Hd in Hw. simpl in Hw. lia. }
    unfold s' in Hd. rewrite sliceFrom_sliceTo in Hd by lia.
    split; [lia|]. split.
    + intros Hb. destruct (Nat.le_gt_cases 2 size) as [H2 | H2].
      * by rewrite (Decode_extend _ _ _ _ Hd H2).
      * rewrite Hone; lia.
    + intros Hb.
      destruct (sliceFrom start u) as [|c q] eqn:Hsu; [done|].
      assert (Hc : byteAt u start = N_of_ascii c).
      { pose proof (byteAt_sliceFrom start u 0) as Hb0. rewrite Hsu, Nat.add_0_r in Hb0.
        by rewrite <- Hb0. }
      rewrite Hc in Hb.
      destruct (i0 - start)%nat as [|n] eqn:Hn; [lia|]. simpl sliceTo in Hd.
      rewrite (Decode_ascii c _ Hb) in Hd. injection Hd as _ <-. lia.
  - rewrite Hd. cbn [snd]. split; [lia|]. split.
    + intros _. rewrite Hone; lia.
    + intros _. lia.
Qed.

(** The backward loop stops at the end of the string or before a rune
    that is white space. *)
Lemma lastIndexLoop_stop : ∀ fuel s i j,
  (i ≤ len s)%nat →
  lastIndexLoop IsSpace fuel s i = Some j →
  ∃ i0, (0 < i0 ≤ i)%nat
        ∧ j = (i0 - (DecodeLastRuneInString (sliceTo i0 s)).2)%nat
        ∧ IsSpace (DecodeLastRuneInString (sliceTo i0 s)).1 = false
        ∧ (i0 = i ∨ cont (byteAt s i0) = false).
Proof.
  induction fuel as [|fuel IH]; intros s i j Hi; simpl; [done|].
  destruct i as [|i']; [done|].
  destruct (DecodeLastRuneInString (sliceTo (S i') s)) as [r size] eqn:Hd.
  destruct (IsSpace r) eqn:Hf.
  - intros Hl.
    set (s' := sliceTo (S i') s) in *.
    assert (Hlen : len s' = S i') by (apply len_sliceTo_exact; lia).
    assert (Hne : s' ≠ "").
    { intros Hs. rewrite Hs in Hlen. unfold len in Hlen. simpl in Hlen. lia. }
    assert (Hsz : (1 ≤ size ≤ S i')%nat).
    { pose proof (DecodeLast_facts s' Hne) as [Hw _]. rewrite Hd, Hlen in Hw. exact Hw. }
    assert (Hc : cont (byteAt s (S i' - size)) = false).
    { pose proof (DecodeLast_routes s' Hne) as Hr. cbv zeta in Hr.
      rewrite Hlen, Hd in Hr. cbn [snd] in Hr.
      destruct Hr as [[Hlt [= Hr1 Hr2]] | [[Hge (start & Hs & Hds & Hsz')] | [Hge [= Hr1 Hr2]]]].
      - subst size. unfold s' in Hlt. rewrite byteAt_sliceTo in Hlt by lia.
        apply cont_spec. left. exact Hlt.
      - replace (S i' - size)%nat with start by lia.
        assert (Hsp : IsSpace (DecodeRuneInString (sliceFrom start s')).1 = true)
          by (by rewrite Hds).
        apply Decode_space_lead in Hsp. rewrite byteAt_sliceFrom, Nat.add_0_r in Hsp.
        unfold s' in Hsp. by rewrite byteAt_sliceTo in Hsp by lia.
      - subst r. by rewrite IsSpace_RuneError in Hf. }
    assert (Hle : (S i' - size ≤ len s)%nat) by lia.
    destruct (IH _ _ _ Hle Hl) as (i0 & Hi0 & Hj & Hfi & Hinv).
    exists i0. split; [lia|]. split; [done|]. split; [done|].
    right. destruct Hinv as [-> | Hinv]; done.
  - intros [= <-]. exists (S i'). rewrite Hd. split; [lia|]. split; [done|].
    split; [done | by left].
Qed.

(** What [TrimRightFunc] leaves is empty or ends with a rune that is no
    white space. *)
Lemma TrimRightFunc_no_trailing_space u : no_trailing_space (TrimRightFunc u IsSpace).
Proof.
  unfold TrimRightFunc.
  destruct (lastIndexLoop IsSpace (len u) u (len u)) as [j|] eqn:Hl; [|by left].
  right. apply lastIndexLoop_stop in Hl as (i0 & Hi0 & Hj & Hf & Hinv); [|done].
  destruct (backward_forward u i0 Hi0 Hinv) as (Hlt & Hhigh & Hlow).
  rewrite <- Hj in Hlt, Hhigh, Hlow.
  destruct (N.leb_spec RuneSelf (byteAt u j)) as [Hb | Hb].
  - by rewrite (Hhigh Hb).
  - by rewrite (Hlow Hb).
Qed.

(** A string that ends with a rune that is no white space is left as it is. *)
Lemma TrimRightFunc_fix t :
  t ≠ "" → IsSpace (DecodeLastRuneInString t).1 = false → TrimRightFunc t IsSpace = t.
Proof.
  intros Hne Hsp. unfold TrimRightFunc.
  assert (He : (1 ≤ len t)%nat) by (destruct t; [done | unfold len; simpl; lia]).
  assert (Hl : lastIndexLoop IsSpace (len t) t (len t)
               = Some (len t - (DecodeLastRuneInString t).2)%nat).
  { destruct (len t) as [|n] eqn:Hn; [lia|]. cbn [lastIndexLoop].
    rewrite sliceTo_all by lia.
    destruct (DecodeLastRuneInString t) as [r size]. simpl in Hsp. by rewrite Hsp. }
  rewrite Hl.
  assert (Hi0 : (0 < len t ≤ len t)%nat) by lia.
  destruct (backward_forward t (len t) Hi0 (or_introl eq_refl)) as (Hlt & Hhigh & Hlow).
  rewrite (sliceTo_all (len t) t) in Hlt, Hhigh, Hlow by lia.
  destruct (N.leb_spec RuneSelf (byteAt t (len t - (DecodeLastRuneInString t).2))) as [Hb | Hb].
  - rewrite (Hhigh Hb). by apply sliceTo_all.
  - rewrite (Hlow Hb). by apply sliceTo_all.
Qed.

Lemma TrimLeftFunc_fix t : no_leading_space t → TrimLeftFunc t IsSpace = t.
Proof.
  intros [-> | Hsp]; [done|]. unfold TrimLeftFunc.
  destruct t as [|c q]; [done|]. unfold len. simpl String.length. cbn [indexLoop].
  destruct (DecodeRuneInString (String c q)) as [r size]. simpl in Hsp. by rewrite Hsp.
Qed.

Lemma TrimLeftFunc_no_leading_space a : no_leading_space (TrimLeftFunc a IsSpace).
Proof. apply indexLoop_head. Qed.

Lemma no_leading_space_ascii c q :
  asciiSpace c = false → N_of_ascii c < RuneSelf → no_leading_space (String c q).
Proof.
  intros Hc Hlt. right. rewrite (Decode_ascii c q Hlt). simpl.
  by rewrite (IsSpace_ascii _ Hlt), <- asciiSpace_N.
Qed.

Lemma no_leading_space_first c q : no_leading_space (String c q) → asciiSpace c = false.
Proof. intros [H | H]; [done | by apply space_rune_head in H]. Qed.

Lemma no_trailing_space_last pre c :
  no_trailing_space (pre +:+ String c "") → asciiSpace c = false.
Proof.
  intros [H | H]; [by destruct pre|].
  destruct (asciiSpace c) eqn:Hc; [|done].
  rewrite asciiSpace_N in Hc. apply asciiSpaceN_IsSpace in Hc as [Hsp Hlt].
  assert (Hne : pre +:+ String c "" ≠ "") by (by destruct pre).
  pose proof (DecodeLast_routes _ Hne) as Hr. cbv zeta in Hr. rewrite byteAt_last in Hr.
  destruct Hr as [[_ Hd] | [[Hge _] | [Hge _]]]; [|lia|lia].
  rewrite Hd in H. simpl in H. congruence.
Qed.

Lemma no_trailing_space_ascii t :
  t ≠ "" → byteAt t (len t - 1) < RuneSelf →
  asciiSpaceN (byteAt t (len t - 1)) = false → no_trailing_space t.
Proof.
  intros Hne Hlt Hsp. right.
  pose proof (DecodeLast_routes _ Hne) as Hr. cbv zeta in Hr.
  destruct Hr as [[_ Hd] | [[Hge _] | [Hge _]]]; [|lia|lia].
  rewrite Hd. simpl. by rewrite (IsSpace_ascii _ Hlt).
Qed.

Lemma string_snoc t : t = "" ∨ ∃ pre c, t = pre +:+ String c "".
Proof.
  induction t as [|a t IH]; [by left|]. right.
  destruct IH as [-> | (pre & c & ->)]; [by exists "", a|].
  exists (String a pre), c. by rewrite string_app_cons.
Qed.

(** [TrimSpace] leaves a string that neither begins nor ends with a rune
    that is white space. *)
Lemma TrimSpace_ok s : no_leading_space (TrimSpace s) ∧ no_trailing_space (TrimSpace s).
Proof.
  unfold TrimSpace. cbv zeta.
  destruct (N.leb_spec RuneSelf (byteAt (trimLeft s) 0)) as [Hhigh | Hlow].
  - unfold TrimFunc. split; [|apply TrimRightFunc_no_trailing_space].
    destruct (TrimRightFunc_prefix (TrimLeftFunc (trimLeft s) IsSpace) IsSpace) as [i ->].
    apply no_leading_space_prefix, TrimLeftFunc_no_leading_space.
  - assert (Hb : no_leading_space (trimRight (trimLeft s))).
    { destruct (trimLeft_head s) as [-> | (c0 & a' & Ha & Hc0)]; [by left|].
      rewrite Ha in Hlow |- *.
      destruct (trimRight_head c0 a' Hc0) as [r ->]. by apply no_leading_space_ascii. }
    destruct (N.leb_spec RuneSelf (byteAt (trimRight (trimLeft s))
                                     (len (trimRight (trimLeft s)) - 1))) as [Hh | Hl].
    + split; [|apply TrimRightFunc_no_trailing_space].
      destruct (TrimRightFunc_prefix (trimRight (trimLeft s)) IsSpace) as [i ->].
      by apply no_leading_space_prefix.
    + split; [done|].
      destruct (string_snoc (trimRight (trimLeft s))) as [He | (pre & c & Hp)]; [by left|].
      apply no_trailing_space_ascii; [rewrite Hp; by destruct pre | done |].
      rewrite (last_byte_space _ pre c Hp). exact (trimRight_last (trimLeft s) pre c Hp).
Qed.

(** A string with no white space rune at either end is left as it is. *)
Lemma TrimSpace_fix t : no_leading_space t → no_trailing_space t → TrimSpace t = t.
Proof.
  intros Hh Hl.
  assert (Hleft : trimLeft t = t).
  { apply trimLeft_fix. intros c rest ->. by apply no_leading_space_first in Hh. }
  assert (Hright : trimRight t = t).
  { apply trimRight_fix. intros pre c ->. by apply no_trailing_space_last in Hl. }
  unfold TrimSpace. cbv zeta. rewrite Hleft, Hright.
  assert (Hr : TrimRightFunc t IsSpace = t).
  { destruct Hl as [-> | Hl]; [done|]. destruct t; [done|]. by apply TrimRightFunc_fix. }
  destruct (_ <=? _).
  - unfold TrimFunc. by rewrite (TrimLeftFunc_fix t Hh).
  - by destruct (_ <=? _).
Qed.

Lemma TrimSpace_idem s : TrimSpace (TrimSpace s) = TrimSpace s.
Proof. destruct (TrimSpace_ok s). by apply TrimSpace_fix. Qed.

Lemma TrimSpace_first s c rest : TrimSpace s = String c rest → asciiSpace c = false.
Proof. apply TrimSpace_ends. Qed.

Lemma TrimSpace_last s pre c : TrimSpace s = pre +:+ String c "" → asciiSpace c = false.
Proof. apply TrimSpace_ends. Qed.

(** The six ASCII bytes are white space runes. *)
Lemma all_space_white_space_only s : all_space s = true → white_space_only s = true.
Proof.
  induction s as [|c q IH]; [done|]. simpl all_space. intros [Hc Hq]%andb_true_iff.
  rewrite asciiSpace_N in Hc. apply asciiSpaceN_IsSpace in Hc as [Hsp Hlt].
  unfold white_space_only, len. simpl String.length. cbn [spaceRunes].
  rewrite (Decode_ascii c q Hlt), Hsp. simpl. by apply IH.
Qed.

Lemma string_app_nil_r s : s +:+ "" = s.
Proof. induction s as [|a s IH]; [done|]. by rewrite string_app_cons, IH. Qed.

Lemma string_app_assoc s t u : (s +:+ t) +:+ u = s +:+ t +:+ u.
Proof. induction s as [|a s IH]; [done|]. by rewrite !string_app_cons, IH. Qed.

Lemma trimLeft_split s : ∃ pre, s = pre +:+ trimLeft s ∧ all_space pre = true.
Proof.
  induction s as [|c s (pre & Hs & Hp)]; simpl; [by exists ""|].
  destruct (asciiSpace c) eqn:Hc; [|by exists ""].
  exists (String c pre). rewrite string_app_cons, <- Hs. simpl. by rewrite Hc, Hp.
Qed.

Lemma trimRight_split s : ∃ post, s = trimRight s +:+ post ∧ all_space post = true.
Proof.
  induction s as [|c s (post & Hs & Hp)]; simpl; [by exists ""|].
  destruct (trimRight s) as [|a r] eqn:Hr.
  - change ("" +:+ post) with post in Hs. subst s.
    destruct (asciiSpace c) eqn:Hc.
    + exists (String c post). simpl. by rewrite Hc, Hp.
    + by exists post.
  - exists post. by rewrite string_app_cons, <- Hs.
Qed.

Lemma sliceTo_sliceFrom k s : s = sliceTo k s +:+ sliceFrom k s.
Proof.
  revert s. induction k as [|k IH]; intros [|c s]; simpl; try done.
  rewrite string_app_cons. by rewrite <- IH.
Qed.

Lemma len_app a b : len (a +:+ b) = (len a + len b)%nat.
Proof.
  unfold len. induction a as [|c a IH]; [done|].
  rewrite string_app_cons. simpl. by rewrite IH.
Qed.

Lemma sliceTo_app p t : sliceTo (len p) (p +:+ t) = p.
Proof.
  unfold len. induction p as [|c p IH]; simpl; [by destruct t|].
  by rewrite IH.
Qed.

Lemma sliceFrom_app p t : sliceFrom (len p) (p +:+ t) = t.
Proof. unfold len. induction p as [|c p IH]; simpl; [by destruct t | done]. Qed.

(** The decoder reads no further than the rune it returns. *)
Lemma Decode_restrict q r size :
  DecodeRuneInString q = (r, size) → (2 ≤ size)%nat →
  DecodeRuneInString (sliceTo size q) = (r, size).
Proof.
  destruct q as [|c0 q1]; [simpl; intros [= <- <-]; lia|].
  simpl DecodeRuneInString at 1. unfold len. simpl String.length.
  destruct (N.ltb_spec (N_of_ascii c0) RuneSelf) as [Hlt | Hge];
    [intros [= <- <-]; lia|].
  destruct (first (N_of_ascii c0)) as [[[sz lo] hi]|] eqn:Hf; [|intros [= <- <-]; lia].
  destruct (first_range _ _ _ _ Hf) as [_ Hsz].
  destruct (Nat.ltb_spec (S (String.length q1)) sz) as [H1 | H1];
    [intros [= <- <-]; lia|].
  destruct q1 as [|c1 q2]; [intros [= <- <-]; lia|].
  destruct (_ || _) eqn:Hb1; [intros [= <- <-]; lia|].
  destruct (Nat.leb_spec sz 2) as [H2 | H2].
  { intros [= <- <-] _. simpl. unfold len. simpl String.length.
    destruct (N.ltb_spec (N_of_ascii c0) RuneSelf); [lia|]. rewrite Hf.
    destruct (Nat.ltb_spec 2 sz); [lia|]. rewrite Hb1.
    destruct (Nat.leb_spec sz 2); [done | lia]. }
  destruct q2 as [|c2 q3]; [intros [= <- <-]; lia|].
  destruct (negb (cont (N_of_ascii c2))) eqn:Hb2; [intros [= <- <-]; lia|].
  destruct (Nat.leb_spec sz 3) as [H3 | H3].
  { intros [= <- <-] _. simpl. unfold len. simpl String.length.
    destruct (N.ltb_spec (N_of_ascii c0) RuneSelf); [lia|]. rewrite Hf.
    destruct (Nat.ltb_spec 3 sz); [lia|]. rewrite Hb1.
    destruct (Nat.leb_spec sz 2); [lia|]. rewrite Hb2.
    destruct (Nat.leb_spec sz 3); [done | lia]. }
  destruct q3 as [|c3 q4]; [intros [= <- <-]; lia|].
  destruct (negb (cont (N_of_ascii c3))) eqn:Hb3; [intros [= <- <-]; lia|].
  intros [= <- <-] _. simpl. unfold len. simpl String.length.
  destruct (N.ltb_spec (N_of_ascii c0) RuneSelf); [lia|]. rewrite Hf.
  destruct (Nat.ltb_spec 4 sz); [lia|]. rewrite Hb1.
  destruct (Nat.leb_spec sz 2); [lia|]. rewrite Hb2.
  destruct (Nat.leb_spec sz 3); [lia|]. by rewrite Hb3.
Qed.

(** A white space rune at the head of a string is decoded alike whatever
    follows it. *)
Lemma Decode_space_app p t r size :
  DecodeRuneInString p = (r, size) → IsSpace r = true → len p = size →
  DecodeRuneInString (p +:+ t) = (r, size).
Proof.
  intros Hd Hsp Hlen.
  destruct p as [|c q]; [simpl in Hd; injection Hd as <- <-; done|].
  destruct (N.ltb_spec (N_of_ascii c) RuneSelf) as [Hlt | Hge].
  - rewrite (Decode_ascii c q Hlt) in Hd. injection Hd as <- <-.
    rewrite string_app_cons. by apply Decode_ascii.
  - destruct (Decode_cases (String c q) Hge) as [He | Hw].
    + rewrite He in Hd. injection Hd as <- <-. by rewrite IsSpace_RuneError in Hsp.
    + rewrite Hd in Hw. simpl in Hw.
      apply (Decode_extend size); [|done].
      rewrite <- Hlen at 1. by rewrite sliceTo_app.
Qed.

Lemma spaceRunes_fuel : ∀ f1 f2 s,
  (len s ≤ f1)%nat → (len s ≤ f2)%nat → spaceRunes f1 s = spaceRunes f2 s.
Proof.
  induction f1 as [|f1 IH]; intros f2 s H1 H2.
  - destruct s; [by destruct f2 | unfold len in H1; simpl in H1; lia].
  - destruct s as [|c q]; [by destruct f2|].
    destruct f2 as [|f2]; [unfold len in H2; simpl in H2; lia|].
    cbn [spaceRunes].
    assert (Hne : String c q ≠ "") by done.
    destruct (Decode_width _ Hne) as [Hw _].
    destruct (DecodeRuneInString (String c q)) as [r size]. simpl in Hw.
    f_equal. apply IH; rewrite len_sliceFrom'; lia.
Qed.

Lemma white_space_only_cons p t r size :
  DecodeRuneInString p = (r, size) → IsSpace r = true → len p = size → p ≠ "" →
  white_space_only t = true → white_space_only (p +:+ t) = true.
Proof.
  intros Hd Hsp Hlen Hne Ht.
  unfold white_space_only. rewrite len_app.
  destruct p as [|c q]; [done|]. rewrite string_app_cons.
  change (len (String c q)) with (S (len q)). cbn [Nat.add spaceRunes].
  rewrite <- string_app_cons, (Decode_space_app _ t _ _ Hd Hsp Hlen), Hsp. cbn [andb].
  rewrite <- Hlen, sliceFrom_app.
  rewrite (spaceRunes_fuel _ (len t)); [done | lia | lia].
Qed.

Lemma white_space_only_app p t :
  white_space_only p = true → white_space_only t = true →
  white_space_only (p +:+ t) = true.
Proof.
  intros Hp Ht. remember (len p) as n eqn:Hn. revert p Hn Hp.
  induction n as [n IH] using lt_wf_ind. intros p Hn Hp.
  destruct p as [|c q]; [done|].
  assert (Hne : String c q ≠ "") by done.
  destruct (Decode_width _ Hne) as [Hw _].
  pose proof Hp as Hp'. unfold white_space_only in Hp'.
  change (len (String c q)) with (S (len q)) in Hp'. cbn [spaceRunes] in Hp'.
  destruct (DecodeRuneInString (String c q)) as [r size] eqn:Hd. simpl in Hw.
  apply andb_true_iff in Hp' as [Hsp Hrest].
  rewrite (sliceTo_sliceFrom size (String c q)), string_app_assoc.
  assert (Hd' : DecodeRuneInString (sliceTo size (String c q)) = (r, size)).
  { destruct (N.ltb_spec (N_of_ascii c) RuneSelf) as [Hlt | Hge].
    - rewrite (Decode_ascii c q Hlt) in Hd. injection Hd as <- <-. simpl sliceTo.
      by apply Decode_ascii.
    - destruct (Decode_cases (String c q) Hge) as [He | Hw2].
      + rewrite He in Hd. injection Hd as <- <-. by rewrite IsSpace_RuneError in Hsp.
      + rewrite Hd in Hw2. simpl in Hw2. by apply Decode_restrict. }
  apply (white_space_only_cons _ _ r size Hd' Hsp).
  - apply len_sliceTo_exact. change (len (String c q)) with (S (len q)). lia.
  - destruct size; [lia | done].
  - apply (IH (len (sliceFrom size (String c q)))); [|done|].
    + rewrite len_sliceFrom'. subst n. change (len (String c q)) with (S (len q)). lia.
    + unfold white_space_only.
      rewrite (spaceRunes_fuel _ (len q)); [done | lia|].
      rewrite len_sliceFrom'. change (len (String c q)) with (S (len q)). lia.
Qed.

Lemma indexLoop_split : ∀ fuel s,
  (len s ≤ fuel)%nat →
  ∃ pre, s = pre +:+ indexLoop IsSpace fuel s ∧ white_space_only pre = true.
Proof.
  induction fuel as [|fuel IH]; intros s Hlen.
  - destruct s; [by exists "" | unfold len in Hlen; simpl in Hlen; lia].
  - destruct s as [|c q]; [by exists ""|]. cbn [indexLoop].
    assert (Hne : String c q ≠ "") by done.
    destruct (Decode_width _ Hne) as [Hw _].
    destruct (DecodeRuneInString (String c q)) as [r size] eqn:Hd. simpl in Hw.
    destruct (IsSpace r) eqn:Hsp; [|by exists ""].
    destruct (IH (sliceFrom size (String c q))) as (pre & Hs & Hp).
    { rewrite len_sliceFrom'. change (len (String c q)) with (S (len q)) in *. lia. }
    exists (sliceTo size (String c q) +:+ pre). split.
    + rewrite string_app_assoc, <- Hs. apply sliceTo_sliceFrom.
    + assert (Hd' : DecodeRuneInString (sliceTo size (String c q)) = (r, size)).
      { destruct (N.ltb_spec (N_of_ascii c) RuneSelf) as [Hlt | Hge].
        - rewrite (Decode_ascii c q Hlt) in Hd. injection Hd as <- <-. simpl sliceTo.
          by apply Decode_ascii.
        - destruct (Decode_cases (String c q) Hge) as [He | Hw2].
          + rewrite He in Hd. injection Hd as <- <-. by rewrite IsSpace_RuneError in Hsp.
          + rewrite Hd in Hw2. simpl in Hw2. by apply Decode_restrict. }
      apply (white_space_only_cons _ _ r size Hd' Hsp); [|destruct size; [lia|done]|done].
      apply len_sliceTo_exact. change (len (String c q)) with (S (len q)). lia.
Qed.

Lemma TrimLeftFunc_split a :
  ∃ pre, a = pre +:+ TrimLeftFunc a IsSpace ∧ white_space_only pre = true.
Proof. apply indexLoop_split. lia. Qed.

Lemma sliceFrom_sliceFrom a b s : sliceFrom a (sliceFrom b s) = sliceFrom (b + a) s.
Proof.
  revert s. induction b as [|b IH]; intros s; [done|].
  destruct s as [|c s]; simpl; [by destruct a | apply IH].
Qed.

(** The backward loop steps over white space runes only. *)
Lemma lastIndexLoop_tail : ∀ fuel s i,
  (i ≤ len s)%nat → (i ≤ fuel)%nat →
  white_space_only (sliceFrom i s) = true →
  match lastIndexLoop IsSpace fuel s i with
  | Some j =>
      ∃ i0, (0 < i0 ≤ i)%nat
            ∧ j = (i0 - (DecodeLastRuneInString (sliceTo i0 s)).2)%nat
            ∧ (i0 = i ∨ cont (byteAt s i0) = false)
            ∧ white_space_only (sliceFrom i0 s) = true
  | None => white_space_only s = true
  end.
Proof.
  induction fuel as [|fuel IH]; intros s i Hi Hf Hws.
  - assert (i = 0)%nat as -> by lia. simpl. by destruct s.
  - cbn [lastIndexLoop]. destruct i as [|i']; [by destruct s|].
    set (s' := sliceTo (S i') s).
    assert (Hlen : len s' = S i') by (apply len_sliceTo_exact; lia).
    assert (Hne : s' ≠ "").
    { intros Hs. rewrite Hs in Hlen. unfold len in Hlen. simpl in Hlen. lia. }
    destruct (DecodeLastRuneInString s') as [r size] eqn:Hd.
    destruct (IsSpace r) eqn:Hsp.
    + assert (Hsz : (1 ≤ size ≤ S i')%nat).
      { pose proof (DecodeLast_facts s' Hne) as [Hw _]. rewrite Hd, Hlen in Hw. exact Hw. }
      assert (Hfw : DecodeRuneInString (sliceTo size (sliceFrom (S i' - size) s)) = (r, size)).
      { pose proof (DecodeLast_routes s' Hne) as Hr. cbv zeta in Hr.
        rewrite Hlen, Hd in Hr. cbn [snd] in Hr.
        destruct Hr as [[Hlt [= Hr1 Hr2]] | [[Hge (start & Hs & Hds & Hsz')] | [Hge [= Hr1 Hr2]]]].
        - subst size. unfold s' in Hlt, Hr1. rewrite byteAt_sliceTo in Hlt, Hr1 by lia.
          replace (S i' - 1)%nat with i' in * by lia.
          assert (Hns : sliceFrom i' s ≠ "") by (apply sliceFrom_nonempty; lia).
          destruct (sliceFrom i' s) as [|c q] eqn:Hq; [done|].
          assert (Hc : byteAt s i' = N_of_ascii c).
          { pose proof (byteAt_sliceFrom i' s 0) as Hb0. rewrite Hq, Nat.add_0_r in Hb0.
            by rewrite <- Hb0. }
          rewrite ?Nat.sub_0_r in Hr1. rewrite Hc in Hlt, Hr1. subst r.
          simpl sliceTo. by apply Decode_ascii.
        - replace (S i' - size)%nat with start by lia.
          unfold s' in Hds. rewrite sliceFrom_sliceTo in Hds by lia.
          by replace (S i' - start)%nat with size in Hds by lia.
        - subst r. by rewrite IsSpace_RuneError in Hsp. }
      assert (Hc : cont (byteAt s (S i' - size)) = false).
      { assert (Hsp' : IsSpace (DecodeRuneInString
                                  (sliceTo size (sliceFrom (S i' - size) s))).1 = true)
          by (by rewrite Hfw).
        apply Decode_space_lead in Hsp'.
        rewrite byteAt_sliceTo, byteAt_sliceFrom, Nat.add_0_r in Hsp' by lia. done. }
      assert (Hws' : white_space_only (sliceFrom (S i' - size) s) = true).
      { rewrite (sliceTo_sliceFrom size (sliceFrom (S i' - size) s)).
        apply (white_space_only_cons _ _ r size Hfw Hsp).
        - apply len_sliceTo_exact. rewrite len_sliceFrom'. lia.
        - intros He. rewrite He in Hfw. simpl in Hfw. injection Hfw as _ <-. lia.
        - rewrite sliceFrom_sliceFrom. by replace (S i' - size + size)%nat with (S i') by lia. }
      specialize (IH s (S i' - size)%nat ltac:(lia) ltac:(lia) Hws').
      destruct (lastIndexLoop IsSpace fuel s (S i' - size)) as [j|]; [|done].
      destruct IH as (i0 & Hi0 & Hj & Hinv & Hw0).
      exists i0. split; [lia|]. split; [done|]. split; [|done].
      right. destruct Hinv as [-> | Hinv]; done.
    + exists (S i'). fold s'. rewrite Hd. split; [lia|]. split; [done|].
      split; [by left | done].
Qed.

Lemma TrimRightFunc_split u :
  ∃ post, u = TrimRightFunc u IsSpace +:+ post ∧ white_space_only post = true.
Proof.
  unfold TrimRightFunc.
  assert (H0 : white_space_only (sliceFrom (len u) u) = true).
  { pose proof (len_sliceFrom' (len u) u) as Hl. rewrite Nat.sub_diag in Hl.
    by destruct (sliceFrom (len u) u). }
  pose proof (lastIndexLoop_tail (len u) u (len u) (le_n _) (le_n _) H0) as Hl.
  destruct (lastIndexLoop IsSpace (len u) u (len u)) as [j|]; [|by exists u].
  destruct Hl as (i0 & Hi0 & Hj & Hinv & Hws).
  destruct (backward_forward u i0 Hi0 Hinv) as (Hlt & Hhigh & Hlow).
  rewrite <- Hj in Hlt, Hhigh, Hlow.
  exists (sliceFrom i0 u). split; [|done].
  destruct (N.leb_spec RuneSelf (byteAt u j)) as [Hb | Hb].
  - rewrite (Hhigh Hb). apply sliceTo_sliceFrom.
  - rewrite (Hlow Hb). apply sliceTo_sliceFrom.
Qed.

(** [TrimSpace] takes white space away at the two ends, and nothing else. *)
Lemma TrimSpace_split s :
  ∃ pre post, s = pre +:+ TrimSpace s +:+ post
              ∧ white_space_only pre = true ∧ white_space_only post = true.
Proof.
  destruct (trimLeft_split s) as (pre1 & Hs & Hp1%all_space_white_space_only).
  unfold TrimSpace. cbv zeta.
  destruct (_ <=? _).
  - unfold TrimFunc.
    destruct (TrimLeftFunc_split (trimLeft s)) as (pre2 & Ha & Hp2).
    destruct (TrimRightFunc_split (TrimLeftFunc (trimLeft s) IsSpace)) as (post & Hu & Hpost).
    exists (pre1 +:+ pre2), post. split_and!; [|by apply white_space_only_app | done].
    by rewrite string_app_assoc, <- Hu, <- Ha.
  - destruct (trimRight_split (trimLeft s)) as (post1 & Hb & Hq1%all_space_white_space_only).
    destruct (_ <=? _).
    + destruct (TrimRightFunc_split (trimRight (trimLeft s))) as (post2 & Hu & Hq2).
      exists pre1, (post2 +:+ post1). split_and!; [|done | by apply white_space_only_app].
      by rewrite <- (string_app_assoc _ post2 post1), <- Hu, <- Hb.
    + exists pre1, post1. split_and!; [|done|done]. by rewrite <- Hb.
Qed.

End trimming.

(* ===================================================================== *)
(** * Loading and construction *)
(* ===================================================================== *)

Section load.

Lemma fnDataLine_Add rl v : fnDataLine (Add rl v) = fnDataLine rl.
Proof. reflexivity. Qed.

Lemma records_Add rl v : records (Add rl v) = {[ GoStrings.TrimSpace v ]} ∪ records rl.
Proof. reflexivity. Qed.

Lemma fnDataLine_initLine rl line : fnDataLine (initLine rl line) = fnDataLine rl.
Proof.
  unfold initLine. destruct (fnDataLine rl) as [f|] eqn:Hf; [|done].
  destruct (f line) as [str []]; [by rewrite fnDataLine_Add | done].
Qed.

Lemma fnDataLine_initLoop lines : ∀ rl,
  fnDataLine (foldl initLine rl lines) = fnDataLine rl.
Proof.
  induction lines as [|l lines IH]; intros rl; simpl; [done|].
  by rewrite IH, fnDataLine_initLine.
Qed.

(** The records after the loop of [init]: those before it, and the trimmed
    outputs of the lines that the processor accepts. *)
Lemma records_initLoop f lines : ∀ rl r,
  fnDataLine rl = Some f →
  r ∈ records (foldl initLine rl lines) ↔
  r ∈ records rl ∨ from_accepted_line f lines r.
Proof.
  unfold from_accepted_line.
  induction lines as [|l lines IH]; intros rl r Hf; simpl.
  - split; [by left | intros [? | (line & Hl & _)]; [done | by apply elem_of_nil in Hl]].
  - rewrite IH by (by rewrite fnDataLine_initLine).
    unfold initLine at 1. rewrite Hf.
    destruct (f l) as [str ok] eqn:Hfl. destruct ok.
    + rewrite records_Add, elem_of_union, elem_of_singleton. split.
      * intros [[-> | Hr] | (line & Hl & Hok & ->)].
        -- right. exists l. rewrite Hfl. split_and!; [left | done | done].
        -- by left.
        -- right. exists line. split_and!; [by right | done | done].
      * intros [Hr | (line & Hl & Hok & ->)]; [by left; right|].
        apply elem_of_cons in Hl as [-> | Hl].
        -- left; left. by rewrite Hfl.
        -- right. by exists line.
    + split.
      * intros [Hr | (line & Hl & Hok & ->)]; [by left|].
        right. exists line. split_and!; [by right | done | done].
      * intros [Hr | (line & Hl & Hok & ->)]; [by left|].
        apply elem_of_cons in Hl as [-> | Hl].
        -- rewrite Hfl in Hok. done.
        -- right. by exists line.
Qed.

Lemma init_regular_file rl w data p t :
  fs w !! fileLocal rl = Some (GoOS.RegularFile data p t) →
  init rl w
  = ((foldl initLine rl (GoStrings.Split data LF), None), w, [EvReadFile (fileLocal rl)]).
Proof. intros Hn. run_with Hn. done. Qed.

Lemma init_directory rl w p t :
  fs w !! fileLocal rl = Some (GoOS.Directory p t) →
  init rl w
  = ((rl, Some ("error reading local file: " +:+ "read " +:+ fileLocal rl
                +:+ ": is a directory")), w, [EvReadFile (fileLocal rl)]).
Proof. intros Hn. run_with Hn. done. Qed.

Lemma init_absent rl w :
  fs w !! fileLocal rl = None →
  init rl w
  = ((rl, Some ("error reading local file: " +:+ "open " +:+ fileLocal rl
                +:+ ": no such file or directory")), w, [EvReadFile (fileLocal rl)]).
Proof. intros Hn. run_with Hn. done. Qed.

Lemma init_read rl w data :
  result (Sys.ReadFile (fileLocal rl) w) = inl data →
  init rl w
  = ((foldl initLine rl (GoStrings.Split data LF), None), w, [EvReadFile (fileLocal rl)]).
Proof.
  unfold init, Sys.ReadFile, result, mbind, M_bind, mret, M_ret. simpl.
  by intros ->.
Qed.

(** [init] either reads the file and loads its lines, or returns the struct
    as it was with a load error. *)
Lemma init_cases rl w :
  (∃ data, result (Sys.ReadFile (fileLocal rl) w) = inl data
           ∧ init rl w
             = ((foldl initLine rl (GoStrings.Split data LF), None), w,
                [EvReadFile (fileLocal rl)]))
  ∨ (∃ cause, result (Sys.ReadFile (fileLocal rl) w) = inr cause
              ∧ init rl w
                = ((rl, Some ("error reading local file: " +:+ cause)), w,
                   [EvReadFile (fileLocal rl)])).
Proof.
  destruct (result (Sys.ReadFile (fileLocal rl) w)) as [data | cause] eqn:Hr.
  - left. exists data. split; [done | by apply init_read].
  - right. exists cause. split; [done|].
    revert Hr. unfold init, Sys.ReadFile, result, mbind, M_bind, mret, M_ret. simpl.
    by intros ->.
Qed.

(** [New] when the refresh step fails: [nil] and the error. *)
Lemma New_fetch_failure path url age h hp hs s df dl w e :
  result (download (New_struct path url age h hp hs s df dl) w) = Some e →
  result (New path url age h hp hs s df dl w) = (None, Some e).
Proof.
  unfold New, result, mbind, M_bind, mret, M_ret. simpl.
  destruct (download _ w) as [[err w1] t1]. simpl. by intros ->.
Qed.

(** [New] when the refresh step succeeds: the struct as [init] leaves it,
    and whatever [init] returns as error. *)
Lemma New_after_download path url age h hp hs s df dl w :
  let rl := New_struct path url age h hp hs s df dl in
  result (download rl w) = None →
  result (New path url age h hp hs s df dl w)
  = (Some (result (init rl (world_after (download rl w)))).1,
     (result (init rl (world_after (download rl w)))).2).
Proof.
  unfold New, result, world_after, mbind, M_bind, mret, M_ret. simpl.
  destruct (download _ w) as [[err w1] t1]. simpl. intros ->.
  by destruct (init _ w1) as [[[rl' e] w2] t2].
Qed.

Lemma HasPrefix_spec s p : GoStrings.HasPrefix s p = true ↔ ∃ rest, s = p +:+ rest.
Proof.
  revert s. induction p as [|b p IH]; intros s; simpl.
  - split; [intros _; by exists s | done].
  - destruct s as [|a s]; simpl.
    + split; [done | intros (rest & Hr); discriminate Hr].
    + rewrite andb_true_iff, IH. split.
      * intros [Hab%Ascii.eqb_eq (rest & ->)]. subst. by exists rest.
      * intros (rest & Hr). injection Hr as -> ->.
        split; [apply Ascii.eqb_refl | by exists rest].
Qed.

Lemma DefaultDataLineProcessFunc_space s :
  s ≠ "" → GoStrings.white_space_only s = true → DefaultDataLineProcessFunc s = (s, true).
Proof.
  destruct s as [|c s]; [done|]. intros _ Hs. apply white_space_only_head in Hs.
  unfold DefaultDataLineProcessFunc. simpl.
  destruct (Ascii.eqb_spec c "#") as [-> | _]; [vm_compute in Hs; discriminate Hs|].
  destruct (Ascii.eqb_spec c "/") as [-> | _]; [vm_compute in Hs; discriminate Hs|].
  done.
Qed.

End load.

(** C1.  [New] on a local path that names a directory touched within the
    maximum age: the refresh step fetches nothing and succeeds, [init]
    cannot read the path, and [New], whose last statement is
    [return rl, rl.init()], hands back the instance, with no record in it,
    together with the error.  The branch for a failed refresh returns [nil]. *)
Theorem New_load_failure_returns_instance :
  result (NewSimple "list.txt" "http://example.com/list.txt" Examples.hour
            Examples.w_directory)
  = (Some Examples.rl_simple,
     Some "error reading local file: read list.txt: is a directory")
  ∧ records Examples.rl_simple = ∅
  ∧ result (NewSimple "list.txt" "http://example.com/list.txt" Examples.hour
              Examples.w_not_found)
    = (None, Some "list download failed with status code: 404").
Proof.
  split_and!.
  - unfold NewSimple. rewrite New_after_download by (vm_compute; reflexivity).
    fold Examples.rl_simple.
    assert (Hw : world_after (download Examples.rl_simple Examples.w_directory)
                 = Examples.w_directory).
    { rewrite (download_fresh _ _ (GoOS.Directory 493 0)); [done | done |].
      vm_compute. reflexivity. }
    rewrite Hw, (init_directory _ _ 493 0) by done. reflexivity.
  - reflexivity.
  - unfold NewSimple. apply New_fetch_failure. vm_compute. reflexivity.
Qed.

(** Whatever the configuration, a path that [Stat] accepts as fresh and
    [ReadFile] refuses makes [New] return an instance with the error. *)
Lemma New_load_failure_general path url age h hp hs s df dl w p t :
  fs w !! path = Some (GoOS.Directory p t) →
  GoTime.Since (clock w) t < age →
  ∃ rl e, result (New path url age h hp hs s df dl w) = (Some rl, Some e)
          ∧ is_load_error e.
Proof.
  intros Hn Hage.
  pose (rl := New_struct path url age h hp hs s df dl).
  assert (Hd : download rl w = (None, w, [EvStat path])).
  { by apply (download_fresh rl w (GoOS.Directory p t)). }
  rewrite New_after_download; fold rl; rewrite Hd; [|done].
  unfold world_after; simpl.
  rewrite (init_directory rl w p t) by done. unfold result; simpl.
  eexists _, _. split; [reflexivity|]. by eexists.
Qed.

(** C2, as worded, fails.  With a processor that accepts no line the
    invariant holds of the empty set, and [Add "a"] breaks it; with the
    default processor [Add "#x"] stores "#x", a candidate that the processor
    excludes. *)
Lemma Add_bypasses_line_filter :
  (filter_invariant Examples.rl_reject_all
   ∧ ¬ filter_invariant (Add Examples.rl_reject_all "a"))
  ∧ ((DefaultDataLineProcessFunc "#x").2 = false
     ∧ fnDataLine Examples.rl_simple = Some DefaultDataLineProcessFunc
     ∧ ("#x" ∉ records Examples.rl_simple)
     ∧ "#x" ∈ records (Add Examples.rl_simple "#x")).
Proof.
  split; [split|].
  - intros f r _ Hr. simpl in Hr. by apply not_elem_of_empty in Hr.
  - intros Hinv.
    destruct (Hinv Examples.reject_all "a" eq_refl) as (line & Hok & _).
    + rewrite records_Add. apply elem_of_union; left. by apply elem_of_singleton.
    + discriminate Hok.
  - split_and!; [done | done | apply not_elem_of_empty |].
    rewrite records_Add. apply elem_of_union; left. by apply elem_of_singleton.
Qed.

(** C2, amended.  The load step filters, [Add] does not.  After [init] on a
    readable local file the records are those present before and, for each
    line that the configured processor accepts, its output with the white
    space trimmed; a line that the processor excludes adds nothing.  [Add]
    stores its trimmed argument without asking the processor. *)
Theorem load_filters_Add_does_not :
  (∀ rl w f data p t,
     fnDataLine rl = Some f →
     fs w !! fileLocal rl = Some (GoOS.RegularFile data p t) →
     ∃ rl', result (init rl w) = (rl', None)
            ∧ ∀ r, r ∈ records rl' ↔
                   r ∈ records rl ∨ from_accepted_line f (GoStrings.Split data LF) r)
  ∧ (∀ rl v, records (Add rl v) = {[ GoStrings.TrimSpace v ]} ∪ records rl).
Proof.
  split; [|exact records_Add].
  intros rl w f data p t Hf Hn. rewrite (init_regular_file rl w data p t Hn).
  eexists. split; [reflexivity|]. intros r. by apply records_initLoop.
Qed.

Lemma load_filters_Add_does_not_witness :
  ∃ rl', result (init Examples.rl_simple Examples.w_fresh) = (rl', None)
         ∧ ∀ r, r ∈ records rl' ↔
                r ∈ records Examples.rl_simple
                ∨ from_accepted_line DefaultDataLineProcessFunc
                    (GoStrings.Split Examples.five_lines LF) r.
Proof.
  apply (proj1 load_filters_Add_does_not Examples.rl_simple Examples.w_fresh
           DefaultDataLineProcessFunc Examples.five_lines 384 0).
  - reflexivity.
  - vm_compute. reflexivity.
Defined.

(** An instance that [New] returns without error satisfies the invariant:
    all its records come from accepted lines. *)
Lemma New_filter_invariant path url age h hp hs s df dl w rl :
  result (New path url age h hp hs s df dl w) = (Some rl, None) →
  filter_invariant rl.
Proof.
  pose (rl0 := New_struct path url age h hp hs s df dl).
  destruct (result (download rl0 w)) as [e|] eqn:Hd.
  { rewrite (New_fetch_failure _ _ _ _ _ _ _ _ _ _ e Hd). discriminate. }
  rewrite New_after_download by exact Hd. fold rl0.
  set (w1 := world_after (download rl0 w)).
  destruct (init_cases rl0 w1) as [(data & _ & Hi) | (cause & _ & Hi)]; rewrite Hi.
  - unfold result; simpl.
    intros [= <-] f r Hf Hr.
    assert (Hf0 : fnDataLine rl0 = Some f) by (by rewrite fnDataLine_initLoop in Hf).
    apply (records_initLoop f _ rl0 r Hf0) in Hr as [Hr | (line & _ & Hok & ->)].
    + by apply not_elem_of_empty in Hr.
    + by exists line.
  - unfold result; simpl. discriminate.
Qed.

(** C8.  The default processor returns its line, and excludes it exactly
    when it is empty or begins with "#" or "//".  Loading the five lines
    "# comment", "", "1.2.3.4", "// note", "5.6.7.8" (with or without a line
    break after the last one) into an empty record set under the default
    processor leaves exactly the records "1.2.3.4" and "5.6.7.8". *)
Theorem default_line_filter_example :
  (∀ rl w data p t,
     fnDataLine rl = Some DefaultDataLineProcessFunc →
     records rl = ∅ →
     data = Examples.five_lines ∨ data = Examples.five_lines +:+ LF →
     fs w !! fileLocal rl = Some (GoOS.RegularFile data p t) →
     ∃ rl', result (init rl w) = (rl', None)
            ∧ records rl' = {[ "1.2.3.4"; "5.6.7.8" ]})
  ∧ (∀ line,
       (DefaultDataLineProcessFunc line).1 = line
       ∧ ((DefaultDataLineProcessFunc line).2 = false ↔
          line = "" ∨ (∃ rest, line = "#" +:+ rest) ∨ (∃ rest, line = "//" +:+ rest))).
Proof.
  split.
  - intros rl w data p t Hf Hrec Hdata Hn.
    rewrite (init_regular_file rl w data p t Hn).
    eexists. split; [reflexivity|].
    apply set_eq. intros r. rewrite (records_initLoop _ _ rl r Hf), Hrec.
    assert (Hlines : ∀ line, line ∈ GoStrings.Split data LF →
              line ∈ ["# comment"; ""; "1.2.3.4"; "// note"; "5.6.7.8"; ""]).
    { intros line. destruct Hdata as [-> | ->]; vm_compute GoStrings.Split.
      - rewrite !elem_of_cons. tauto.
      - done. }
    assert (Hback : ∀ line, line ∈ ["1.2.3.4"; "5.6.7.8"] → line ∈ GoStrings.Split data LF).
    { intros line. destruct Hdata as [-> | ->]; vm_compute GoStrings.Split;
        rewrite !elem_of_cons; tauto. }
    split.
    + intros [Hr | (line & Hl & Hok & ->)]; [by apply not_elem_of_empty in Hr|].
      apply Hlines in Hl.
      repeat (apply elem_of_cons in Hl as [-> | Hl]);
        try (vm_compute in Hok; discriminate Hok).
      * apply elem_of_union; left. by apply elem_of_singleton.
      * apply elem_of_union; right. by apply elem_of_singleton.
      * by apply elem_of_nil in Hl.
    + intros Hr. right.
      apply elem_of_union in Hr as [->%elem_of_singleton | ->%elem_of_singleton].
      * exists "1.2.3.4". split_and!; [|done|done].
        apply Hback. rewrite !elem_of_cons. tauto.
      * exists "5.6.7.8". split_and!; [|done|done].
        apply Hback. rewrite !elem_of_cons. tauto.
  - intros line. split; [done|].
    unfold DefaultDataLineProcessFunc. cbn [snd].
    rewrite negb_false_iff, !orb_true_iff, !HasPrefix_spec, Nat.eqb_eq.
    unfold GoStrings.len. split.
    + intros [[H | H] | H]; [tauto | tauto |]. left. by destruct line.
    + intros [-> | [H | H]]; [by right | tauto | tauto].
Qed.

Lemma default_line_filter_example_witness :
  ∃ rl', result (init Examples.rl_simple Examples.w_fresh) = (rl', None)
         ∧ records rl' = {[ "1.2.3.4"; "5.6.7.8" ]}.
Proof.
  apply (proj1 default_line_filter_example Examples.rl_simple Examples.w_fresh
           Examples.five_lines 384 0).
  - reflexivity.
  - reflexivity.
  - left. reflexivity.
  - vm_compute. reflexivity.
Defined.

(** C10.  A string that is not empty and holds white space only, that is
    runes that [unicode.IsSpace] accepts, passes the default processor
    unchanged and is trimmed to the empty string; so a local file with such
    a line loads the empty string as a record, and [List] shows it.  The
    strings made of the six ASCII white space bytes are among them. *)
Theorem whitespace_line_becomes_empty_record :
  (∀ s, s ≠ "" → GoStrings.white_space_only s = true →
        DefaultDataLineProcessFunc s = (s, true) ∧ GoStrings.TrimSpace s = "")
  ∧ (∀ rl w data p t line,
       fnDataLine rl = Some DefaultDataLineProcessFunc →
       fs w !! fileLocal rl = Some (GoOS.RegularFile data p t) →
       line ∈ GoStrings.Split data LF →
       line ≠ "" → GoStrings.white_space_only line = true →
       ∃ rl', result (init rl w) = (rl', None)
              ∧ "" ∈ records rl' ∧ "" ∈ List rl')
  ∧ (∀ s, all_space s = true → GoStrings.white_space_only s = true).
Proof.
  split_and!.
  - intros s Hne Hs. split;
      [by apply DefaultDataLineProcessFunc_space | by apply TrimSpace_white_space].
  - intros rl w data p t line Hf Hn Hl Hne Hs.
    rewrite (init_regular_file rl w data p t Hn).
    eexists. split; [reflexivity|].
    assert (Hin : "" ∈ records (foldl initLine rl (GoStrings.Split data LF))).
    { apply (records_initLoop _ _ rl "" Hf). right. exists line.
      rewrite DefaultDataLineProcessFunc_space by done. simpl.
      by rewrite TrimSpace_white_space. }
    split; [exact Hin | by apply elem_of_List].
  - apply all_space_white_space_only.
Qed.

Lemma whitespace_line_becomes_empty_record_witness :
  ∃ rl', result (init Examples.rl_simple MoreExamples.w_nbsp_line) = (rl', None)
         ∧ "" ∈ records rl' ∧ "" ∈ List rl'.
Proof.
  apply (proj1 (proj2 whitespace_line_becomes_empty_record) Examples.rl_simple
           MoreExamples.w_nbsp_line ("a" +:+ LF +:+ MoreExamples.NBSP +:+ LF +:+ "b")
           420 0 MoreExamples.NBSP).
  - reflexivity.
  - vm_compute. reflexivity.
  - vm_compute. right. left.
  - discriminate.
  - reflexivity.
Defined.

(** What [List] shows after that load: the empty string first. *)
Lemma whitespace_line_listed :
  List (result (init Examples.rl_simple Examples.w_blank_line)).1 = [""; "a"; "b"]
  ∧ List (result (init Examples.rl_simple MoreExamples.w_nbsp_line)).1 = [""; "a"; "b"].
Proof. split; vm_compute; reflexivity. Qed.

(* ===================================================================== *)
(** * The default matchers *)
(* ===================================================================== *)

Section matchers.

Lemma every_byte (a : ascii) : In a (map ascii_of_nat (seq 0 256)).
Proof.
  apply in_map_iff. exists (nat_of_ascii a). split.
  - apply ascii_nat_embedding.
  - apply in_seq. pose proof (nat_ascii_bounded a). lia.
Qed.

(** Byte by byte, the ASCII loop of [EqualFold] compares the lower-case
    forms. *)
Lemma foldEqByte_lowerByte a b :
  GoStrings.foldEqByte a b = Ascii.eqb (GoStrings.lowerByte a) (GoStrings.lowerByte b).
Proof.
  assert (Hall : forallb (λ a, forallb (λ b,
                    Bool.eqb (GoStrings.foldEqByte a b)
                      (Ascii.eqb (GoStrings.lowerByte a) (GoStrings.lowerByte b)))
                    (map ascii_of_nat (seq 0 256)))
                   (map ascii_of_nat (seq 0 256)) = true)
    by (vm_compute; reflexivity).
  rewrite forallb_forall in Hall. specialize (Hall a (every_byte a)).
  rewrite forallb_forall in Hall. specialize (Hall b (every_byte b)).
  by apply Bool.eqb_prop.
Qed.

Lemma lowerByte_idem a : GoStrings.lowerByte (GoStrings.lowerByte a) = GoStrings.lowerByte a.
Proof.
  assert (Hall : forallb (λ a, Ascii.eqb (GoStrings.lowerByte (GoStrings.lowerByte a))
                                 (GoStrings.lowerByte a))
                   (map ascii_of_nat (seq 0 256)) = true)
    by (vm_compute; reflexivity).
  rewrite forallb_forall in Hall. apply Ascii.eqb_eq, Hall, every_byte.
Qed.

Lemma ToLower_idem s : GoStrings.ToLower (GoStrings.ToLower s) = GoStrings.ToLower s.
Proof. induction s as [|c s IH]; simpl; [done|]. by rewrite lowerByte_idem, IH. Qed.

(** On the ASCII path modelled here, [EqualFold] is equality up to the case
    of the letters. *)
Lemma EqualFold_ToLower s t :
  GoStrings.EqualFold s t = true ↔ GoStrings.ToLower s = GoStrings.ToLower t.
Proof.
  revert t. induction s as [|a s IH]; intros [|b t]; simpl; try done.
  rewrite andb_true_iff, foldEqByte_lowerByte, Ascii.eqb_eq, IH. split.
  - by intros [-> ->].
  - intros [= -> ->]. done.
Qed.

(** [Contains] finds [substr] somewhere in [s]. *)
Lemma Contains_spec s substr :
  GoStrings.Contains s substr = true ↔ ∃ pre post, s = pre +:+ substr +:+ post.
Proof.
  unfold GoStrings.Contains. induction s as [|c s IH]; simpl.
  - destruct (GoStrings.HasPrefix "" substr) eqn:Hp; simpl.
    + split; [intros _ | done]. apply HasPrefix_spec in Hp as (rest & Hr).
      by exists "", rest.
    + split; [done|]. intros (pre & post & Hs). destruct pre; [|discriminate Hs].
      assert (GoStrings.HasPrefix "" substr = true) by (apply HasPrefix_spec; eauto).
      congruence.
  - destruct (GoStrings.HasPrefix (String c s) substr) eqn:Hp; simpl.
    + split; [intros _ | done]. apply HasPrefix_spec in Hp as (rest & Hr).
      by exists "", rest.
    + destruct (GoStrings.Index s substr) as [i|]; simpl.
      * split; [intros _ | done]. destruct IH as [IH _].
        destruct (IH eq_refl) as (pre & post & ->). by exists (String c pre), post.
      * split; [done|]. intros (pre & post & Hs). destruct pre as [|c' pre].
        -- assert (GoStrings.HasPrefix (String c s) substr = true)
             by (apply HasPrefix_spec; eauto).
           congruence.
        -- injection Hs as -> ->. apply IH. eauto.
Qed.

Lemma fnSearch_initLoop lines : ∀ rl, fnSearch (foldl initLine rl lines) = fnSearch rl.
Proof.
  induction lines as [|l lines IH]; intros rl; simpl; [done|].
  rewrite IH. unfold initLine. destruct (fnDataLine rl) as [f|]; [|done].
  by destruct (f l) as [str []].
Qed.

Lemma NoDup_count_one (l : list string) x :
  NoDup l → x ∈ l → count_occ String.string_dec l x = 1%nat.
Proof.
  intros Hnd Hx. apply NoDup_ListNoDup in Hnd.
  apply (proj1 (NoDup_count_occ' String.string_dec l) Hnd). by apply list_elem_of_In.
Qed.

Lemma NoDup_DefaultSearchFunc (recs : gset string) term :
  NoDup (DefaultSearchFunc recs term).
Proof.
  unfold DefaultSearchFunc, DefaultSearchFunc_over.
  rewrite Strings_Permutation, searchLoop_filter.
  apply NoDup_ListNoDup, List.NoDup_filter, NoDup_ListNoDup, NoDup_elements.
Qed.

(** A list without repetition whose members are all [x] is [x] alone. *)
Lemma only_element (l : list string) x :
  NoDup l → (∀ r, r ∈ l ↔ r = x) → l = [x].
Proof.
  intros Hnd Hx. destruct l as [|a [|b l]].
  - assert (Hin : x ∈ []) by (by apply Hx). by apply elem_of_nil in Hin.
  - f_equal. apply Hx. by left.
  - assert (a = x) as -> by (apply Hx; by left).
    assert (b = x) as -> by (apply Hx; right; by left).
    apply NoDup_cons in Hnd as [Hnot _]. destruct Hnot. by left.
Qed.

Lemma not_ascending_pair x y : String.leb x y = false → ¬ ascending [x; y].
Proof.
  intros Hxy Hs. apply Sorted_inv in Hs as [_ Hhd]. apply HdRel_inv in Hhd.
  unfold String.le in Hhd. rewrite Hxy in Hhd. done.
Qed.

End matchers.

(** C4, as worded, fails: [Search] returns what the configured search
    strategy returns.  [New] with a strategy of the caller's that lists the
    matches in descending order yields an instance whose [Search] is not in
    ascending order. *)
Lemma Search_custom_not_ascending :
  ∃ rl, result (New "list.txt" "http://example.com/list.txt" Examples.hour
                  None None None (Some Examples.search_descending) None None
                  Examples.w_fresh) = (Some rl, None)
        ∧ Search rl "." = ["5.6.7.8"; "1.2.3.4"]
        ∧ ¬ ascending (Search rl ".").
Proof.
  rewrite New_after_download by (vm_compute; reflexivity).
  fold Examples.rl_descending.
  assert (Hw : world_after (download Examples.rl_descending Examples.w_fresh)
               = Examples.w_fresh) by (vm_compute; reflexivity).
  rewrite Hw, (init_regular_file _ _ Examples.five_lines 384 0) by (vm_compute; reflexivity).
  exists (foldl initLine Examples.rl_descending (GoStrings.Split Examples.five_lines LF)).
  split; [reflexivity|].
  assert (Hs : Search (foldl initLine Examples.rl_descending
                         (GoStrings.Split Examples.five_lines LF)) "."
               = ["5.6.7.8"; "1.2.3.4"]) by (vm_compute; reflexivity).
  split; [exact Hs|]. rewrite Hs. by apply not_ascending_pair.
Qed.

(** C4, amended.  [List] returns the records in ascending order, byte by
    byte, for every record set; so does [Search] when the search strategy is
    the default one.  Neither result depends on the order in which the map
    hands out its keys. *)
Theorem List_and_default_Search_ascending :
  (∀ rl, ascending (List rl))
  ∧ (∀ rl value, fnSearch rl = DefaultSearchFunc → ascending (Search rl value))
  ∧ (∀ rl value keys, range_order (records rl) keys →
       List_over keys = List rl
       ∧ DefaultSearchFunc_over keys value = DefaultSearchFunc (records rl) value).
Proof.
  split_and!.
  - intros rl. apply Strings_ascending.
  - intros rl value Hdef. unfold Search. rewrite Hdef. apply Strings_ascending.
  - intros rl value keys Hk. split;
      [by apply List_over_order | by apply DefaultSearchFunc_over_order].
Qed.

Lemma List_and_default_Search_ascending_witness :
  ascending (Search (Add (Add Examples.rl_simple "b") "a") "")
  ∧ (List_over ["b"; "a"] = List (Add (Add Examples.rl_simple "b") "a")
     ∧ DefaultSearchFunc_over ["b"; "a"] ""
       = DefaultSearchFunc (records (Add (Add Examples.rl_simple "b") "a")) "").
Proof.
  split.
  - apply (proj1 (proj2 List_and_default_Search_ascending)). reflexivity.
  - apply (proj2 (proj2 List_and_default_Search_ascending)).
    unfold range_order. vm_compute. apply perm_swap.
Defined.

(** An instance that [New] builds without a search strategy of the caller's
    searches with the default one. *)
Lemma New_default_search path url age h hp hs df dl w rl e :
  result (New path url age h hp hs None df dl w) = (Some rl, e) →
  fnSearch rl = DefaultSearchFunc.
Proof.
  pose (rl0 := New_struct path url age h hp hs None df dl).
  destruct (result (download rl0 w)) as [e'|] eqn:Hd.
  { rewrite (New_fetch_failure _ _ _ _ _ _ _ _ _ _ e' Hd). discriminate. }
  rewrite New_after_download by exact Hd. fold rl0.
  set (w1 := world_after (download rl0 w)).
  destruct (init_cases rl0 w1) as [(data & _ & Hi) | (cause & _ & Hi)]; rewrite Hi.
  - unfold result; simpl. intros [= <- _]. by rewrite fnSearch_initLoop.
  - unfold result; simpl. by intros [= <- _].
Qed.

(** C5.  [Add(x)] twice: the second call leaves the record set as the first
    one left it; [List] then holds the trimmed [x] exactly once and is as
    long as after the first call. *)
Theorem Add_idempotent (rl : RemoteList) (x : string) :
  records (Add (Add rl x) x) = records (Add rl x)
  ∧ count_occ String.string_dec (List (Add (Add rl x) x)) (GoStrings.TrimSpace x) = 1%nat
  ∧ length (List (Add (Add rl x) x)) = length (List (Add rl x)).
Proof.
  assert (Hrec : records (Add (Add rl x) x) = records (Add rl x)).
  { rewrite !records_Add. apply set_eq. intros r.
    rewrite !elem_of_union, !elem_of_singleton. tauto. }
  split_and!.
  - exact Hrec.
  - apply NoDup_count_one.
    + unfold List, List_over. rewrite Strings_Permutation, appendLoop_app. simpl.
      apply NoDup_elements.
    + apply elem_of_List. rewrite Hrec, records_Add.
      apply elem_of_union; left. by apply elem_of_singleton.
  - unfold List. by rewrite Hrec.
Qed.

(** C9, as worded, fails: with the default matchers and "Example.com"
    present, [Search("EXAM")] returns every record that contains "exam" up
    to the case of letters, here two of them. *)
Lemma Search_example_not_alone :
  fnHas MoreExamples.rl_two_exam = DefaultHasFunc
  ∧ fnSearch MoreExamples.rl_two_exam = DefaultSearchFunc
  ∧ "Example.com" ∈ records MoreExamples.rl_two_exam
  ∧ Search MoreExamples.rl_two_exam "EXAM" = ["Example.com"; "exam.org"]
  ∧ Search MoreExamples.rl_two_exam "EXAM" ≠ ["Example.com"].
Proof.
  assert (Hs : Search MoreExamples.rl_two_exam "EXAM" = ["Example.com"; "exam.org"])
    by (vm_compute; reflexivity).
  split_and!; [reflexivity | reflexivity | | exact Hs | rewrite Hs; discriminate].
  unfold MoreExamples.rl_two_exam. rewrite !records_Add.
  apply elem_of_union; right. apply elem_of_union; left. by apply elem_of_singleton.
Qed.

(** C9, amended.  With the default matchers and the record "Example.com"
    present, [Has("example.com")] is true and [Search("EXAM")] contains
    "Example.com".  When the records are ASCII strings, [Search("EXAM")] is
    that one record exactly when no other record contains "exam" up to the
    case of letters; and for an ASCII term the default [Has] holds exactly
    when some record equals the term up to the case of letters, and the
    default [Search] returns exactly the records that contain the term up to
    the case of letters. *)
Theorem default_matchers_case_insensitive (rl : RemoteList) :
  fnHas rl = DefaultHasFunc →
  fnSearch rl = DefaultSearchFunc →
  "Example.com" ∈ records rl →
  Has rl "example.com" = true
  ∧ "Example.com" ∈ Search rl "EXAM"
  ∧ ((∀ r, r ∈ records rl → GoStrings.is_ascii r = true) →
     (Search rl "EXAM" = ["Example.com"] ↔
      ∀ r, r ∈ records rl →
           (∃ pre post, GoStrings.ToLower r = pre +:+ "exam" +:+ post) →
           r = "Example.com")
     ∧ (∀ term, GoStrings.is_ascii term = true →
          (Has rl term = true ↔
           ∃ rec, rec ∈ records rl ∧ GoStrings.ToLower rec = GoStrings.ToLower term)
          ∧ (∀ r, r ∈ Search rl term ↔
                  r ∈ records rl ∧
                  ∃ pre post,
                    GoStrings.ToLower r = pre +:+ GoStrings.ToLower term +:+ post))).
Proof.
  intros Hh Hs Hin. unfold Has, Search. rewrite Hh, Hs.
  assert (Hhas : ∀ term, DefaultHasFunc (records rl) term = true ↔
            ∃ rec, rec ∈ records rl ∧ GoStrings.ToLower rec = GoStrings.ToLower term).
  { intros term. rewrite DefaultHasFunc_true.
    by setoid_rewrite EqualFold_ToLower; setoid_rewrite ToLower_idem. }
  assert (Hsearch : ∀ term r, r ∈ DefaultSearchFunc (records rl) term ↔
            r ∈ records rl ∧
            ∃ pre post, GoStrings.ToLower r = pre +:+ GoStrings.ToLower term +:+ post).
  { intros term r. by rewrite elem_of_DefaultSearchFunc, Contains_spec. }
  assert (Hex : "Example.com" ∈ DefaultSearchFunc (records rl) "EXAM").
  { apply Hsearch. split; [done|]. exists "", "ple.com". vm_compute. reflexivity. }
  split_and!.
  - apply Hhas. by exists "Example.com".
  - exact Hex.
  - intros _. split; [split|].
    + intros Heq r Hr Hc.
      assert (Hin' : r ∈ DefaultSearchFunc (records rl) "EXAM") by (by apply Hsearch).
      rewrite Heq in Hin'. by apply list_elem_of_singleton in Hin'.
    + intros Honly. apply only_element; [apply NoDup_DefaultSearchFunc|].
      intros r. rewrite Hsearch. change (GoStrings.ToLower "EXAM") with "exam". split.
      * intros [Hr Hc]. by apply Honly.
      * intros ->. by apply Hsearch in Hex.
    + intros term _. split; [apply Hhas | apply Hsearch].
Qed.

Lemma default_matchers_case_insensitive_witness :
  Has (Add Examples.rl_simple "Example.com") "example.com" = true
  ∧ Search (Add Examples.rl_simple "Example.com") "EXAM" = ["Example.com"].
Proof.
  pose proof (default_matchers_case_insensitive
                (Add Examples.rl_simple "Example.com") eq_refl eq_refl) as H.
  assert (Hone : ∀ r, r ∈ records (Add Examples.rl_simple "Example.com") →
                      r = "Example.com").
  { intros r Hr. rewrite records_Add in Hr.
    apply elem_of_union in Hr as [Hr%elem_of_singleton | Hr]; [exact Hr|].
    apply not_elem_of_empty in Hr. destruct Hr. }
  destruct H as (H1 & _ & H3).
  - rewrite records_Add. apply elem_of_union; left.
    apply elem_of_singleton. reflexivity.
  - split; [exact H1|]. apply H3.
    + intros r Hr. rewrite (Hone r Hr). reflexivity.
    + intros r Hr _. exact (Hone r Hr).
Defined.

Lemma download_staleness_gate_witness :
  ¬ fetch_attempted Examples.rl_simple Examples.w_fresh
  ∧ result (download Examples.rl_simple Examples.w_fresh) = None
  ∧ world_after (download Examples.rl_simple Examples.w_fresh) = Examples.w_fresh
  ∧ trace (download Examples.rl_simple Examples.w_fresh)
    = [EvStat (fileLocal Examples.rl_simple)].
Proof.
  apply (proj2 (download_staleness_gate Examples.rl_simple Examples.w_fresh)
           (GoOS.RegularFile Examples.five_lines 384 0)).
  - vm_compute. reflexivity.
  - vm_compute. reflexivity.
Defined.

(* ===================================================================== *)
(** * More on the refresh step *)
(* ===================================================================== *)

Section refresh_more.

(** What a write that succeeds leaves at the path: a file with the bytes
    written, and the mode that was there or the one asked for. *)
Lemma WriteFile_success name payload perm w :
  (Sys.WriteFile name payload perm w).1.1 = None →
  ∃ n, fs (Sys.WriteFile name payload perm w).1.2 !! name = Some n
       ∧ GoOS.node_data n = Some payload
       ∧ GoOS.Mode (GoOS.node_info n)
         = match fs w !! name with
           | Some n0 => GoOS.Mode (GoOS.node_info n0)
           | None => Z.ldiff (GoOS.Perm perm) (umask w)
           end.
Proof.
  unfold Sys.WriteFile.
  destruct (fs w !! name) as [[old p t | p t | old p t re [c|]]|] eqn:Hn; simpl;
    try discriminate.
  - intros _. eexists. split; [apply lookup_insert_eq | done].
  - intros _. eexists. split; [apply lookup_insert_eq | done].
  - destruct (create_error w name); simpl; [discriminate|].
    intros _. eexists. split; [apply lookup_insert_eq | done].
Qed.

Lemma WriteFile_frame name payload perm w :
  clock (Sys.WriteFile name payload perm w).1.2 = clock w
  ∧ umask (Sys.WriteFile name payload perm w).1.2 = umask w
  ∧ remote (Sys.WriteFile name payload perm w).1.2 = remote w
  ∧ ∀ other, other ≠ name →
      fs (Sys.WriteFile name payload perm w).1.2 !! other = fs w !! other.
Proof.
  unfold Sys.WriteFile.
  destruct (fs w !! name) as [[old p t | p t | old p t re [c|]]|]; simpl;
    [| | | | destruct (create_error w name); simpl];
    split_and!; try done; intros other Hne; by rewrite lookup_insert_ne.
Qed.

(** Reading succeeds exactly on a node that lets itself be read. *)
Lemma ReadFile_node name w data :
  result (Sys.ReadFile name w) = inl data ↔
  ∃ n, fs w !! name = Some n ∧ GoOS.node_read n = inl data.
Proof.
  unfold result, Sys.ReadFile; simpl.
  destruct (fs w !! name) as [[d p t | p t | d p t [c|] we]|]; simpl.
  - split; [intros [= <-]; by eexists | by intros (n & [= <-] & [= <-])].
  - split; [discriminate | by intros (n & [= <-] & ?)].
  - split; [discriminate | by intros (n & [= <-] & ?)].
  - split; [intros [= <-]; by eexists | by intros (n & [= <-] & [= <-])].
  - split; [discriminate | by intros (n & ? & ?)].
Qed.

Lemma node_read_data n data : GoOS.node_read n = inl data → GoOS.node_data n = Some data.
Proof. destruct n as [d p t | p t | d p t [c|] we]; simpl; congruence. Qed.

(** A refresh that fetched and returned [nil] has written the payload. *)
Lemma download_fetched_node rl w data :
  stale rl w →
  remote w (fileRemote rl) = GoHTTP.Response 200 (inl data) →
  result (download rl w) = None →
  ∃ n, fs (world_after (download rl w)) !! fileLocal rl = Some n
       ∧ GoOS.node_data n = Some (payload_of rl data)
       ∧ GoOS.Mode (GoOS.node_info n) = mode_after_write rl w
       ∧ trace (download rl w)
         = [EvStat (fileLocal rl); EvGet (fileRemote rl);
            EvWriteFile (fileLocal rl) (payload_of rl data) (expected_perm rl w)].
Proof.
  intros Hs Hr. rewrite (download_stale rl w Hs), Hr. simpl.
  unfold result, world_after, trace; simpl.
  destruct ((Sys.WriteFile (fileLocal rl) (payload_of rl data) (expected_perm rl w) w).1.1)
    as [c|] eqn:Hw; [discriminate|]. intros _.
  destruct (WriteFile_success _ _ _ _ Hw) as (n & Hn & Hd & Hm).
  exists n. split_and!; try done.
  rewrite Hm. unfold mode_after_write, expected_perm.
  by destruct (fs w !! fileLocal rl).
Qed.

End refresh_more.

(** X1.  When a refresh has fetched a body with status 200 and returned
    [nil], the local path holds a file whose bytes are the body passed
    through the payload filter (the body itself without one) and whose mode
    is the one the path had, or 0644 less the umask when nothing was there;
    the calls made were [Stat], [Get] and one [WriteFile]. *)
Theorem download_success_writes_payload (rl : RemoteList) (w : World) (data : string) :
  stale rl w →
  remote w (fileRemote rl) = GoHTTP.Response 200 (inl data) →
  result (download rl w) = None →
  ∃ n, fs (world_after (download rl w)) !! fileLocal rl = Some n
       ∧ GoOS.node_data n = Some (payload_of rl data)
       ∧ GoOS.Mode (GoOS.node_info n) = mode_after_write rl w
       ∧ trace (download rl w)
         = [EvStat (fileLocal rl); EvGet (fileRemote rl);
            EvWriteFile (fileLocal rl) (payload_of rl data) (expected_perm rl w)].
Proof. apply download_fetched_node. Qed.

Lemma download_success_writes_payload_witness :
  ∃ n, fs (world_after (download MoreExamples.rl_lowering Examples.w_absent))
         !! fileLocal MoreExamples.rl_lowering = Some n
       ∧ GoOS.node_data n
         = Some (payload_of MoreExamples.rl_lowering ("10.0.0.1" +:+ LF +:+ "10.0.0.2"))
       ∧ GoOS.Mode (GoOS.node_info n)
         = mode_after_write MoreExamples.rl_lowering Examples.w_absent
       ∧ trace (download MoreExamples.rl_lowering Examples.w_absent)
         = [EvStat (fileLocal MoreExamples.rl_lowering);
            EvGet (fileRemote MoreExamples.rl_lowering);
            EvWriteFile (fileLocal MoreExamples.rl_lowering)
              (payload_of MoreExamples.rl_lowering ("10.0.0.1" +:+ LF +:+ "10.0.0.2"))
              (expected_perm MoreExamples.rl_lowering Examples.w_absent)].
Proof.
  apply (download_success_writes_payload MoreExamples.rl_lowering Examples.w_absent).
  - left. vm_compute. reflexivity.
  - reflexivity.
  - vm_compute. reflexivity.
Defined.

(** The write can fail on a path that is no directory: when the system
    refuses to create the file, or to open the one that is there. *)
Lemma download_write_refused rl w data cause :
  stale rl w →
  remote w (fileRemote rl) = GoHTTP.Response 200 (inl data) →
  (fs w !! fileLocal rl = None ∧ create_error w (fileLocal rl) = Some cause)
  ∨ (∃ d p t re, fs w !! fileLocal rl = Some (GoOS.GuardedFile d p t re (Some cause))) →
  result (download rl w)
  = Some ("list download failed, could not write data: "
          +:+ "open " +:+ fileLocal rl +:+ ": " +:+ cause)
  ∧ fs (world_after (download rl w)) = fs w.
Proof.
  intros Hs Hr Hc. rewrite (download_stale rl w Hs), Hr. simpl.
  unfold result, world_after, Sys.WriteFile; simpl.
  destruct Hc as [[Hn Hce] | (d & p & t & re & Hn)]; rewrite Hn; simpl;
    [rewrite Hce|]; done.
Qed.

(** A stale file that may not be written, and a path at which no file can
    be created: the refresh step returns the write error. *)
Lemma download_write_refused_examples :
  result (download Examples.rl_simple MoreExamples.w_read_only)
  = Some "list download failed, could not write data: open list.txt: permission denied"
  ∧ result (download Examples.rl_simple MoreExamples.w_no_parent)
    = Some ("list download failed, could not write data: "
            +:+ "open list.txt: no such file or directory")
  ∧ result (NewSimple "list.txt" "http://example.com/list.txt" Examples.hour
              MoreExamples.w_read_only)
    = (None,
       Some "list download failed, could not write data: open list.txt: permission denied").
Proof.
  split_and!.
  - apply (download_write_refused Examples.rl_simple MoreExamples.w_read_only
             ("10.0.0.1" +:+ LF +:+ "10.0.0.2") "permission denied").
    + right. eexists. split; [vm_compute; reflexivity | vm_compute; discriminate].
    + reflexivity.
    + right. by eexists _, _, _, _.
  - apply (download_write_refused Examples.rl_simple MoreExamples.w_no_parent
             ("10.0.0.1" +:+ LF +:+ "10.0.0.2") "no such file or directory").
    + by left.
    + reflexivity.
    + by left.
  - unfold NewSimple. apply New_fetch_failure.
    apply (download_write_refused Examples.rl_simple MoreExamples.w_read_only
             ("10.0.0.1" +:+ LF +:+ "10.0.0.2") "permission denied").
    + right. eexists. split; [vm_compute; reflexivity | vm_compute; discriminate].
    + reflexivity.
    + right. by eexists _, _, _, _.
Qed.

(** X3.  When the local path is a directory that counts as stale and the
    fetch succeeds, the write fails: [download] returns the write error,
    which is neither a fetch error nor a load error, after one attempt to
    write, and the file system is as before. *)
Theorem download_write_failure (rl : RemoteList) (w : World) (data : string) p t :
  fs w !! fileLocal rl = Some (GoOS.Directory p t) →
  maxAge rl ≤ GoTime.Since (clock w) t →
  remote w (fileRemote rl) = GoHTTP.Response 200 (inl data) →
  ∃ e, result (download rl w) = Some e
       ∧ is_persist_error e ∧ ¬ is_fetch_error e ∧ ¬ is_load_error e
       ∧ fs (world_after (download rl w)) = fs w
       ∧ trace (download rl w)
         = [EvStat (fileLocal rl); EvGet (fileRemote rl);
            EvWriteFile (fileLocal rl) (payload_of rl data) (GoOS.Perm (Z.lor GoOS.ModeDir p))].
Proof.
  intros Hn Hage Hr.
  assert (Hs : stale rl w) by (right; eauto).
  rewrite (download_stale rl w Hs), Hr. unfold expected_perm, Sys.WriteFile.
  rewrite Hn. unfold result, world_after, trace; simpl.
  eexists. split; [reflexivity|].
  assert (He : is_persist_error
                 ("list download failed, could not write data: "
                  +:+ "open " +:+ fileLocal rl +:+ ": is a directory")) by (by eexists).
  split_and!; [exact He | | by apply persist_error_not_load | done | done].
  intros Hf. by apply (fetch_error_not_persist _ Hf).
Qed.

Lemma download_write_failure_witness :
  ∃ e, result (download Examples.rl_simple MoreExamples.w_stale_directory) = Some e
       ∧ is_persist_error e ∧ ¬ is_fetch_error e ∧ ¬ is_load_error e
       ∧ fs (world_after (download Examples.rl_simple MoreExamples.w_stale_directory))
         = fs MoreExamples.w_stale_directory
       ∧ trace (download Examples.rl_simple MoreExamples.w_stale_directory)
         = [EvStat (fileLocal Examples.rl_simple); EvGet (fileRemote Examples.rl_simple);
            EvWriteFile (fileLocal Examples.rl_simple)
              (payload_of Examples.rl_simple ("10.0.0.1" +:+ LF +:+ "10.0.0.2"))
              (GoOS.Perm (Z.lor GoOS.ModeDir 493))].
Proof.
  apply (download_write_failure Examples.rl_simple MoreExamples.w_stale_directory
           ("10.0.0.1" +:+ LF +:+ "10.0.0.2") 493 0).
  - vm_compute. reflexivity.
  - vm_compute. discriminate.
  - reflexivity.
Defined.

Section refresh_outcomes.

(** An error of [download] is a fetch error or a write error. *)
Lemma download_error_kind rl w e :
  result (download rl w) = Some e → is_fetch_error e ∨ is_persist_error e.
Proof.
  destruct (stale_dec rl w) as [Hs | (n & Hn & Hage)].
  - rewrite (download_stale rl w Hs).
    destruct (remote w (fileRemote rl)) as [c | code [data | c]].
    + intros [= <-]. left; left. by eexists.
    + destruct (negb (code =? GoHTTP.StatusOK)).
      * intros [= <-]. left; right; left. by eexists.
      * unfold result; simpl.
        destruct ((Sys.WriteFile _ _ _ w).1.1) as [c|]; [|discriminate].
        intros [= <-]. right. by eexists.
    + destruct (negb (code =? GoHTTP.StatusOK)).
      * intros [= <-]. left; right; left. by eexists.
      * intros [= <-]. left; right; right. by eexists.
  - rewrite (download_fresh rl w n Hn Hage). discriminate.
Qed.

(** Nothing but the local path changes, and only its node. *)
Lemma download_frame rl w :
  clock (world_after (download rl w)) = clock w
  ∧ umask (world_after (download rl w)) = umask w
  ∧ remote (world_after (download rl w)) = remote w
  ∧ ∀ other, other ≠ fileLocal rl →
      fs (world_after (download rl w)) !! other = fs w !! other.
Proof.
  destruct (stale_dec rl w) as [Hs | (n & Hn & Hage)].
  - rewrite (download_stale rl w Hs).
    destruct (remote w (fileRemote rl)) as [c | code [data | c]]; [done | |].
    + destruct (negb (code =? GoHTTP.StatusOK)); [done|].
      unfold world_after; simpl. apply WriteFile_frame.
    + by destruct (negb (code =? GoHTTP.StatusOK)).
  - by rewrite (download_fresh rl w n Hn Hage).
Qed.

Lemma download_trace_shape rl w :
  ∃ rest, trace (download rl w) = EvStat (fileLocal rl) :: rest
          ∧ (rest = []
             ∨ rest = [EvGet (fileRemote rl)]
             ∨ ∃ payload perm,
                 rest = [EvGet (fileRemote rl); EvWriteFile (fileLocal rl) payload perm]).
Proof.
  destruct (stale_dec rl w) as [Hs | (n & Hn & Hage)].
  - rewrite (download_stale rl w Hs).
    destruct (remote w (fileRemote rl)) as [c | code [data | c]].
    + eexists. split; [reflexivity|]. right; by left.
    + destruct (negb (code =? GoHTTP.StatusOK)).
      * eexists. split; [reflexivity|]. right; by left.
      * eexists. split; [reflexivity|]. right; right. by eexists _, _.
    + destruct (negb (code =? GoHTTP.StatusOK));
        (eexists; split; [reflexivity|]; right; by left).
  - rewrite (download_fresh rl w n Hn Hage). eexists. split; [reflexivity|]. by left.
Qed.

(** After a refresh that returned [nil] something is at the local path. *)
Lemma download_ok_node rl w :
  result (download rl w) = None →
  ∃ n, fs (world_after (download rl w)) !! fileLocal rl = Some n.
Proof.
  intros Hok. destruct (stale_dec rl w) as [Hs | (n & Hn & Hage)].
  - revert Hok. rewrite (download_stale rl w Hs).
    destruct (remote w (fileRemote rl)) as [c | code [data | c]]; [discriminate | |].
    + destruct (negb (code =? GoHTTP.StatusOK)); [discriminate|].
      unfold result, world_after; simpl.
      destruct ((Sys.WriteFile _ _ _ w).1.1) as [c|] eqn:Hw; [discriminate|]. intros _.
      destruct (WriteFile_success _ _ _ _ Hw) as (n & Hn & _). eauto.
    + destruct (negb (code =? GoHTTP.StatusOK)); discriminate.
  - rewrite (download_fresh rl w n Hn Hage). unfold world_after; simpl. eauto.
Qed.

End refresh_outcomes.

(** X4.  When [download] returns [nil], something is at the local path
    afterwards: the file that was fresh, or the one just written.  So
    [init] never meets an absent path after a refresh that succeeded; it
    returns [nil] exactly when what is there can be read. *)
Theorem download_success_local_path_present (rl : RemoteList) (w : World) :
  result (download rl w) = None →
  ∃ n, fs (world_after (download rl w)) !! fileLocal rl = Some n
       ∧ ((∃ data, GoOS.node_read n = inl data) ↔
          (result (init rl (world_after (download rl w)))).2 = None).
Proof.
  intros Hok. destruct (download_ok_node rl w Hok) as [n Hn].
  exists n. split; [exact Hn|].
  set (w1 := world_after (download rl w)) in *.
  destruct (init_cases rl w1) as [(data & Hr & Hi) | (cause & Hr & Hi)]; rewrite Hi.
  - split; [done|]. intros _. exists data.
    apply ReadFile_node in Hr as (n' & Hn' & Hread). congruence.
  - split; [|discriminate]. intros (data & Hread).
    assert (Hr' : result (Sys.ReadFile (fileLocal rl) w1) = inl data)
      by (apply ReadFile_node; eauto).
    congruence.
Qed.

Lemma download_success_local_path_present_witness :
  ∃ n, fs (world_after (download Examples.rl_simple Examples.w_absent))
         !! fileLocal Examples.rl_simple = Some n
       ∧ ((∃ data, GoOS.node_read n = inl data) ↔
          (result (init Examples.rl_simple
                     (world_after (download Examples.rl_simple Examples.w_absent)))).2
          = None).
Proof.
  apply (download_success_local_path_present Examples.rl_simple Examples.w_absent).
  vm_compute. reflexivity.
Defined.

(** X2.  A refresh after one that succeeded.  When [download] has returned
    [nil], a later [download], run while the file system is as the first
    one left it and the local file is younger than the maximum age on the
    clock of that later moment, asks the server nothing, writes nothing and
    returns [nil]. *)
Theorem download_again_while_fresh (rl : RemoteList) (w w2 : World) :
  result (download rl w) = None →
  fs w2 = fs (world_after (download rl w)) →
  (∀ n, fs w2 !! fileLocal rl = Some n →
        GoTime.Since (clock w2) (GoOS.node_mtime n) < maxAge rl) →
  download rl w2 = (None, w2, [EvStat (fileLocal rl)]).
Proof.
  intros Hok Hfs Hage. destruct (download_ok_node rl w Hok) as [n Hn].
  rewrite <- Hfs in Hn. exact (download_fresh rl w2 n Hn (Hage n Hn)).
Qed.

Lemma download_again_while_fresh_witness :
  download Examples.rl_simple MoreExamples.w_later
  = (None, MoreExamples.w_later, [EvStat (fileLocal Examples.rl_simple)]).
Proof.
  apply (download_again_while_fresh Examples.rl_simple Examples.w_stale
           MoreExamples.w_later).
  - vm_compute. reflexivity.
  - reflexivity.
  - intros n Hn. vm_compute in Hn. injection Hn as <-. vm_compute. reflexivity.
Defined.

(** X5.  [download] touches nothing but the local path: every other path,
    the clock, the umask and the server are as before.  It begins with one
    [Stat] of the local path, asks the server at most once, writes at most
    once and only after asking, and never reads the local file. *)
Theorem download_touches_local_path_only (rl : RemoteList) (w : World) :
  (∀ other, other ≠ fileLocal rl →
     fs (world_after (download rl w)) !! other = fs w !! other)
  ∧ clock (world_after (download rl w)) = clock w
  ∧ umask (world_after (download rl w)) = umask w
  ∧ remote (world_after (download rl w)) = remote w
  ∧ (∀ name, EvReadFile name ∉ trace (download rl w))
  ∧ (∃ rest, trace (download rl w) = EvStat (fileLocal rl) :: rest
             ∧ (rest = []
                ∨ rest = [EvGet (fileRemote rl)]
                ∨ ∃ payload perm,
                    rest = [EvGet (fileRemote rl);
                            EvWriteFile (fileLocal rl) payload perm])).
Proof.
  destruct (download_frame rl w) as (Hc & Hu & Hr & Hfs).
  split_and!; [exact Hfs | exact Hc | exact Hu | exact Hr | | apply download_trace_shape].
  intros name Hin.
  destruct (download_trace_shape rl w) as (rest & Ht & [-> | [-> | (pl & pm & ->)]]);
    rewrite Ht in Hin; repeat (apply elem_of_cons in Hin as [Hin | Hin]; [discriminate Hin|]);
    by apply elem_of_nil in Hin.
Qed.

Lemma download_touches_local_path_only_witness :
  fs (world_after (download Examples.rl_simple Examples.w_stale)) !! "other.txt"
  = fs Examples.w_stale !! "other.txt".
Proof.
  apply (proj1 (download_touches_local_path_only Examples.rl_simple Examples.w_stale)).
  discriminate.
Defined.

(* ===================================================================== *)
(** * More on construction *)
(* ===================================================================== *)

Section construction_more.

(** [init] changes the record set only. *)
Lemma initLine_set_records rl line : ∃ R, initLine rl line = set_records rl R.
Proof.
  unfold initLine. destruct (fnDataLine rl) as [f|].
  - destruct (f line) as [str []]; [by eexists | exists (records rl); by destruct rl].
  - exists (records rl). by destruct rl.
Qed.

Lemma initLoop_set_records lines : ∀ rl, ∃ R, foldl initLine rl lines = set_records rl R.
Proof.
  induction lines as [|l lines IH]; intros rl; simpl.
  - exists (records rl). by destruct rl.
  - destruct (initLine_set_records rl l) as [R ->].
    destruct (IH (set_records rl R)) as [R' ->]. by exists R'.
Qed.

(** [New], run in full: the refresh step, then the load step on the world
    the refresh step leaves. *)
Lemma New_run path url age h hp hs s df dl w :
  let rl0 := New_struct path url age h hp hs s df dl in
  New path url age h hp hs s df dl w
  = match result (download rl0 w) with
    | Some e => ((None, Some e), world_after (download rl0 w), trace (download rl0 w))
    | None =>
        let i := init rl0 (world_after (download rl0 w)) in
        ((Some (result i).1, (result i).2), world_after i,
         trace (download rl0 w) ++ trace i)
    end.
Proof.
  unfold New, result, world_after, trace, mbind, M_bind, mret, M_ret. simpl.
  destruct (download _ w) as [[[e|] w1] t1]; simpl.
  - by rewrite app_nil_r.
  - destruct (init _ w1) as [[[rl' e] w2] t2]. simpl. by rewrite app_nil_r.
Qed.

(** [New] on a local file that is fresh and can be read. *)
Lemma New_fresh_read path url age h hp hs s df dl w n data :
  fs w !! path = Some n →
  GoTime.Since (clock w) (GoOS.node_mtime n) < age →
  GoOS.node_read n = inl data →
  New path url age h hp hs s df dl w
  = ((Some (foldl initLine (New_struct path url age h hp hs s df dl)
              (GoStrings.Split data LF)), None), w, [EvStat path; EvReadFile path]).
Proof.
  intros Hn Hage Hread. set (rl0 := New_struct path url age h hp hs s df dl).
  assert (Hd : download rl0 w = (None, w, [EvStat path])).
  { by apply (download_fresh rl0 w n). }
  rewrite New_run. fold rl0. rewrite Hd.
  change (result (None, w, [EvStat path])) with (@None error).
  change (world_after (@None error, w, [EvStat path])) with w. lazy beta iota zeta.
  assert (Hrd : result (Sys.ReadFile (fileLocal rl0) w) = inl data)
    by (apply ReadFile_node; eauto).
  by rewrite (init_read rl0 w data Hrd).
Qed.

End construction_more.

(** X6.  The four shapes of what [New] returns.  A [nil] pointer comes with
    the error of the refresh step, a fetch or a write error.  A pointer with
    an error comes from the load step: the refresh step had succeeded, the
    error is a load error, and the instance is the struct as built, with no
    record.  A pointer without error means the refresh step succeeded.
    [New] never returns [nil] without an error. *)
Theorem New_outcomes path url age h hp hs s df dl (w : World) :
  match result (New path url age h hp hs s df dl w) with
  | (None, Some e) =>
      result (download (New_struct path url age h hp hs s df dl) w) = Some e
      ∧ (is_fetch_error e ∨ is_persist_error e)
  | (Some rl, Some e) =>
      result (download (New_struct path url age h hp hs s df dl) w) = None
      ∧ is_load_error e
      ∧ rl = New_struct path url age h hp hs s df dl
  | (Some rl, None) =>
      result (download (New_struct path url age h hp hs s df dl) w) = None
  | (None, None) => False
  end.
Proof.
  rewrite New_run. set (rl0 := New_struct path url age h hp hs s df dl).
  destruct (result (download rl0 w)) as [e|] eqn:Hd; simpl.
  - split; [done | by apply (download_error_kind rl0 w)].
  - set (w1 := world_after (download rl0 w)).
    destruct (init_cases rl0 w1) as [(data & _ & Hi) | (cause & _ & Hi)]; rewrite Hi.
    + unfold result; simpl. done.
    + unfold result; simpl. split_and!; [done | by eexists | done].
Qed.

(** X7.  [New] on a local path that is absent or stale, with a server that
    answers 200 with a body, when it returns an instance without error: the
    records are exactly the trimmed outputs of the lines of the filtered
    body that the line processor accepts; the calls made are [Stat], [Get],
    [WriteFile], [ReadFile], in this order. *)
Theorem New_fetches_then_loads path url age h hp hs s df dl (w : World) (data : string)
    (rl : RemoteList) :
  let rl0 := New_struct path url age h hp hs s df dl in
  stale rl0 w →
  remote w url = GoHTTP.Response 200 (inl data) →
  result (New path url age h hp hs s df dl w) = (Some rl, None) →
  (∀ r, r ∈ records rl ↔
        from_accepted_line (default DefaultDataLineProcessFunc dl)
          (GoStrings.Split (payload_of rl0 data) LF) r)
  ∧ trace (New path url age h hp hs s df dl w)
    = [EvStat path; EvGet url;
       EvWriteFile path (payload_of rl0 data) (expected_perm rl0 w);
       EvReadFile path].
Proof.
  intros rl0 Hs Hr. rewrite New_run. fold rl0.
  destruct (result (download rl0 w)) as [e|] eqn:Hok; [discriminate|].
  destruct (download_fetched_node rl0 w data Hs Hr Hok) as (n & Hn & Hd & _ & Ht).
  lazy beta iota zeta. rewrite Ht.
  set (w1 := world_after (download rl0 w)) in *.
  destruct (init_cases rl0 w1) as [(d & Hrd & Hi) | (cause & _ & Hi)]; rewrite Hi;
    [|discriminate].
  apply ReadFile_node in Hrd as (n' & Hn' & Hread).
  assert (d = payload_of rl0 data) as ->.
  { apply node_read_data in Hread. simpl in Hn, Hn'. congruence. }
  unfold result; simpl. intros [= <-]. split; [|reflexivity].
  intros r. rewrite (records_initLoop _ _ rl0 r eq_refl).
  split; [intros [Hr0 | Hl]; [by apply not_elem_of_empty in Hr0 | done] | by right].
Qed.

Lemma New_fetches_then_loads_witness :
  (∀ r, r ∈ records
          (foldl initLine MoreExamples.rl_lowering
             (GoStrings.Split (GoStrings.ToLower ("10.0.0.1" +:+ LF +:+ "10.0.0.2")) LF)) ↔
        from_accepted_line (default DefaultDataLineProcessFunc None)
          (GoStrings.Split
             (payload_of MoreExamples.rl_lowering ("10.0.0.1" +:+ LF +:+ "10.0.0.2"))
             LF) r)
  ∧ trace (New "list.txt" "http://example.com/list.txt" Examples.hour
             None None None None (Some GoStrings.ToLower) None Examples.w_absent)
    = [EvStat "list.txt"; EvGet "http://example.com/list.txt";
       EvWriteFile "list.txt"
         (payload_of MoreExamples.rl_lowering ("10.0.0.1" +:+ LF +:+ "10.0.0.2"))
         (expected_perm MoreExamples.rl_lowering Examples.w_absent);
       EvReadFile "list.txt"].
Proof.
  apply (New_fetches_then_loads "list.txt" "http://example.com/list.txt" Examples.hour
           None None None None (Some GoStrings.ToLower) None Examples.w_absent
           ("10.0.0.1" +:+ LF +:+ "10.0.0.2")).
  - left. vm_compute. reflexivity.
  - reflexivity.
  - rewrite New_run. reflexivity.
Defined.

(** X8.  [New] on a local file younger than the maximum age that can be
    read: the server is not asked and nothing is written; the world is
    unchanged; the instance is returned without error, and its records are
    exactly the trimmed outputs of the accepted lines of that file. *)
Theorem New_fresh_file_loads_without_fetch path url age h hp hs s df dl (w : World)
    (n : GoOS.Node) (data : string) :
  fs w !! path = Some n →
  GoTime.Since (clock w) (GoOS.node_mtime n) < age →
  GoOS.node_read n = inl data →
  ∃ rl, New path url age h hp hs s df dl w
        = ((Some rl, None), w, [EvStat path; EvReadFile path])
        ∧ ∀ r, r ∈ records rl ↔
               from_accepted_line (default DefaultDataLineProcessFunc dl)
                 (GoStrings.Split data LF) r.
Proof.
  intros Hn Hage Hread. set (rl0 := New_struct path url age h hp hs s df dl).
  rewrite (New_fresh_read path url age h hp hs s df dl w n data Hn Hage Hread). fold rl0.
  exists (foldl initLine rl0 (GoStrings.Split data LF)).
  split; [reflexivity|].
  intros r. rewrite (records_initLoop _ _ rl0 r eq_refl).
  split; [intros [Hr0 | Hl]; [by apply not_elem_of_empty in Hr0 | done] | by right].
Qed.

Lemma New_fresh_file_loads_without_fetch_witness :
  ∃ rl, New "list.txt" "http://example.com/list.txt" Examples.hour
          None None None None None None Examples.w_fresh
        = ((Some rl, None), Examples.w_fresh, [EvStat "list.txt"; EvReadFile "list.txt"])
        ∧ ∀ r, r ∈ records rl ↔
               from_accepted_line (default DefaultDataLineProcessFunc None)
                 (GoStrings.Split Examples.five_lines LF) r.
Proof.
  apply (New_fresh_file_loads_without_fetch "list.txt" "http://example.com/list.txt"
           Examples.hour None None None None None None Examples.w_fresh
           (GoOS.RegularFile Examples.five_lines 384 0) Examples.five_lines).
  - vm_compute. reflexivity.
  - vm_compute. reflexivity.
  - reflexivity.
Defined.

(** A fresh file that the system refuses to open for reading: [New]
    returns the instance as built together with a load error. *)
Lemma New_fresh_unreadable path url age h hp hs s df dl w d p t cause we :
  fs w !! path = Some (GoOS.GuardedFile d p t (Some cause) we) →
  GoTime.Since (clock w) t < age →
  result (New path url age h hp hs s df dl w)
  = (Some (New_struct path url age h hp hs s df dl),
     Some ("error reading local file: " +:+ "open " +:+ path +:+ ": " +:+ cause)).
Proof.
  intros Hn Hage. set (rl0 := New_struct path url age h hp hs s df dl).
  assert (Hd : download rl0 w = (None, w, [EvStat path])).
  { by apply (download_fresh rl0 w (GoOS.GuardedFile d p t (Some cause) we)). }
  rewrite New_run. fold rl0. rewrite Hd.
  change (result (None, w, [EvStat path])) with (@None error).
  change (world_after (@None error, w, [EvStat path])) with w. lazy beta iota zeta.
  destruct (init_cases rl0 w) as [(data & Hrd & Hi) | (c & Hrd & Hi)]; rewrite Hi;
    revert Hrd; unfold result, Sys.ReadFile; simpl; rewrite Hn; simpl; [discriminate|].
  by intros [= <-].
Qed.

Lemma New_fresh_unreadable_example :
  result (NewSimple "list.txt" "http://example.com/list.txt" Examples.hour
            MoreExamples.w_unreadable)
  = (Some Examples.rl_simple,
     Some "error reading local file: open list.txt: permission denied").
Proof.
  unfold NewSimple.
  apply (New_fresh_unreadable "list.txt" "http://example.com/list.txt" Examples.hour
           None None None None None None MoreExamples.w_unreadable
           Examples.five_lines 0 0 "permission denied" None).
  - vm_compute. reflexivity.
  - vm_compute. reflexivity.
Qed.

(** X9.  The instance that [New] returns, with or without an error, carries
    the configuration it was given: each strategy passed as [nil] is
    replaced by its default and each strategy supplied is kept, the payload
    filter is kept as given, and so are the maximum age and the two
    locations.  Loading changes none of them. *)
Theorem New_keeps_configuration path url age h hp hs s df dl (w : World) rl e :
  result (New path url age h hp hs s df dl w) = (Some rl, e) →
  fnHas rl = default DefaultHasFunc h
  ∧ fnHasPrefix rl = default DefaultHasPrefixFunc hp
  ∧ fnHasSuffix rl = default DefaultHasSuffixFunc hs
  ∧ fnSearch rl = default DefaultSearchFunc s
  ∧ fnDataFiler rl = df
  ∧ fnDataLine rl = Some (default DefaultDataLineProcessFunc dl)
  ∧ maxAge rl = age ∧ fileLocal rl = path ∧ fileRemote rl = url.
Proof.
  rewrite New_run. set (rl0 := New_struct path url age h hp hs s df dl).
  destruct (result (download rl0 w)) as [e'|]; [discriminate|]. lazy beta iota zeta.
  set (w1 := world_after (download rl0 w)).
  assert (Hrl : ∃ R, (result (init rl0 w1)).1 = set_records rl0 R).
  { destruct (init_cases rl0 w1) as [(data & _ & Hi) | (cause & _ & Hi)]; rewrite Hi.
    - unfold result; simpl. apply initLoop_set_records.
    - exists ∅. reflexivity. }
  destruct Hrl as [R HR]. intros [= <- _]. rewrite HR. done.
Qed.

Lemma New_keeps_configuration_witness :
  fnHas Examples.rl_simple = default DefaultHasFunc None
  ∧ fnHasPrefix Examples.rl_simple = default DefaultHasPrefixFunc None
  ∧ fnHasSuffix Examples.rl_simple = default DefaultHasSuffixFunc None
  ∧ fnSearch Examples.rl_simple = default DefaultSearchFunc None
  ∧ fnDataFiler Examples.rl_simple = None
  ∧ fnDataLine Examples.rl_simple = Some (default DefaultDataLineProcessFunc None)
  ∧ maxAge Examples.rl_simple = Examples.hour
  ∧ fileLocal Examples.rl_simple = "list.txt"
  ∧ fileRemote Examples.rl_simple = "http://example.com/list.txt".
Proof.
  apply (New_keeps_configuration "list.txt" "http://example.com/list.txt" Examples.hour
           None None None None None None Examples.w_directory Examples.rl_simple
           (Some "error reading local file: read list.txt: is a directory")).
  rewrite New_run. reflexivity.
Defined.

(* ===================================================================== *)
(** * More on the strings *)
(* ===================================================================== *)

Section strings_more.

Lemma rev_app_spec s acc : String.rev_app s acc = String.rev s +:+ acc.
Proof.
  unfold String.rev. revert acc. induction s as [|a s IH]; intros acc; simpl; [done|].
  rewrite (IH (String a acc)), (IH (String a "")). by rewrite string_app_assoc.
Qed.

Lemma rev_cons a s : String.rev (String a s) = String.rev s +:+ String a "".
Proof. unfold String.rev at 1. simpl. apply rev_app_spec. Qed.

Lemma rev_app_distr s t : String.rev (s +:+ t) = String.rev t +:+ String.rev s.
Proof.
  induction s as [|a s IH].
  - by rewrite string_app_nil_r.
  - by rewrite string_app_cons, !rev_cons, IH, string_app_assoc.
Qed.

Lemma rev_involutive s : String.rev (String.rev s) = s.
Proof.
  induction s as [|a s IH]; [done|]. by rewrite rev_cons, rev_app_distr, IH.
Qed.

(** [HasSuffix]: the string ends with the suffix. *)
Lemma HasSuffix_spec s suffix :
  GoStrings.HasSuffix s suffix = true ↔ ∃ pre, s = pre +:+ suffix.
Proof.
  unfold GoStrings.HasSuffix. rewrite HasPrefix_spec. split.
  - intros (rest & Hr). exists (String.rev rest).
    by rewrite <- (rev_involutive s), Hr, rev_app_distr, rev_involutive.
  - intros (pre & ->). exists (String.rev pre). apply rev_app_distr.
Qed.

Lemma Contains_empty s : GoStrings.Contains s "" = true.
Proof. apply Contains_spec. by exists "", s. Qed.

End strings_more.

(* ===================================================================== *)
(** * More on the record store *)
(* ===================================================================== *)

Section store_more.

Lemma records_trimmed_Add rl x : records_trimmed rl → records_trimmed (Add rl x).
Proof.
  intros Hrl r. rewrite records_Add, elem_of_union, elem_of_singleton.
  intros [-> | Hr]; [apply TrimSpace_idem | by apply Hrl].
Qed.

Lemma records_trimmed_initLine rl line :
  records_trimmed rl → records_trimmed (initLine rl line).
Proof.
  intros Hrl. unfold initLine. destruct (fnDataLine rl) as [f|]; [|done].
  destruct (f line) as [str []]; [by apply records_trimmed_Add | done].
Qed.

Lemma records_trimmed_initLoop lines : ∀ rl,
  records_trimmed rl → records_trimmed (foldl initLine rl lines).
Proof.
  induction lines as [|l lines IH]; intros rl Hrl; simpl; [done|].
  by apply IH, records_trimmed_initLine.
Qed.

Lemma List_Permutation rl : List rl ≡ₚ elements (records rl).
Proof. unfold List, List_over. by rewrite Strings_Permutation, appendLoop_app. Qed.

Lemma NoDup_List rl : NoDup (List rl).
Proof. rewrite List_Permutation. apply NoDup_elements. Qed.

Lemma length_List rl : length (List rl) = size (records rl).
Proof. by rewrite List_Permutation. Qed.

End store_more.

(** X10.  Records are stored trimmed.  [Add] keeps that property, every
    instance that [New] returns has it, and a record that has it neither
    begins nor ends with a white space byte. *)
Theorem records_are_trimmed :
  (∀ rl x, records_trimmed rl → records_trimmed (Add rl x))
  ∧ (∀ path url age h hp hs s df dl w rl e,
       result (New path url age h hp hs s df dl w) = (Some rl, e) →
       records_trimmed rl)
  ∧ (∀ rl r, records_trimmed rl → r ∈ records rl →
       (∀ c rest, r = String c rest → GoStrings.asciiSpace c = false)
       ∧ (∀ pre c, r = pre +:+ String c "" → GoStrings.asciiSpace c = false)).
Proof.
  split_and!.
  - exact records_trimmed_Add.
  - intros path url age h hp hs s df dl w rl e. rewrite New_run.
    set (rl0 := New_struct path url age h hp hs s df dl).
    assert (H0 : records_trimmed rl0) by (intros r Hr; by apply not_elem_of_empty in Hr).
    destruct (result (download rl0 w)) as [e'|]; [discriminate|]. lazy beta iota zeta.
    set (w1 := world_after (download rl0 w)).
    destruct (init_cases rl0 w1) as [(data & _ & Hi) | (cause & _ & Hi)]; rewrite Hi.
    + intros [= <- _]. by apply records_trimmed_initLoop.
    + by intros [= <- _].
  - intros rl r Hrl Hr. specialize (Hrl r Hr). split.
    + intros c rest Heq. apply (TrimSpace_first r c rest). by rewrite Hrl.
    + intros pre c Heq. apply (TrimSpace_last r pre c). by rewrite Hrl.
Qed.

Lemma records_are_trimmed_witness :
  records_trimmed (Add Examples.rl_simple "  a b  ")
  ∧ (∀ c rest, "a b" = String c rest → GoStrings.asciiSpace c = false)
  ∧ (∀ pre c, "a b" = pre +:+ String c "" → GoStrings.asciiSpace c = false).
Proof.
  assert (H1 : records_trimmed (Add Examples.rl_simple "  a b  ")).
  { apply (proj1 records_are_trimmed). intros r Hr. by apply not_elem_of_empty in Hr. }
  split; [exact H1|].
  apply (proj2 (proj2 records_are_trimmed) (Add Examples.rl_simple "  a b  ") "a b" H1).
  rewrite records_Add. apply elem_of_union; left.
  apply elem_of_singleton. reflexivity.
Defined.

(** X11.  What is added is found.  With the default matchers, after
    [Add(x)] the trimmed [x] is among the results of [Search] for it and is
    listed, and [Has] finds it when [x] is an ASCII string; and whatever
    [Has] or [Search] found before [Add] they find after. *)
Theorem Add_then_found (rl : RemoteList) (x : string) :
  fnHas rl = DefaultHasFunc →
  fnSearch rl = DefaultSearchFunc →
  (GoStrings.is_ascii x = true → Has (Add rl x) (GoStrings.TrimSpace x) = true)
  ∧ GoStrings.TrimSpace x ∈ Search (Add rl x) (GoStrings.TrimSpace x)
  ∧ GoStrings.TrimSpace x ∈ List (Add rl x)
  ∧ (∀ term, Has rl term = true → Has (Add rl x) term = true)
  ∧ (∀ term r, r ∈ Search rl term → r ∈ Search (Add rl x) term).
Proof.
  intros Hh Hs. unfold Has, Search. simpl fnHas. simpl fnSearch. rewrite Hh, Hs.
  assert (Hin : GoStrings.TrimSpace x ∈ records (Add rl x)).
  { rewrite records_Add. apply elem_of_union; left. by apply elem_of_singleton. }
  split_and!.
  - intros _. apply DefaultHasFunc_true. exists (GoStrings.TrimSpace x).
    split; [exact Hin|]. apply EqualFold_ToLower. by rewrite ToLower_idem.
  - apply elem_of_DefaultSearchFunc. split; [exact Hin|].
    apply Contains_spec. exists "", "". by rewrite string_app_nil_r.
  - by apply elem_of_List.
  - intros term. rewrite !DefaultHasFunc_true. intros (rec & Hr & Hf).
    exists rec. split; [|done]. rewrite ?records_Add. apply elem_of_union; by right.
  - intros term r. rewrite !elem_of_DefaultSearchFunc. intros [Hr Hc].
    split; [|done]. rewrite ?records_Add. apply elem_of_union; by right.
Qed.

Lemma Add_then_found_witness :
  Has (Add Examples.rl_simple " Example.com ") (GoStrings.TrimSpace " Example.com ") = true
  ∧ GoStrings.TrimSpace " Example.com "
    ∈ Search (Add Examples.rl_simple " Example.com ") (GoStrings.TrimSpace " Example.com ")
  ∧ GoStrings.TrimSpace " Example.com " ∈ List (Add Examples.rl_simple " Example.com ").
Proof.
  destruct (Add_then_found Examples.rl_simple " Example.com " eq_refl eq_refl)
    as (H1 & H2 & H3 & _).
  split; [apply H1; reflexivity|]. split; [exact H2 | exact H3].
Defined.

(** X12.  [Add] only grows the record set and the order of two calls does
    not matter: the two orders give the same instance.  [List] gets longer
    by one when the trimmed value is new and keeps its length when it is
    already a record. *)
Theorem Add_commutes_and_grows (rl : RemoteList) (a b : string) :
  Add (Add rl a) b = Add (Add rl b) a
  ∧ records rl ⊆ records (Add rl a)
  ∧ length (List (Add rl a))
    = if decide (GoStrings.TrimSpace a ∈ records rl)
      then length (List rl) else S (length (List rl)).
Proof.
  split_and!.
  - unfold Add, set_records; simpl. f_equal. apply set_eq. intros r.
    rewrite !elem_of_union. tauto.
  - rewrite records_Add. apply union_subseteq_r.
  - rewrite !length_List, records_Add. destruct (decide _) as [Hin | Hnot].
    + f_equal. apply set_eq. intros r. rewrite elem_of_union, elem_of_singleton.
      split; [intros [-> | Hr]; done | by right].
    + rewrite size_union by (by apply disjoint_singleton_l).
      by rewrite size_singleton.
Qed.

(** X13.  [List] is the records, each once, in ascending order, and it is
    the only such list: it has as many entries as the set has records, and
    any ascending list without repetition that holds exactly the records is
    [List]. *)
Theorem List_is_the_sorted_record_set (rl : RemoteList) :
  NoDup (List rl)
  ∧ length (List rl) = size (records rl)
  ∧ (∀ r, r ∈ List rl ↔ r ∈ records rl)
  ∧ (∀ l, ascending l → NoDup l → (∀ r, r ∈ l ↔ r ∈ records rl) → l = List rl).
Proof.
  split_and!.
  - apply NoDup_List.
  - apply length_List.
  - intros r. apply elem_of_List.
  - intros l Hasc Hnd Hl. apply (Sorted_unique String.le); [exact Hasc | |].
    + apply Strings_ascending.
    + apply NoDup_Permutation; [exact Hnd | apply NoDup_List |].
      intros r. by rewrite Hl, elem_of_List.
Qed.

(** X14.  With the default search strategy, every result of [Search] is a
    record, no result is repeated, and the empty term matches every record:
    [Search("")] is [List()]. *)
Theorem Search_within_List (rl : RemoteList) :
  fnSearch rl = DefaultSearchFunc →
  (∀ term r, r ∈ Search rl term → r ∈ List rl)
  ∧ (∀ term, NoDup (Search rl term))
  ∧ Search rl "" = List rl
  ∧ (records rl = ∅ → ∀ term, Search rl term = []).
Proof.
  intros Hs. unfold Search. rewrite Hs. split_and!.
  - intros term r [Hr _]%elem_of_DefaultSearchFunc. by apply elem_of_List.
  - intros term. apply NoDup_DefaultSearchFunc.
  - apply (Sorted_unique String.le); [apply Strings_ascending | apply Strings_ascending |].
    apply NoDup_Permutation; [apply NoDup_DefaultSearchFunc | apply NoDup_List |].
    intros r. rewrite elem_of_DefaultSearchFunc, elem_of_List.
    split; [by intros [? _] | intros Hr; split; [done | apply Contains_empty]].
  - intros Hempty term. apply elem_of_nil_inv. intros r Hr.
    apply elem_of_DefaultSearchFunc in Hr as [Hr _]. rewrite Hempty in Hr.
    by apply not_elem_of_empty in Hr.
Qed.

Lemma Search_within_List_witness :
  Search (Add (Add Examples.rl_simple "b") "a") ""
  = List (Add (Add Examples.rl_simple "b") "a").
Proof.
  apply (Search_within_List (Add (Add Examples.rl_simple "b") "a")). reflexivity.
Defined.

Section matchers_more.

Lemma hasLoop_Permutation test (keys1 keys2 : list string) :
  keys1 ≡ₚ keys2 → hasLoop test keys1 = hasLoop test keys2.
Proof.
  intros Hp. apply eq_true_iff_eq. rewrite !hasLoop_true. by setoid_rewrite Hp.
Qed.

Lemma DefaultHasPrefixFunc_true (recs : gset string) term :
  DefaultHasPrefixFunc recs term = true ↔
  ∃ rec, rec ∈ recs ∧ ∃ rest, GoStrings.ToLower rec = GoStrings.ToLower term +:+ rest.
Proof.
  unfold DefaultHasPrefixFunc. rewrite hasLoop_true.
  setoid_rewrite elem_of_elements. by setoid_rewrite HasPrefix_spec.
Qed.

Lemma DefaultHasSuffixFunc_true (recs : gset string) term :
  DefaultHasSuffixFunc recs term = true ↔
  ∃ rec, rec ∈ recs ∧ ∃ pre, GoStrings.ToLower rec = pre +:+ GoStrings.ToLower term.
Proof.
  unfold DefaultHasSuffixFunc. rewrite hasLoop_true.
  setoid_rewrite elem_of_elements. by setoid_rewrite HasSuffix_spec.
Qed.

Lemma DefaultSearchFunc_nonempty (recs : gset string) term :
  DefaultSearchFunc recs term ≠ [] ↔
  ∃ rec, rec ∈ recs ∧
         ∃ pre post, GoStrings.ToLower rec = pre +:+ GoStrings.ToLower term +:+ post.
Proof.
  split.
  - intros Hne. destruct (DefaultSearchFunc recs term) as [|r l] eqn:Hs; [done|].
    exists r. rewrite <- Contains_spec. apply elem_of_DefaultSearchFunc.
    rewrite Hs. by left.
  - intros (rec & Hr & Hc) Hnil.
    assert (Hin : rec ∈ DefaultSearchFunc recs term).
    { apply elem_of_DefaultSearchFunc. split; [done | by apply Contains_spec]. }
    rewrite Hnil in Hin. by apply elem_of_nil in Hin.
Qed.

End matchers_more.

(** X15.  The default prefix and suffix matchers.  [DefaultHasPrefixFunc]
    holds exactly when the lower-case form of some record begins with the
    lower-case form of the term, [DefaultHasSuffixFunc] exactly when it ends
    with it.  On an empty record set both are false; with the empty term
    both hold as soon as there is a record. *)
Theorem default_prefix_suffix_matchers (recs : gset string) (term : string) :
  (DefaultHasPrefixFunc recs term = true ↔
     ∃ rec, rec ∈ recs ∧ ∃ rest, GoStrings.ToLower rec = GoStrings.ToLower term +:+ rest)
  ∧ (DefaultHasSuffixFunc recs term = true ↔
       ∃ rec, rec ∈ recs ∧ ∃ pre, GoStrings.ToLower rec = pre +:+ GoStrings.ToLower term)
  ∧ DefaultHasPrefixFunc ∅ term = false
  ∧ DefaultHasSuffixFunc ∅ term = false
  ∧ (∀ rec, rec ∈ recs →
       DefaultHasPrefixFunc recs "" = true ∧ DefaultHasSuffixFunc recs "" = true).
Proof.
  split_and!.
  - apply DefaultHasPrefixFunc_true.
  - apply DefaultHasSuffixFunc_true.
  - apply not_true_is_false. rewrite DefaultHasPrefixFunc_true.
    intros (rec & Hr & _). by apply not_elem_of_empty in Hr.
  - apply not_true_is_false. rewrite DefaultHasSuffixFunc_true.
    intros (rec & Hr & _). by apply not_elem_of_empty in Hr.
  - intros rec Hr. split.
    + apply DefaultHasPrefixFunc_true. exists rec. split; [done|].
      by exists (GoStrings.ToLower rec).
    + apply DefaultHasSuffixFunc_true. exists rec. split; [done|].
      exists (GoStrings.ToLower rec). by rewrite string_app_nil_r.
Qed.

(** X16.  How the four default matchers relate on one record set and one
    term.  On ASCII records and an ASCII term, what [DefaultHasFunc] finds,
    [DefaultHasPrefixFunc] and [DefaultHasSuffixFunc] find too.  When either
    of these two holds, [DefaultSearchFunc] returns at least one record.  On
    the empty record set [DefaultHasFunc] is false. *)
Theorem default_matchers_ordered (recs : gset string) (term : string) :
  ((∀ r, r ∈ recs → GoStrings.is_ascii r = true) →
   GoStrings.is_ascii term = true →
   DefaultHasFunc recs term = true →
   DefaultHasPrefixFunc recs term = true ∧ DefaultHasSuffixFunc recs term = true)
  ∧ (DefaultHasPrefixFunc recs term = true → DefaultSearchFunc recs term ≠ [])
  ∧ (DefaultHasSuffixFunc recs term = true → DefaultSearchFunc recs term ≠ [])
  ∧ DefaultHasFunc ∅ term = false.
Proof.
  split_and!.
  - intros _ _.
    rewrite DefaultHasFunc_true, DefaultHasPrefixFunc_true, DefaultHasSuffixFunc_true.
    intros (rec & Hr & Hf). apply EqualFold_ToLower in Hf. rewrite ToLower_idem in Hf.
    split; exists rec; (split; [done|]); rewrite Hf.
    + exists "". by rewrite string_app_nil_r.
    + by exists "".
  - rewrite DefaultHasPrefixFunc_true, DefaultSearchFunc_nonempty.
    intros (rec & Hr & rest & Hp). exists rec. split; [done|]. by exists "", rest.
  - rewrite DefaultHasSuffixFunc_true, DefaultSearchFunc_nonempty.
    intros (rec & Hr & pre & Hp). exists rec. split; [done|]. exists pre, "".
    by rewrite string_app_nil_r.
  - apply not_true_is_false. rewrite DefaultHasFunc_true.
    intros (rec & Hr & _). by apply not_elem_of_empty in Hr.
Qed.

Lemma default_matchers_ordered_witness :
  DefaultHasPrefixFunc {[ "Example.com" ]} "EXAMPLE.COM" = true
  ∧ DefaultHasSuffixFunc {[ "Example.com" ]} "EXAMPLE.COM" = true.
Proof.
  apply (proj1 (default_matchers_ordered {[ "Example.com" ]} "EXAMPLE.COM")).
  - intros r Hr. apply elem_of_singleton in Hr. rewrite Hr. reflexivity.
  - reflexivity.
  - vm_compute. reflexivity.
Defined.

(** X17.  The loops of the default matchers return at the first key that
    matches, and Go hands out the keys of a map in no fixed order: the
    answer is the same for every order.  For [DefaultHasFunc] run over the
    keys in any order this is the answer of the model, which visits them in
    one order. *)
Theorem default_Has_independent_of_map_order (recs : gset string) (term : string)
    (test : string → bool) (keys1 keys2 : list string) :
  range_order recs keys1 → range_order recs keys2 →
  hasLoop test keys1 = hasLoop test keys2
  ∧ DefaultHasFunc_over keys1 term = DefaultHasFunc recs term
  ∧ DefaultHasFunc_over keys1 term = DefaultHasFunc_over keys2 term.
Proof.
  unfold range_order. intros H1 H2. split_and!.
  - apply hasLoop_Permutation. by rewrite H1, H2.
  - by apply DefaultHasFunc_over_order.
  - unfold DefaultHasFunc_over. apply hasLoop_Permutation. by rewrite H1, H2.
Qed.

Lemma default_Has_independent_of_map_order_witness :
  hasLoop (λ rec, GoStrings.EqualFold rec "b") ["a"; "b"]
  = hasLoop (λ rec, GoStrings.EqualFold rec "b") ["b"; "a"]
  ∧ DefaultHasFunc_over ["a"; "b"] "B" = DefaultHasFunc {[ "a"; "b" ]} "B"
  ∧ DefaultHasFunc_over ["a"; "b"] "B" = DefaultHasFunc_over ["b"; "a"] "B".
Proof.
  apply (default_Has_independent_of_map_order {[ "a"; "b" ]} "B").
  - unfold range_order. vm_compute. reflexivity.
  - unfold range_order. vm_compute. apply perm_swap.
Defined.

(* ===================================================================== *)
(** * The lines of the local file *)
(* ===================================================================== *)

Section lines.

Lemma len_sliceTo m s : (GoStrings.len (GoStrings.sliceTo m s) ≤ m)%nat.
Proof.
  unfold GoStrings.len. revert s. induction m as [|m IH]; intros [|c s]; simpl; try lia.
  specialize (IH s). lia.
Qed.

Lemma len_sliceFrom k s :
  GoStrings.len (GoStrings.sliceFrom k s) = (GoStrings.len s - k)%nat.
Proof.
  unfold GoStrings.len. revert s. induction k as [|k IH]; intros [|c s]; simpl; try lia.
  apply IH.
Qed.

Lemma Index_prefix s sep : GoStrings.HasPrefix s sep = true → GoStrings.Index s sep = Some 0%nat.
Proof. intros H. destruct s; simpl; by rewrite H. Qed.

Lemma Index_cons c s sep :
  GoStrings.Index (String c s) sep
  = if GoStrings.HasPrefix (String c s) sep then Some 0%nat
    else S <$> GoStrings.Index s sep.
Proof. reflexivity. Qed.

(** At the index found the string splits around the separator. *)
Lemma Index_Some_split sep : ∀ s m,
  GoStrings.Index s sep = Some m →
  s = GoStrings.sliceTo m s +:+ sep +:+ GoStrings.sliceFrom (m + GoStrings.len sep) s.
Proof.
  assert (Hzero : ∀ s, GoStrings.HasPrefix s sep = true →
            s = GoStrings.sliceTo 0 s +:+ sep
                +:+ GoStrings.sliceFrom (0 + GoStrings.len sep) s).
  { intros s (rest & ->)%HasPrefix_spec. rewrite Nat.add_0_l, sliceFrom_app.
    by destruct (sep +:+ rest). }
  induction s as [|c s IH]; intros m.
  - simpl. destruct (GoStrings.HasPrefix "" sep) eqn:Hp; [|discriminate].
    intros [= <-]. by apply Hzero.
  - rewrite Index_cons. destruct (GoStrings.HasPrefix (String c s) sep) eqn:Hp.
    + intros [= <-]. by apply Hzero.
    + destruct (GoStrings.Index s sep) as [m'|]; [|discriminate].
      intros [= <-]. simpl. rewrite string_app_cons. f_equal. by apply IH.
Qed.

(** The index found is the first place where the separator occurs. *)
Lemma Index_min sep post : ∀ pre m,
  GoStrings.Index (pre +:+ sep +:+ post) sep = Some m → (m ≤ GoStrings.len pre)%nat.
Proof.
  induction pre as [|c pre IH]; intros m.
  - rewrite Index_prefix by (apply HasPrefix_spec; by exists post).
    intros [= <-]. simpl. lia.
  - rewrite string_app_cons, Index_cons.
    destruct (GoStrings.HasPrefix _ sep); [intros [= <-]; lia|].
    destruct (GoStrings.Index (pre +:+ sep +:+ post) sep) as [m'|] eqn:Hi; [|discriminate].
    intros [= <-]. specialize (IH m' eq_refl). unfold GoStrings.len in *. simpl. lia.
Qed.

Lemma Contains_nil sep : sep ≠ "" → GoStrings.Contains "" sep = false.
Proof. by destruct sep. Qed.

Lemma Contains_sliceTo sep s m :
  sep ≠ "" → GoStrings.Index s sep = Some m →
  GoStrings.Contains (GoStrings.sliceTo m s) sep = false.
Proof.
  intros Hsep Hi. apply not_true_is_false. intros (pre & post & Hc)%Contains_spec.
  pose proof (Index_Some_split sep s m Hi) as Hs. rewrite Hc in Hs.
  rewrite !string_app_assoc in Hs. rewrite Hs in Hi. apply Index_min in Hi.
  pose proof (len_sliceTo m s) as Hl. rewrite Hc, !len_app in Hl.
  assert (GoStrings.len sep ≠ 0%nat) by (by destruct sep). lia.
Qed.

Lemma genSplit_parts sep : sep ≠ "" → ∀ n s line,
  (GoStrings.len s ≤ n)%nat →
  line ∈ GoStrings.genSplit n s sep → GoStrings.Contains line sep = false.
Proof.
  intros Hsep. induction n as [|n IH]; intros s line Hlen; simpl.
  - intros ->%list_elem_of_singleton. destruct s; [by apply Contains_nil|].
    unfold GoStrings.len in Hlen. simpl in Hlen. lia.
  - destruct (GoStrings.Index s sep) as [m|] eqn:Hi.
    + intros [-> | Hin]%elem_of_cons; [by apply Contains_sliceTo|].
      refine (IH _ _ _ Hin). rewrite len_sliceFrom.
      assert (GoStrings.len sep ≠ 0%nat) by (by destruct sep). lia.
    + intros ->%list_elem_of_singleton. unfold GoStrings.Contains. by rewrite Hi.
Qed.

Lemma genSplit_cons n s sep : ∃ x l, GoStrings.genSplit n s sep = x :: l.
Proof. destruct n; simpl; [eauto|]. destruct (GoStrings.Index s sep); eauto. Qed.

Lemma genSplit_concat sep : ∀ n s, String.concat sep (GoStrings.genSplit n s sep) = s.
Proof.
  induction n as [|n IH]; intros s; simpl; [done|].
  destruct (GoStrings.Index s sep) as [m|] eqn:Hi; [|done].
  specialize (IH (GoStrings.sliceFrom (m + GoStrings.len sep) s)).
  destruct (genSplit_cons n (GoStrings.sliceFrom (m + GoStrings.len sep) s) sep)
    as (x & l & Hx).
  rewrite Hx in IH |- *.
  change (String.concat sep (GoStrings.sliceTo m s :: x :: l))
    with (GoStrings.sliceTo m s +:+ sep +:+ String.concat sep (x :: l)).
  rewrite IH. symmetry. by apply Index_Some_split.
Qed.

Lemma DefaultDataLineProcessFunc_dropped line :
  (DefaultDataLineProcessFunc line).2 = false ↔ dropped_line line.
Proof.
  unfold DefaultDataLineProcessFunc, dropped_line. cbn [snd].
  rewrite negb_false_iff, !orb_true_iff, !HasPrefix_spec, Nat.eqb_eq.
  unfold GoStrings.len. split.
  - intros [[H | H] | H]; [tauto | tauto |]. left. by destruct line.
  - intros [-> | [H | H]]; [by right | tauto | tauto].
Qed.

Lemma initLoop_no_processor lines : ∀ rl,
  fnDataLine rl = None → foldl initLine rl lines = rl.
Proof.
  induction lines as [|l lines IH]; intros rl Hf; simpl; [done|].
  unfold initLine at 2. rewrite Hf. by apply IH.
Qed.

End lines.

(** X18.  The lines that [init] walks over, [strings.Split] of the file on
    the line break (and on any separator that is not empty): there is at
    least one, none of them contains the separator, and joined with the
    separator they give back the content, so no byte of the file is lost or
    added before the line processor sees it. *)
Theorem Split_lines (s sep : string) :
  sep ≠ "" →
  GoStrings.Split s sep ≠ []
  ∧ (∀ line, line ∈ GoStrings.Split s sep → GoStrings.Contains line sep = false)
  ∧ String.concat sep (GoStrings.Split s sep) = s.
Proof.
  intros Hsep.
  assert (Hsplit : GoStrings.Split s sep = GoStrings.genSplit (GoStrings.len s) s sep)
    by (by destruct sep).
  rewrite Hsplit. split_and!.
  - destruct (genSplit_cons (GoStrings.len s) s sep) as (x & l & ->). discriminate.
  - intros line. by apply genSplit_parts.
  - apply genSplit_concat.
Qed.

Lemma Split_lines_witness :
  GoStrings.Split Examples.five_lines LF ≠ []
  ∧ (∀ line, line ∈ GoStrings.Split Examples.five_lines LF →
             GoStrings.Contains line LF = false)
  ∧ String.concat LF (GoStrings.Split Examples.five_lines LF) = Examples.five_lines.
Proof. apply (Split_lines Examples.five_lines LF). discriminate. Defined.

(** X19.  What [init] loads under the default line processor, in closed
    form: the records afterwards are those before and the trimmed forms of
    the lines that are neither empty nor begin with "#" or "//".  A file
    made of such dropped lines only (the empty file is one) adds nothing. *)
Theorem default_load_records (rl : RemoteList) (w : World) (data : string) p t :
  fnDataLine rl = Some DefaultDataLineProcessFunc →
  fs w !! fileLocal rl = Some (GoOS.RegularFile data p t) →
  (result (init rl w)).2 = None
  ∧ (∀ r, r ∈ records (result (init rl w)).1 ↔
          r ∈ records rl ∨
          ∃ line, line ∈ GoStrings.Split data LF ∧ ¬ dropped_line line
                  ∧ r = GoStrings.TrimSpace line)
  ∧ ((∀ line, line ∈ GoStrings.Split data LF → dropped_line line) →
     records (result (init rl w)).1 = records rl).
Proof.
  intros Hf Hn. rewrite (init_regular_file rl w data p t Hn).
  change (result (foldl initLine rl (GoStrings.Split data LF), None, w,
                  [EvReadFile (fileLocal rl)]))
    with (foldl initLine rl (GoStrings.Split data LF), @None error).
  cbn [fst snd].
  assert (Hiff : ∀ r, r ∈ records (foldl initLine rl (GoStrings.Split data LF)) ↔
            r ∈ records rl ∨
            ∃ line, line ∈ GoStrings.Split data LF ∧ ¬ dropped_line line
                    ∧ r = GoStrings.TrimSpace line).
  { intros r. rewrite (records_initLoop _ _ rl r Hf). unfold from_accepted_line.
    split; (intros [Hr | (line & Hl & Hok & ->)]; [by left | right; exists line]).
    - split_and!; [done | | done].
      rewrite <- DefaultDataLineProcessFunc_dropped, Hok. discriminate.
    - split_and!; [done | | done].
      rewrite <- DefaultDataLineProcessFunc_dropped in Hok.
      by destruct ((DefaultDataLineProcessFunc line).2). }
  split_and!; [done | exact Hiff |].
  intros Hall. apply set_eq. intros r. rewrite Hiff.
  split; [intros [Hr | (line & Hl & Hnot & _)]; [done | by destruct Hnot; apply Hall]
         | by left].
Qed.

Lemma default_load_records_witness :
  (result (init Examples.rl_simple MoreExamples.w_comments_only)).2 = None
  ∧ (∀ r, r ∈ records (result (init Examples.rl_simple MoreExamples.w_comments_only)).1 ↔
          r ∈ records Examples.rl_simple ∨
          ∃ line, line ∈ GoStrings.Split ("# a" +:+ LF +:+ "" +:+ LF +:+ "// b" +:+ LF) LF
                  ∧ ¬ dropped_line line ∧ r = GoStrings.TrimSpace line)
  ∧ ((∀ line, line ∈ GoStrings.Split ("# a" +:+ LF +:+ "" +:+ LF +:+ "// b" +:+ LF) LF →
              dropped_line line) →
     records (result (init Examples.rl_simple MoreExamples.w_comments_only)).1
     = records Examples.rl_simple).
Proof.
  apply (default_load_records Examples.rl_simple MoreExamples.w_comments_only
           ("# a" +:+ LF +:+ "" +:+ LF +:+ "// b" +:+ LF) 420 0).
  - reflexivity.
  - vm_compute. reflexivity.
Defined.

(** X20.  [init] calls the line processor only when there is one: on a
    struct without a processor it reads the file, adds no record and
    returns [nil].  ([New] always installs one, see X9.) *)
Theorem init_without_processor_loads_nothing (rl : RemoteList) (w : World)
    (data : string) p t :
  fnDataLine rl = None →
  fs w !! fileLocal rl = Some (GoOS.RegularFile data p t) →
  init rl w = ((rl, None), w, [EvReadFile (fileLocal rl)]).
Proof.
  intros Hf Hn. rewrite (init_regular_file rl w data p t Hn).
  by rewrite initLoop_no_processor.
Qed.

Lemma init_without_processor_loads_nothing_witness :
  init MoreExamples.rl_no_processor Examples.w_fresh
  = ((MoreExamples.rl_no_processor, None), Examples.w_fresh,
     [EvReadFile (fileLocal MoreExamples.rl_no_processor)]).
Proof.
  apply (init_without_processor_loads_nothing MoreExamples.rl_no_processor
           Examples.w_fresh Examples.five_lines 384 0).
  - reflexivity.
  - vm_compute. reflexivity.
Defined.

(* ===================================================================== *)
(** * Edges of the age test, trimming, and construction repeated *)
(* ===================================================================== *)

Section edges.

Lemma Since_nonneg now t : t ≤ now → 0 ≤ GoTime.Since now t.
Proof.
  intros H. unfold GoTime.Since, GoTime.Sub, GoTime.minDuration, GoTime.maxDuration.
  destruct (Z.ltb_spec (now - t) (- 2 ^ 63)); [lia|].
  destruct (Z.ltb_spec (2 ^ 63 - 1) (now - t)); lia.
Qed.

Lemma Since_neg now t : now < t → GoTime.Since now t < 0.
Proof.
  intros H. unfold GoTime.Since, GoTime.Sub, GoTime.minDuration, GoTime.maxDuration.
  destruct (Z.ltb_spec (now - t) (- 2 ^ 63)); [lia|].
  destruct (Z.ltb_spec (2 ^ 63 - 1) (now - t)); lia.
Qed.

End edges.

(** X21.  [Add] removes white space at the two ends of its argument and
    nothing else: the argument is the stored record with white space before
    it and white space after it, runes that [unicode.IsSpace] accepts; and
    the stored record is empty, or begins and ends with a rune that is no
    white space. *)
Theorem Add_strips_only_white_space (rl : RemoteList) (x : string) :
  ∃ pre v post,
    x = pre +:+ v +:+ post
    ∧ GoStrings.white_space_only pre = true ∧ GoStrings.white_space_only post = true
    ∧ records (Add rl x) = {[ v ]} ∪ records rl
    ∧ no_leading_space v ∧ no_trailing_space v.
Proof.
  destruct (TrimSpace_split x) as (pre & post & Hx & Hpre & Hpost).
  destruct (TrimSpace_ok x) as [Hh Hl].
  exists pre, (GoStrings.TrimSpace x), post. by split_and!.
Qed.

(** X22.  Two edges of the age test.  With a maximum age of zero or less, a
    local file that is not dated in the future is always refetched.  A local
    file dated in the future has a negative age: with a maximum age of zero
    or more it counts as fresh, and [download] leaves it alone. *)
Theorem download_age_edges (rl : RemoteList) (w : World) (n : GoOS.Node) :
  fs w !! fileLocal rl = Some n →
  (GoOS.node_mtime n ≤ clock w → maxAge rl ≤ 0 → fetch_attempted rl w)
  ∧ (clock w < GoOS.node_mtime n → 0 ≤ maxAge rl →
     ¬ fetch_attempted rl w ∧ download rl w = (None, w, [EvStat (fileLocal rl)])).
Proof.
  intros Hn. split.
  - intros Ht Hage. apply fetch_attempted_stale. right. exists n. split; [done|].
    pose proof (Since_nonneg (clock w) (GoOS.node_mtime n) Ht). lia.
  - intros Ht Hage.
    pose proof (Since_neg (clock w) (GoOS.node_mtime n) Ht) as Hneg.
    split; [apply (fresh_not_fetched rl w n Hn) | apply (download_fresh rl w n Hn)]; lia.
Qed.

Lemma download_age_edges_witness :
  fetch_attempted MoreExamples.rl_no_cache Examples.w_fresh
  ∧ (¬ fetch_attempted MoreExamples.rl_no_cache MoreExamples.w_future
     ∧ download MoreExamples.rl_no_cache MoreExamples.w_future
       = (None, MoreExamples.w_future, [EvStat (fileLocal MoreExamples.rl_no_cache)])).
Proof.
  split.
  - apply (proj1 (download_age_edges MoreExamples.rl_no_cache Examples.w_fresh
                    (GoOS.RegularFile Examples.five_lines 384 0) eq_refl)).
    + vm_compute. discriminate.
    + reflexivity.
  - apply (proj2 (download_age_edges MoreExamples.rl_no_cache MoreExamples.w_future
                    (GoOS.RegularFile Examples.five_lines 384 (3 * Examples.hour)) eq_refl)).
    + vm_compute. reflexivity.
    + reflexivity.
Defined.

(** X23.  Construction repeated.  When [New] has returned an instance
    without error, a later [New] with the same arguments, run while the file
    system is as the first one left it and the local file is younger than
    the maximum age on the clock of that later moment, asks the server
    nothing, reads the cached file, leaves the world as it is and returns an
    instance equal to the first. *)
Theorem New_again_reads_the_cache path url age h hp hs s df dl (w w2 : World)
    (rl : RemoteList) :
  result (New path url age h hp hs s df dl w) = (Some rl, None) →
  fs w2 = fs (world_after (New path url age h hp hs s df dl w)) →
  (∀ n, fs w2 !! path = Some n → GoTime.Since (clock w2) (GoOS.node_mtime n) < age) →
  New path url age h hp hs s df dl w2
  = ((Some rl, None), w2, [EvStat path; EvReadFile path]).
Proof.
  rewrite New_run. set (rl0 := New_struct path url age h hp hs s df dl).
  destruct (result (download rl0 w)) as [e|]; [discriminate|]. lazy beta iota zeta.
  set (w1 := world_after (download rl0 w)).
  destruct (init_cases rl0 w1) as [(data & Hrd & Hi) | (cause & _ & Hi)]; rewrite Hi;
    [|discriminate].
  unfold result, world_after; simpl. intros [= <-] Hfs Hage.
  apply ReadFile_node in Hrd as (n & Hn & Hread). simpl in Hn. rewrite <- Hfs in Hn.
  exact (New_fresh_read path url age h hp hs s df dl w2 n data Hn (Hage n Hn) Hread).
Qed.

Lemma New_again_reads_the_cache_witness :
  New "list.txt" "http://example.com/list.txt" Examples.hour
    None None None None None None MoreExamples.w_later
  = ((Some (foldl initLine Examples.rl_simple
              (GoStrings.Split ("10.0.0.1" +:+ LF +:+ "10.0.0.2") LF)), None),
     MoreExamples.w_later, [EvStat "list.txt"; EvReadFile "list.txt"]).
Proof.
  apply (New_again_reads_the_cache "list.txt" "http://example.com/list.txt" Examples.hour
           None None None None None None Examples.w_stale MoreExamples.w_later).
  - rewrite New_run. reflexivity.
  - rewrite New_run. reflexivity.
  - intros n Hn. vm_compute in Hn. injection Hn as <-. vm_compute. reflexivity.
Defined.
